(** * image_optimizer: a shallow embedding of [src/image_optimizer.py]

    The script scans a directory tree for JPG/JPEG/PNG images, converts each
    of them to WebP, rewrites the references to them in the code files of the
    tree and optionally deletes the originals.

    Modelling conventions.
    - A Python [str] is a list of characters; characters are the 8-bit type
      [ascii], read as the code points 0..255 (ASCII and Latin-1).
    - A [pathlib.Path] (POSIX flavour) is the list of its [parts]; an absolute
      path starts with the part ["/"].
    - The file system is a finite map from paths to file contents; a
      directory that holds a file exists implicitly, as a proper prefix of
      the path of the file, and the other directories, which the program
      neither creates nor removes, are listed in the environment.
    - Functions that touch the file system are written in a state and
      exception monad over that map; a Python exception is a [Raise].
    - The image codec (Pillow), the text codecs and the directory enumeration
      order of the operating system are parameters of the model. *)

From Stdlib Require Import ZArith List Ascii String Bool Lia.
From stdpp Require Import base option list gmap strings.

Set Default Proof Using "Type".
Local Open Scope Z_scope.

(** ** Characters and strings *)

Abbreviation str := (list ascii).

(** Python string literals are written [py "..."]. *)
Definition py (s : string) : str := list_ascii_of_string s.

Definition code (c : ascii) : N := N_of_ascii c.

Definition in_range (lo hi : N) (c : ascii) : bool :=
  ((lo <=? code c) && (code c <=? hi))%N.

(** [str.lower] and the case folding of [re.IGNORECASE] on one character:
    [A-Z] and the Latin-1 capitals (0xC0..0xDE without the multiplication
    sign 0xD7) move up by 32, every other code point below 256 is fixed. *)
Definition tolower (c : ascii) : ascii :=
  if in_range 65 90 c || (in_range 192 222 c && negb (code c =? 215)%N)
  then ascii_of_N (code c + 32) else c.

Definition lower (s : str) : str := map tolower s.

(** A pattern literal [c] against a text character [x] under
    [re.IGNORECASE]. *)
Definition ci_eq (c x : ascii) : bool := Ascii.eqb (tolower c) (tolower x).

(** [str.isspace] on one character, which is also the class [\s] of a [str]
    pattern: TAB..CR, FS..US, space, NEL and the no-break space. *)
Definition is_space (c : ascii) : bool :=
  in_range 9 13 c || in_range 28 32 c || (code c =? 133)%N || (code c =? 160)%N.

Definition is_digit (c : ascii) : bool := in_range 48 57 c.
Definition is_octdigit (c : ascii) : bool := in_range 48 55 c.
Definition is_ascii_letter (c : ascii) : bool :=
  in_range 65 90 c || in_range 97 122 c.

Definition digit_val (c : ascii) : nat := N.to_nat (code c - 48).

(** [s.rfind(c)]: the index of the last occurrence of [c], if any. *)
Fixpoint rfind (c : ascii) (s : str) : option nat :=
  match s with
  | [] => None
  | x :: s' =>
      match rfind c s' with
      | Some i => Some (S i)
      | None => if Ascii.eqb x c then Some 0%nat else None
      end
  end.

Definition startswith (p s : str) : bool := bool_decide (take (length p) s = p).

(** ** Exceptions *)

Inductive exn : Type :=
| ValueError
| FileNotFoundError
| ZeroDivisionError
| UnicodeError
| ReError          (* re.error, or the IndexError of an unknown group *)
| CodecError.      (* whatever Pillow raises *)

Inductive result (A : Type) : Type :=
| Ok (a : A)
| Raise (e : exn).
Arguments Ok {A} a.
Arguments Raise {A} e.

Definition rbind {A B} (r : result A) (f : A -> result B) : result B :=
  match r with
  | Ok a => f a
  | Raise e => Raise e
  end.

(** ** pathlib *)

Abbreviation Path := (list str).

Definition root_part : str := py "/".

(** The anchor of an absolute POSIX path: one slash, or exactly two. *)
Definition is_anchor (a : str) : bool :=
  bool_decide (a = root_part) || bool_decide (a = py "//").

(** [Path.name]: the last part, or the empty string for a path that is
    only its anchor. *)
Definition name (p : Path) : str :=
  match p with
  | [a] => if is_anchor a then [] else a
  | _ => List.last p []
  end.

(** [Path.suffix]:
<<
    i = name.rfind('.')
    if 0 < i < len(name) - 1: return name[i:]
    else: return ''
>> *)
Definition suffix_of_name (n : str) : str :=
  match rfind "." n with
  | Some i => if bool_decide (0 < i < length n - 1)%nat then drop i n else []
  | None => []
  end.

Definition stem_of_name (n : str) : str :=
  match rfind "." n with
  | Some i => if bool_decide (0 < i < length n - 1)%nat then take i n else n
  | None => n
  end.

Definition suffix (p : Path) : str := suffix_of_name (name p).
Definition stem (p : Path) : str := stem_of_name (name p).

(** [Path.parent]: the path without its last part; an anchor or an empty
    path is its own parent. *)
Definition parent (p : Path) : Path :=
  if bool_decide (name p = []) then p else removelast p.

(** The validity test of [with_suffix] on its argument: no separator in it,
    and if not empty it starts with a dot and is not the dot alone. *)
Definition valid_suffix (sfx : str) : bool :=
  negb (bool_decide ("/"%char ∈ sfx)) &&
  negb ((negb (bool_decide (sfx = [])) && negb (startswith (py ".") sfx))
        || bool_decide (sfx = py ".")).

(** [Path.with_suffix(sfx)]:
<<
    if f.sep in suffix ...: raise ValueError
    if suffix and not suffix.startswith('.') or suffix == '.': raise ValueError
    name = self.name
    if not name: raise ValueError
    old_suffix = self.suffix
    if not old_suffix: name = name + suffix
    else: name = name[:-len(old_suffix)] + suffix
    return self._from_parsed_parts(..., self._parts[:-1] + [name])
>> *)
Definition with_suffix (p : Path) (sfx : str) : result Path :=
  if negb (valid_suffix sfx) then Raise ValueError
  else
    let n := name p in
    if bool_decide (n = []) then Raise ValueError
    else
      let old_suffix := suffix p in
      let n' :=
        if bool_decide (old_suffix = []) then n ++ sfx
        else take (length n - length old_suffix) n ++ sfx in
      Ok (removelast p ++ [n']).

(** ** Configuration *)

Definition IMAGE_EXTENSIONS : list str := [py ".jpg"; py ".jpeg"; py ".png"].

Definition CODE_EXTENSIONS : list str :=
  [py ".html"; py ".htm"; py ".php"; py ".css"; py ".js"; py ".jsx";
   py ".tsx"; py ".vue"; py ".svelte"; py ".md"; py ".markdown"].

Definition EXCLUDE_DIRS : list str :=
  [py ".git"; py "node_modules"; py "__pycache__"; py ".venv"; py "venv";
   py "env"; py ".env"; py "vendor"; py "dist"; py "build"].

(** ** The file system and the monad of the script *)

Abbreviation bytes := (list Byte.byte).
Abbreviation FS := (gmap Path bytes).

Definition io (A : Type) : Type := FS -> FS * result A.

Definition ret {A} (a : A) : io A := fun fs => (fs, Ok a).
Definition raise {A} (e : exn) : io A := fun fs => (fs, Raise e).
Definition lift {A} (r : result A) : io A := fun fs => (fs, r).

Definition bind {A B} (m : io A) (f : A -> io B) : io B :=
  fun fs =>
    match m fs with
    | (fs', Ok a) => f a fs'
    | (fs', Raise e) => (fs', Raise e)
    end.

(** [try: m  except Exception: h] *)
Definition try_except {A} (m : io A) (h : exn -> io A) : io A :=
  fun fs =>
    match m fs with
    | (fs', Ok a) => (fs', Ok a)
    | (fs', Raise e) => h e fs'
    end.

Declare Scope io_scope.
Delimit Scope io_scope with io.
Notation "x <- m ;; k" := (bind m (fun x => k))
  (at level 100, m at next level, right associativity) : io_scope.
Notation "m ;;; k" := (bind m (fun _ => k))
  (at level 100, right associativity) : io_scope.
Local Open Scope io_scope.

(** [p.exists()] and [p.is_file()]. [path_exists] is the test of the paths
    that the program writes, a backup or a WebP file: it takes it that no
    directory lies at such a path. *)
Definition path_exists (p : Path) : io bool :=
  fun fs => (fs, Ok (bool_decide (is_Some (fs !! p)))).

Definition is_file (fs : FS) (p : Path) : bool := bool_decide (is_Some (fs !! p)).

(** [p.exists()] for a path that may be a directory. The file system is
    flat: it implies the directories that hold a file, and [dirs] lists the
    directories that exist beside those, the empty ones among them. The
    path exists when it is a file, when a file lies below it, when it is
    one of [dirs], or when it is the root of the file system. *)
Definition dir_exists (dirs : list Path) (p : Path) : io bool :=
  fun fs => (fs, Ok (bool_decide (is_Some (fs !! p))
                     || existsb (fun kv => bool_decide (p `prefix_of` kv.1))
                          (map_to_list fs)
                     || bool_decide (p ∈ dirs)
                     || bool_decide (p = [root_part]))).

(** [p.stat().st_size] *)
Definition stat_size (p : Path) : io Z :=
  fun fs =>
    match fs !! p with
    | Some data => (fs, Ok (Z.of_nat (length data)))
    | None => (fs, Raise FileNotFoundError)
    end.

Definition read_bytes (p : Path) : io bytes :=
  fun fs =>
    match fs !! p with
    | Some data => (fs, Ok data)
    | None => (fs, Raise FileNotFoundError)
    end.

(** [open(p, 'w')] followed by a write: creates or replaces the file. *)
Definition write_bytes (p : Path) (data : bytes) : io unit :=
  fun fs => (<[p := data]> fs, Ok tt).

(** [shutil.copy2(src, dst)] *)
Definition copy2 (src dst : Path) : io unit :=
  data <- read_bytes src ;; write_bytes dst data.

(** [p.unlink()] *)
Definition unlink (p : Path) : io unit :=
  fun fs =>
    match fs !! p with
    | Some _ => (delete p fs, Ok tt)
    | None => (fs, Raise FileNotFoundError)
    end.

(** What the codec does with the bytes of a source image at a quality:
    it encodes them, or it fails, and a failed [save] may leave something
    at the destination. *)
Inductive codec_result : Type :=
| Encoded (out : bytes)
| Failed (partial : option bytes).

(** ** Regular expressions

    The part of Python's [re] that the three patterns of
    [update_references_in_file] use: literals (compared under
    [re.IGNORECASE]), character classes, greedy and lazy repetition of a
    class, an optional class and numbered groups. Matching is the
    backtracking search of [sre]: a continuation receives the rest of the
    text, and the first alternative that lets the continuation succeed
    wins. *)

Inductive regex : Type :=
| Eps
| Lit (c : ascii)                 (* a literal character *)
| Cls (f : ascii -> bool)         (* [...] , \s *)
| Star (f : ascii -> bool)        (* cls* *)
| LazyStar (f : ascii -> bool)    (* cls*? *)
| Opt (f : ascii -> bool)         (* cls? *)
| Seq (r1 r2 : regex)
| Grp (n : nat) (r : regex).      (* ( r ), the group number n *)

Abbreviation groups := (list (nat * str)).

Definition group (g : groups) (n : nat) : str :=
  match List.find (fun e => Nat.eqb (fst e) n) g with
  | Some e => snd e
  | None => []
  end.

Section Matcher.
Context {R : Type}.

Fixpoint star_greedy (f : ascii -> bool) (s : str) (k : str -> option R)
  : option R :=
  match s with
  | c :: s' =>
      if f c then
        match star_greedy f s' k with
        | Some r => Some r
        | None => k s
        end
      else k s
  | [] => k s
  end.

Fixpoint star_lazy (f : ascii -> bool) (s : str) (k : str -> option R)
  : option R :=
  match k s with
  | Some r => Some r
  | None =>
      match s with
      | c :: s' => if f c then star_lazy f s' k else None
      | [] => None
      end
  end.

Fixpoint mtch (r : regex) (s : str) (g : groups)
    (k : str -> groups -> option R) : option R :=
  match r with
  | Eps => k s g
  | Lit c =>
      match s with
      | x :: s' => if ci_eq c x then k s' g else None
      | [] => None
      end
  | Cls f =>
      match s with
      | x :: s' => if f x then k s' g else None
      | [] => None
      end
  | Star f => star_greedy f s (fun s' => k s' g)
  | LazyStar f => star_lazy f s (fun s' => k s' g)
  | Opt f =>
      match s with
      | x :: s' =>
          if f x then
            match k s' g with
            | Some r => Some r
            | None => k s g
            end
          else k s g
      | [] => k s g
      end
  | Seq r1 r2 => mtch r1 s g (fun s' g' => mtch r2 s' g' k)
  | Grp n r1 =>
      mtch r1 s g
        (fun s' g' => k s' ((n, take (length s - length s') s) :: g'))
  end.
End Matcher.

(** One attempt of the pattern at the start of [s]: the groups and the rest
    of the text. With [must_advance] an empty match is refused (and the
    search backtracks), as [sre] does right after an empty match. *)
Definition match_here (r : regex) (must_advance : bool) (s : str)
  : option (groups * str) :=
  mtch r s []
    (fun s' g =>
       if must_advance && Nat.eqb (length s') (length s) then None
       else Some (g, s')).

(** *** Replacement templates *)

Inductive titem : Type :=
| TLit (c : ascii)
| TGroup (n : nat).

Definition chr (n : nat) : ascii := ascii_of_nat n.

(** The escapes of a replacement template that stand for one character. *)
Definition escape_char (c : ascii) : option ascii :=
  if Ascii.eqb c "a" then Some (chr 7)
  else if Ascii.eqb c "b" then Some (chr 8)
  else if Ascii.eqb c "f" then Some (chr 12)
  else if Ascii.eqb c "n" then Some (chr 10)
  else if Ascii.eqb c "r" then Some (chr 13)
  else if Ascii.eqb c "t" then Some (chr 9)
  else if Ascii.eqb c "v" then Some (chr 11)
  else if Ascii.eqb c "\" then Some "\"%char
  else None.

Definition octal (ds : str) : nat :=
  fold_left (fun acc d => (8 * acc + digit_val d)%nat) ds 0%nat.

Definition decimal (ds : str) : N :=
  fold_left (fun acc d => (10 * acc + N.of_nat (digit_val d))%N) ds 0%N.

(** [addgroup]: a reference to a group that the pattern does not have is
    an error of the template. *)
Definition addgroup (ngroups : nat) (index : N) (tl : result (list titem))
  : result (list titem) :=
  if (N.of_nat ngroups <? index)%N then Raise ReError
  else rbind tl (fun l => Ok (TGroup (N.to_nat index) :: l)).

Definition addlit (c : ascii) (tl : result (list titem)) : result (list titem) :=
  rbind tl (fun l => Ok (TLit c :: l)).

(** [re._parser.parse_template] (Python 3.12 and later, where the name in
    [\g<name>] is a group name or a run of ASCII decimal digits; the
    patterns here have no named group, so a name is an error):
    a backslash and a digit start a group reference of one or two digits,
    or an octal escape of three digits; [\0] starts an octal escape;
    [\a \b \f \n \r \t \v \\] stand for one character; a backslash before
    another ASCII letter is an error, before anything else it is kept. *)
Fixpoint parse_template (ngroups : nat) (s : str) : result (list titem) :=
  match s with
  | [] => Ok []
  | c :: rest =>
      if negb (Ascii.eqb c "\") then addlit c (parse_template ngroups rest)
      else
        match rest with
        | [] => Raise ReError
        | e :: rest1 =>
            if Ascii.eqb e "g" then
              match rest1 with
              | lt :: rest2 =>
                  if Ascii.eqb lt "<" then
                    (fix group_name (t : str) (acc : str) {struct t}
                       : result (list titem) :=
                       match t with
                       | [] => Raise ReError
                       | x :: t' =>
                           if Ascii.eqb x ">" then
                             if bool_decide (acc = []) then Raise ReError
                             else if forallb is_digit acc then
                               addgroup ngroups (decimal acc)
                                 (parse_template ngroups t')
                             else Raise ReError
                           else group_name t' (acc ++ [x])
                       end) rest2 []
                  else Raise ReError
              | [] => Raise ReError
              end
            else if Ascii.eqb e "0" then
              match rest1 with
              | d1 :: rest2 =>
                  if is_octdigit d1 then
                    match rest2 with
                    | d2 :: rest3 =>
                        if is_octdigit d2 then
                          addlit (chr (octal [d1; d2] mod 256))
                            (parse_template ngroups rest3)
                        else
                          addlit (chr (octal [d1]))
                            (parse_template ngroups rest2)
                    | [] => addlit (chr (octal [d1])) (parse_template ngroups rest2)
                    end
                  else addlit (chr 0) (parse_template ngroups rest1)
              | [] => addlit (chr 0) (parse_template ngroups rest1)
              end
            else if is_digit e then
              match rest1 with
              | d1 :: rest2 =>
                  if is_digit d1 then
                    match rest2 with
                    | d2 :: rest3 =>
                        if is_octdigit e && is_octdigit d1 && is_octdigit d2 then
                          if (255 <? octal [e; d1; d2])%nat then Raise ReError
                          else addlit (chr (octal [e; d1; d2]))
                                 (parse_template ngroups rest3)
                        else addgroup ngroups (decimal [e; d1])
                               (parse_template ngroups rest2)
                    | [] => addgroup ngroups (decimal [e; d1])
                              (parse_template ngroups rest2)
                    end
                  else addgroup ngroups (decimal [e]) (parse_template ngroups rest1)
              | [] => addgroup ngroups (decimal [e]) (parse_template ngroups rest1)
              end
            else
              match escape_char e with
              | Some x => addlit x (parse_template ngroups rest1)
              | None =>
                  if is_ascii_letter e then Raise ReError
                  else addlit "\" (addlit e (parse_template ngroups rest1))
              end
        end
  end.

(** The expansion of a template on the groups of a match; a group that did
    not take part in the match expands to the empty string. *)
Definition expand (t : list titem) (g : groups) : str :=
  flat_map (fun i => match i with TLit c => [c] | TGroup n => group g n end) t.

(** [pattern.subn(template, s)], walking the text from left to right.
    [skip] counts the characters of [s] that still belong to the match found
    last. Where no match is pending the pattern is tried at the current
    position; after an empty match the next attempt at the same position
    must advance (Python 3.7 and later); a character that starts no match is
    copied. The result is the new text and the number of replacements. *)
Fixpoint subn_walk (r : regex) (t : list titem) (s : str) (skip : nat)
  : str * nat :=
  match skip with
  | S n =>
      match s with
      | _ :: s' => subn_walk r t s' n
      | [] => ([], 0%nat)
      end
  | O =>
      match match_here r false s with
      | Some (g, rest) =>
          match (length s - length rest)%nat, s with
          | S m, _ :: s' =>
              let '(out, cnt) := subn_walk r t s' m in
              (expand t g ++ out, S cnt)
          | S m, [] => (expand t g, 1%nat)
          | O, c :: s' =>
              match match_here r true s with
              | Some (g2, rest2) =>
                  let '(out, cnt) :=
                    subn_walk r t s' (length s - length rest2 - 1) in
                  (expand t g ++ expand t g2 ++ out, S (S cnt))
              | None =>
                  let '(out, cnt) := subn_walk r t s' 0 in
                  (expand t g ++ c :: out, S cnt)
              end
          | O, [] => (expand t g, 1%nat)
          end
      | None =>
          match s with
          | c :: s' =>
              let '(out, cnt) := subn_walk r t s' 0 in
              (c :: out, cnt)
          | [] => ([], 0%nat)
          end
      end
  end.

Fixpoint count_groups (r : regex) : nat :=
  match r with
  | Seq r1 r2 => (count_groups r1 + count_groups r2)%nat
  | Grp _ r1 => S (count_groups r1)
  | _ => 0%nat
  end.

(** [re.subn(pattern, repl, s, flags=re.IGNORECASE)]: the template is
    compiled first, so a bad template raises whether or not the pattern
    matches anywhere. *)
Definition re_subn (r : regex) (repl : str) (s : str) : result (str * nat) :=
  rbind (parse_template (count_groups r) repl)
        (fun t => Ok (subn_walk r t s 0)).

(** *** The three context patterns *)

Definition is_quote (c : ascii) : bool :=
  Ascii.eqb c "'" || Ascii.eqb c (chr 34).
Definition not_quote (c : ascii) : bool := negb (is_quote c).
Definition not_rparen (c : ascii) : bool := negb (Ascii.eqb c ")").
Definition not_rbracket (c : ascii) : bool := negb (Ascii.eqb c "]").

Fixpoint seq (rs : list regex) : regex :=
  match rs with
  | [] => Eps
  | [r] => r
  | r :: rs' => Seq r (seq rs')
  end.

(** [re.escape(old_name)]: the pattern that matches the characters of the
    name literally. *)
Definition re_escape (old_name : str) : regex :=
  foldr (fun c r => Seq (Lit c) r) Eps old_name.

(** The quoted-attribute pattern; here and below Q is the double quote
    character and the groups are set apart by spaces:
    [ ([Q'])  ([^Q']*?)  ({old_escaped})  ([Q']) ] *)
Definition pattern_quoted (old_name : str) : regex :=
  seq [Grp 1 (Cls is_quote); Grp 2 (LazyStar not_quote);
       Grp 3 (re_escape old_name); Grp 4 (Cls is_quote)].

(** The CSS pattern:
    [ (url \s* \( \s* )  ([Q']?)  ([^)]*?)  ({old_escaped})  ([Q']? \s* \)) ] *)
Definition pattern_url (old_name : str) : regex :=
  seq [Grp 1 (seq [Lit "u"; Lit "r"; Lit "l"; Star is_space; Lit "(";
                   Star is_space]);
       Grp 2 (Opt is_quote); Grp 3 (LazyStar not_rparen);
       Grp 4 (re_escape old_name);
       Grp 5 (seq [Opt is_quote; Star is_space; Lit ")"])].

(** The markdown pattern:
    [ (\! \[ [^\]]* \] \s* \()  ([^)]*?)  ({old_escaped})  (\)) ] *)
Definition pattern_markdown (old_name : str) : regex :=
  seq [Grp 1 (seq [Lit "!"; Lit "["; Star not_rbracket; Lit "]";
                   Star is_space; Lit "("]);
       Grp 2 (LazyStar not_rparen); Grp 3 (re_escape old_name);
       Grp 4 (Lit ")")].

(** The replacement strings [rf'\1\2{new_name}\4'], [rf'\1\2\3{new_name}\5']
    and [rf'\1\2{new_name}\4']: the new name is pasted into the template
    as it is. *)
Definition repl_quoted (new_name : str) : str := py "\1\2" ++ new_name ++ py "\4".
Definition repl_url (new_name : str) : str := py "\1\2\3" ++ new_name ++ py "\5".
Definition repl_markdown (new_name : str) : str := py "\1\2" ++ new_name ++ py "\4".

Definition patterns (old_name new_name : str) : list (regex * str) :=
  [(pattern_quoted old_name, repl_quoted new_name);
   (pattern_url old_name, repl_url new_name);
   (pattern_markdown old_name, repl_markdown new_name)].

(** ** Dictionaries

    [image_mappings] is a Python [dict]: an assignment to a key that is
    present replaces its value in place, a new key goes to the end, and
    [items()] runs in that order. *)

Abbreviation dict := (list (str * str)).

Fixpoint dict_set (k v : str) (d : dict) : dict :=
  match d with
  | [] => [(k, v)]
  | (k', v') :: d' =>
      if bool_decide (k' = k) then (k, v) :: d' else (k', v') :: dict_set k v d'
  end.

Fixpoint dict_get (k : str) (d : dict) : option str :=
  match d with
  | [] => None
  | (k', v') :: d' => if bool_decide (k' = k) then Some v' else dict_get k d'
  end.

(** ** Command line and environment *)

Record arguments : Type := {
  quality : Z;
  dry_run : bool;
  backup : bool;
  verbose : bool;
  delete_originals : bool;
  path : option str
}.

(** [script_file] is [__file__], [cwd] the directory the program is invoked
    from, and [directories] the directories that exist without a file
    below them: the program creates and removes no directory, so they are
    the same during a whole run. *)
Record environment : Type := {
  script_file : Path;
  cwd : Path;
  directories : list Path
}.

Definition is_absolute (p : Path) : bool :=
  match p with
  | a :: _ => is_anchor a
  | [] => false
  end.

(** [str.split('/')] *)
Fixpoint split_slash (s : str) (cur : str) : list str :=
  match s with
  | [] => [cur]
  | c :: s' =>
      if Ascii.eqb c "/" then cur :: split_slash s' [] else split_slash s' (cur ++ [c])
  end.

(** [Path(s)]: the parts of [s], without empty parts and single dots, after
    the anchor of an absolute path (two leading slashes, but not three, are
    an anchor of their own). *)
Definition Path_of (s : str) : Path :=
  let parts :=
    List.filter (fun x => negb (bool_decide (x = []) || bool_decide (x = py ".")))
                (split_slash s []) in
  if startswith (py "//") s && negb (startswith (py "///") s)
  then py "//" :: parts
  else if startswith (py "/") s then root_part :: parts
  else parts.

(** The [..] parts of an absolute path, resolved from left to right; the
    parent of the root is the root. [acc] is the resolved path so far. *)
Fixpoint resolve_dots (acc : Path) (p : Path) : Path :=
  match p with
  | [] => acc
  | x :: p' =>
      if bool_decide (x = py "..") then
        resolve_dots (if bool_decide (name acc = []) then acc else removelast acc) p'
      else resolve_dots (acc ++ [x]) p'
  end.

(** [Path.resolve()], without symbolic links: a relative path is taken from
    the current directory, the anchor becomes a single slash and the [..]
    parts are resolved. *)
Definition resolve (env : environment) (p : Path) : Path :=
  resolve_dots []
    (if is_absolute p then root_part :: List.tl p else cwd env ++ p).

(** The directory where the script is located:
<<
    def get_script_directory() -> Path:
        return Path(__file__).resolve().parent
>> *)
Definition get_script_directory (env : environment) : Path :=
  parent (resolve env (script_file env)).

(** ** The pipeline *)

Inductive encoding : Type := utf_8 | latin_1 | cp1252.

Record conversion : Type := {
  converted : list (Path * Path);
  failed : list Path;
  total_original_size : Z;
  total_new_size : Z;
  image_mappings : dict
}.

Record report : Type := {
  found : list Path;
  images_done : conversion;
  references : option (nat * nat);   (* total_replacements, files_updated *)
  deleted : option nat
}.

Inductive outcome : Type :=
| Exit (status : Z)        (* sys.exit(status) *)
| NoImages                 (* the early return *)
| Done (r : report).

Section Pipeline.
(** Pillow: what opening [data] and saving it as WebP at a quality gives. *)
Variable codec : bytes -> Z -> codec_result.
(** [root.rglob('*')] on a file system, in the order of the traversal. *)
Variable rglob : FS -> Path -> list Path.
(** The text layer of [open]: decoding the bytes of a file in an encoding
    ([None] is a [UnicodeDecodeError]) and encoding a text in UTF-8. *)
Variable text_decode : encoding -> bytes -> option str.
Variable text_encode : str -> option bytes.

Definition excluded (item : Path) : bool :=
  existsb (fun e => bool_decide (e ∈ item)) EXCLUDE_DIRS.

Definition scan (exts : list str) (fs : FS) (root_dir : Path) : list Path :=
  List.filter
    (fun item =>
       negb (excluded item)
       && (is_file fs item && bool_decide (lower (suffix item) ∈ exts)))
    (rglob fs root_dir).

Definition find_images (root_dir : Path) : io (list Path) :=
  fun fs => (fs, Ok (scan IMAGE_EXTENSIONS fs root_dir)).

Definition find_code_files (root_dir : Path) : io (list Path) :=
  fun fs => (fs, Ok (scan CODE_EXTENSIONS fs root_dir)).

(** [with Image.open(image_path) as img: ... img.save(webp_path, 'WEBP',
    quality=quality, method=6)] *)
Definition open_convert_save (image_path : Path) (q : Z) (webp_path : Path)
  : io unit :=
  fun fs =>
    match fs !! image_path with
    | None => (fs, Raise FileNotFoundError)
    | Some data =>
        match codec data q with
        | Encoded out => (<[webp_path := out]> fs, Ok tt)
        | Failed (Some junk) => (<[webp_path := junk]> fs, Raise CodecError)
        | Failed None => (fs, Raise CodecError)
        end
    end.

Definition make_backup (image_path : Path) : io unit :=
  backup_path <- lift (with_suffix image_path (suffix image_path ++ py ".backup")) ;;
  present <- path_exists backup_path ;;
  if negb present then copy2 image_path backup_path else ret tt.

Definition convert_to_webp (image_path : Path) (q : Z) (bk : bool)
  : io (Path * bool) :=
  webp_path <- lift (with_suffix image_path (py ".webp")) ;;
  try_except
    ((if bk then make_backup image_path else ret tt) ;;;
     open_convert_save image_path q webp_path ;;;
     ret (webp_path, true))
    (fun _ => ret (webp_path, false)).

(** The loop over the encodings of [update_references_in_file]. *)
Fixpoint read_content (encs : list encoding) (file_path : Path)
  : io (option str) :=
  match encs with
  | [] => ret None
  | e :: encs' =>
      data <- read_bytes file_path ;;
      match text_decode e data with
      | Some content => ret (Some content)
      | None => read_content encs' file_path
      end
  end.

(** [with open(file_path, 'w', encoding='utf-8') as f: f.write(content)]:
    opening truncates the file before the text is encoded. *)
Definition write_content (file_path : Path) (content : str) : io unit :=
  match text_encode content with
  | Some data => write_bytes file_path data
  | None => write_bytes file_path [] ;;; raise UnicodeError
  end.

(** The inner loop, over the patterns of one mapping entry. *)
Fixpoint apply_patterns (ps : list (regex * str)) (content : str)
    (replacements : nat) : result (str * nat) :=
  match ps with
  | [] => Ok (content, replacements)
  | (pattern, replacement) :: ps' =>
      rbind (re_subn pattern replacement content)
        (fun '(new_content, count) =>
           if (0 <? count)%nat
           then apply_patterns ps' new_content (replacements + count)%nat
           else apply_patterns ps' content replacements)
  end.

(** The outer loop, over [image_mappings.items()]. *)
Fixpoint apply_mappings (m : dict) (content : str) (replacements : nat)
  : result (str * nat) :=
  match m with
  | [] => Ok (content, replacements)
  | (old_name, new_name) :: m' =>
      rbind (apply_patterns (patterns old_name new_name) content replacements)
        (fun '(content', replacements') =>
           apply_mappings m' content' replacements')
  end.

Definition update_references_in_file (file_path : Path) (m : dict)
    (root_dir : Path) (dry : bool) (verb : bool) : io nat :=
  try_except
    (content <- read_content [utf_8; latin_1; cp1252] file_path ;;
     match content with
     | None => ret 0%nat
     | Some original_content =>
         res <- lift (apply_mappings m original_content 0) ;;
         let '(content, replacements) := res in
         (if negb (bool_decide (content = original_content)) then
            if negb dry then write_content file_path content else ret tt
          else ret tt) ;;;
         ret replacements
     end)
    (fun _ => ret 0%nat).

(** The body of the conversion loop of [main], for one image. *)
Definition convert_image (args : arguments) (st : conversion)
    (image_path : Path) : io conversion :=
  original_size <- stat_size image_path ;;
  let total := total_original_size st + original_size in
  if dry_run args then
    webp_path <- lift (with_suffix image_path (py ".webp")) ;;
    ret {| converted := converted st ++ [(image_path, webp_path)];
           failed := failed st;
           total_original_size := total;
           total_new_size := total_new_size st;
           image_mappings :=
             dict_set (name image_path) (name webp_path) (image_mappings st) |}
  else
    res <- convert_to_webp image_path (quality args) (backup args) ;;
    let '(webp_path, success) := res in
    if success then
      new_size <- stat_size webp_path ;;
      (* savings = ((original_size - new_size) / original_size) * 100 *)
      (if verbose args && (original_size =? 0) then raise ZeroDivisionError
       else ret tt) ;;;
      ret {| converted := converted st ++ [(image_path, webp_path)];
             failed := failed st;
             total_original_size := total;
             total_new_size := total_new_size st + new_size;
             image_mappings :=
               dict_set (name image_path) (name webp_path) (image_mappings st) |}
    else
      ret {| converted := converted st;
             failed := failed st ++ [image_path];
             total_original_size := total;
             total_new_size := total_new_size st;
             image_mappings := image_mappings st |}.

Fixpoint convert_images (args : arguments) (images : list Path)
    (st : conversion) : io conversion :=
  match images with
  | [] => ret st
  | image_path :: images' =>
      st' <- convert_image args st image_path ;;
      convert_images args images' st'
  end.

Definition no_conversion : conversion :=
  {| converted := []; failed := []; total_original_size := 0;
     total_new_size := 0; image_mappings := [] |}.

(** The loop over the code files: [(total_replacements, files_updated)]. *)
Fixpoint update_files (args : arguments) (m : dict) (root_dir : Path)
    (code_files : list Path) (acc : nat * nat) : io (nat * nat) :=
  match code_files with
  | [] => ret acc
  | code_file :: code_files' =>
      replacements <-
        update_references_in_file code_file m root_dir (dry_run args)
          (verbose args) ;;
      update_files args m root_dir code_files'
        (if (0 <? replacements)%nat
         then (fst acc + replacements, snd acc + 1)%nat
         else acc)
  end.

(** The deletion loop over [converted]. *)
Fixpoint delete_originals_loop (pairs : list (Path * Path)) (deleted : nat)
  : io nat :=
  match pairs with
  | [] => ret deleted
  | (original_path, webp_path) :: pairs' =>
      present <- path_exists webp_path ;;
      if present then
        d <- try_except (unlink original_path ;;; ret (S deleted))
                        (fun _ => ret deleted) ;;
        delete_originals_loop pairs' d
      else delete_originals_loop pairs' deleted
  end.

(** The deletion phase with its guard:
    [if args.delete_originals and not args.dry_run and converted:] *)
Definition delete_phase (args : arguments) (pairs : list (Path * Path))
  : io (option nat) :=
  if delete_originals args && negb (dry_run args)
     && negb (bool_decide (pairs = []))
  then d <- delete_originals_loop pairs 0 ;; ret (Some d)
  else ret None.

(** <<
    if args.path:
        root_dir = Path(args.path).resolve()
    else:
        root_dir = get_script_directory()
>> *)
Definition root_directory (env : environment) (args : arguments) : Path :=
  match path args with
  | Some p =>
      if bool_decide (p = []) then get_script_directory env
      else resolve env (Path_of p)
  | None => get_script_directory env
  end.

Definition main (env : environment) (args : arguments) : io outcome :=
  if negb ((1 <=? quality args) && (quality args <=? 100)) then ret (Exit 1)
  else
    let root_dir := root_directory env args in
    present <- dir_exists (directories env) root_dir ;;
    if negb present then ret (Exit 1)
    else
      images <- find_images root_dir ;;
      if bool_decide (images = []) then ret NoImages
      else
        conv <- convert_images args images no_conversion ;;
        code_files <- find_code_files root_dir ;;
        refs <-
          (if bool_decide (code_files = []) then ret None
           else
             r <- update_files args (image_mappings conv) root_dir
                    code_files (0, 0)%nat ;;
             ret (Some r)) ;;
        del <- delete_phase args (converted conv) ;;
        ret (Done {| found := images; images_done := conv;
                     references := refs; deleted := del |}).

End Pipeline.

(** ** Path variants *)

(** ['/'.join(parts)] *)
Fixpoint join_slash (parts : list str) : str :=
  match parts with
  | [] => []
  | [a] => a
  | a :: rest => a ++ "/"%char :: join_slash rest
  end.

(** [str(path)]: the anchor, then the other parts joined by slashes; the
    empty path is a dot. *)
Definition Path_str (p : Path) : str :=
  match p with
  | [] => py "."
  | a :: rest => if is_anchor a then a ++ join_slash rest else join_slash p
  end.

(** [path.relative_to(other)]: the parts of [path] after those of [other],
    a [ValueError] when [other] does not start [path]; an absolute path is
    not relative to the empty path. *)
Definition relative_to (p other : Path) : result Path :=
  match other with
  | [] => if is_absolute p then Raise ValueError else Ok p
  | _ =>
      if bool_decide (take (length other) p = other)
      then Ok (drop (length other) p)
      else Raise ValueError
  end.

(** [s.replace('\\', '/')] *)
Definition replace_backslash (s : str) : str :=
  map (fun c => if Ascii.eqb c "\" then "/"%char else c) s.

(** <<
    try:
        rel_path = image_path.relative_to(root_dir)
    except ValueError:
        rel_path = image_path
    filename = image_path.name
    rel_str = str(rel_path).replace('\\', '/')
    variants.add(filename)
    variants.add(rel_str)
    variants.add('./' + rel_str)
    variants.add('/' + rel_str)
    variants.add(str(rel_path))
>> *)
Definition get_relative_path_variants (image_path root_dir : Path) : gset str :=
  let rel_path :=
    match relative_to image_path root_dir with
    | Ok rel => rel
    | Raise _ => image_path
    end in
  let filename := name image_path in
  let rel_str := replace_backslash (Path_str rel_path) in
  {[ filename ]} ∪ {[ rel_str ]} ∪ {[ py "./" ++ rel_str ]}
  ∪ {[ py "/" ++ rel_str ]} ∪ {[ Path_str rel_path ]}.

(** ** Vocabulary of the properties *)

(** A computation that only reads: it hands back the file system it got. *)
Definition readonly {A} (m : io A) : Prop := ∀ fs, (m fs).1 = fs.

(** A computation that deletes nothing: every file is still there after
    it. *)
Definition keeps_files {A} (m : io A) : Prop :=
  ∀ fs x, is_Some (fs !! x) → is_Some ((m fs).1 !! x).

(** The projected name of the converted file: the stem of the old name
    followed by [.webp]. *)
Definition webp_name (old_name : str) : str := stem_of_name old_name ++ py ".webp".

(** The dictionary that the assignments [image_mappings[old.name] = new.name]
    build, pair after pair. *)
Definition mapping_of (pairs : list (Path * Path)) : dict :=
  fold_left (fun m ow => dict_set (name ow.1) (name ow.2) m) pairs [].

(** The entries of a dictionary under a key. *)
Definition entries (k : str) (d : dict) : list (str * str) :=
  List.filter (fun e => bool_decide (e.1 = k)) d.

(** The size of a file on disk, and of a list of files. *)
Definition size_on_disk (fs : FS) (p : Path) : Z :=
  match fs !! p with
  | Some data => Z.of_nat (length data)
  | None => 0
  end.

Definition total_size (fs : FS) (ps : list Path) : Z :=
  foldr (fun p acc => size_on_disk fs p + acc) 0 ps.

(** What a pattern matches, without the search: [denotes r m g g'] says
    that [r] matches exactly the text [m] and takes the groups from [g] to
    [g']. *)
Inductive denotes : regex -> str -> groups -> groups -> Prop :=
| den_eps g : denotes Eps [] g g
| den_lit c x g : ci_eq c x = true -> denotes (Lit c) [x] g g
| den_cls f x g : f x = true -> denotes (Cls f) [x] g g
| den_star f m g : forallb f m = true -> denotes (Star f) m g g
| den_lazy f m g : forallb f m = true -> denotes (LazyStar f) m g g
| den_opt_none f g : denotes (Opt f) [] g g
| den_opt_some f x g : f x = true -> denotes (Opt f) [x] g g
| den_seq r1 r2 m1 m2 g g1 g2 :
    denotes r1 m1 g g1 -> denotes r2 m2 g1 g2 ->
    denotes (Seq r1 r2) (m1 ++ m2) g g2
| den_grp n r m g g1 :
    denotes r m g g1 -> denotes (Grp n r) m g ((n, m) :: g1).

(** A text and what [subn] makes of it, when every replaced segment [m]
    and its replacement [m'] are related by [shape]: characters are copied
    or segments are replaced, from left to right; the number counts the
    replaced segments. *)
Inductive rewritten (shape : str -> str -> Prop) : str -> str -> nat -> Prop :=
| rw_end : rewritten shape [] [] 0%nat
| rw_copy c s out n :
    rewritten shape s out n -> rewritten shape (c :: s) (c :: out) n
| rw_subst m m' s out n :
    shape m m' -> rewritten shape s out n ->
    rewritten shape (m ++ s) (m' ++ out) (S n).

(** [old'] is [old] up to the case of its characters. *)
Definition ci_match (old old' : str) : Prop :=
  Forall2 (fun c x => ci_eq c x = true) old old'.

Definition all (f : ascii -> bool) (s : str) : Prop := forallb f s = true.

Definition opt_quote (q : str) : Prop :=
  q = [] ∨ ∃ c, q = [c] ∧ is_quote c = true.

(** The segments that the three rules replace, and their replacements:
    delimiters and prefix stay, the occurrence of the old name becomes the
    new name. *)
Definition quoted_shape (old new m m' : str) : Prop :=
  ∃ q prefix old' q',
    m = q :: prefix ++ old' ++ [q'] ∧ m' = q :: prefix ++ new ++ [q'] ∧
    is_quote q = true ∧ is_quote q' = true ∧
    all not_quote prefix ∧ ci_match old old'.

Definition url_shape (old new m m' : str) : Prop :=
  ∃ u r l ws1 ws2 qo prefix old' qc ws3,
    let head := u :: r :: l :: ws1 ++ "("%char :: ws2 in
    let tail := qc ++ ws3 ++ [")"%char] in
    m = head ++ qo ++ prefix ++ old' ++ tail ∧
    m' = head ++ qo ++ prefix ++ new ++ tail ∧
    ci_match (py "url") [u; r; l] ∧ all is_space ws1 ∧ all is_space ws2 ∧
    opt_quote qo ∧ all not_rparen prefix ∧ ci_match old old' ∧
    opt_quote qc ∧ all is_space ws3.

Definition markdown_shape (old new m m' : str) : Prop :=
  ∃ alt ws prefix old',
    let head := "!"%char :: "["%char :: alt ++ "]"%char :: ws ++ ["("%char] in
    m = head ++ prefix ++ old' ++ [")"%char] ∧
    m' = head ++ prefix ++ new ++ [")"%char] ∧
    all not_rbracket alt ∧ all is_space ws ∧
    all not_rparen prefix ∧ ci_match old old'.

(** A new name that the replacement template takes literally: no
    backslash in it, and no digit at its start (a digit would run into
    the group reference before it). *)
Definition template_safe (new : str) : Prop :=
  ("\"%char ∉ new) ∧
  (match new with
   | c :: _ => is_digit c = false
   | [] => True
   end).

(** What a rule does to a text: [re.subn] returns; the new text is the old
    one with segments of the rule's shape replaced, counted one by one;
    and a text that holds a segment of that shape gets at least one
    replacement. *)
Definition rule_rewrites (pattern : regex) (repl : str)
    (shape : str -> str -> Prop) (text : str) : Prop :=
  ∃ out n,
    re_subn pattern repl text = Ok (out, n) ∧
    rewritten shape text out n ∧
    (∀ pre m m' post, text = pre ++ m ++ post → shape m m' → (1 ≤ n)%nat).

(** The old name occurs in a text, in any case. *)
Definition occurs_ci (old text : str) : Prop :=
  ∃ pre old' post, text = pre ++ old' ++ post ∧ ci_match old old'.

(** The same, as a test: the old name starts the text, or occurs further
    on. *)
Fixpoint ci_prefix (old s : str) : bool :=
  match old, s with
  | [], _ => true
  | c :: old', x :: s' => ci_eq c x && ci_prefix old' s'
  | _ :: _, [] => false
  end.

Fixpoint occurs_cib (old s : str) : bool :=
  ci_prefix old s ||
  match s with
  | [] => false
  | _ :: s' => occurs_cib old s'
  end.

(** A new name that the replacement template refuses: it starts with a
    digit, which reads with the group reference before it as a reference
    to a group from 10 to 39 (unless the digit and the character after it
    are octal digits, which makes the three an octal escape). *)
Definition breaks_template (new : str) : bool :=
  match new with
  | d :: rest =>
      is_digit d &&
      negb (is_octdigit d &&
            match rest with d2 :: _ => is_octdigit d2 | [] => false end)
  | [] => false
  end.

(** ** Sample inputs *)

(** A codec that refuses an empty file and otherwise drops the first
    byte. *)
Definition sample_codec (data : bytes) (q : Z) : codec_result :=
  match data with
  | [] => Failed None
  | _ :: out => Encoded out
  end.

(** A traversal that lists the files below the root in the order of the
    map. *)
Definition sample_rglob (fs : FS) (root_dir : Path) : list Path :=
  List.filter (fun p => bool_decide (root_dir `prefix_of` p))
              (map fst (map_to_list fs)).

(** Latin-1 in both directions. *)
Definition sample_decode (e : encoding) (data : bytes) : option str :=
  Some (map ascii_of_byte data).
Definition sample_encode (content : str) : option bytes :=
  Some (map byte_of_ascii content).

Definition file (s : string) : bytes := map byte_of_ascii (py s).

Definition site : Path := [py "/"; py "site"].
Definition photo_jpg : Path := site ++ [py "img"; py "photo.jpg"].
Definition logo_a : Path := site ++ [py "a"; py "logo.png"].
Definition logo_b : Path := site ++ [py "b"; py "logo.png"].
Definition index_html : Path := site ++ [py "index.html"].
Definition photo_backup : Path := site ++ [py "img"; py "photo.jpg.backup"].
Definition logo_a_backup : Path := site ++ [py "a"; py "logo.png.backup"].

(** A site with one good image, two images of the same name that the
    codec refuses, and a page. *)
Definition site_fs : FS :=
  <[photo_jpg := file "JPEGDATA"]>
  (<[logo_a := []]>
  (<[logo_b := []]>
  (<[index_html := file "<img src='img/photo.jpg'> <img src='my-photo.jpg'>"]>
   ∅))).

(** The same site with good logos. *)
Definition good_site_fs : FS :=
  <[logo_a := file "PNG-A"]> (<[logo_b := file "PNG-B"]> site_fs).

(** The program lives in [/opt/tools] and is invoked from [/site], which
    has an empty directory [/site/empty]. *)
Definition sample_env : environment :=
  {| script_file := [py "/"; py "opt"; py "tools"; py "image_optimizer.py"];
     cwd := site;
     directories := [site ++ [py "empty"]] |}.

Definition real_args : arguments :=
  {| quality := 85; dry_run := false; backup := true; verbose := false;
     delete_originals := true; path := Some (py "/site") |}.

Definition dry_args : arguments :=
  {| quality := 85; dry_run := true; backup := true; verbose := false;
     delete_originals := true; path := Some (py "/site") |}.

Definition default_args : arguments :=
  {| quality := 85; dry_run := false; backup := false; verbose := false;
     delete_originals := false; path := None |}.

Definition sample_main (args : arguments) (fs : FS) : FS * result outcome :=
  main sample_codec sample_rglob sample_decode sample_encode sample_env args fs.

(** The report of a run that came to its end. *)
Definition report_of (run : FS * result outcome) : option report :=
  match run.2 with
  | Ok (Done r) => Some r
  | _ => None
  end.

Definition mapping_of_run (run : FS * result outcome) : option dict :=
  option_map (fun r => image_mappings (images_done r)) (report_of run).

Definition found_of_run (run : FS * result outcome) : option (list Path) :=
  option_map found (report_of run).

(** The state that a conversion loop came back with. *)
Definition conv_of (run : FS * result conversion) : conversion :=
  match run.2 with
  | Ok c => c
  | Raise _ => no_conversion
  end.

Definition site_images : list Path := [logo_a; logo_b; photo_jpg].

(** The report of a run, empty when the run did not come to its end. *)
Definition the_report (run : FS * result outcome) : report :=
  default {| found := []; images_done := no_conversion; references := None;
             deleted := None |} (report_of run).

Definition photo_png : Path := site ++ [py "img"; py "photo.png"].
Definition photo_webp : Path := site ++ [py "img"; py "photo.webp"].
Definition photo_mapping : dict := [(py "photo.jpg", py "photo.webp")].

Definition digit_mapping : dict :=
  [(py "photo.jpg", py "photo.webp"); (py "1.jpg", py "1.webp")].

(** A package directory with an image in it, taken as the root. *)
Definition modules : Path := site ++ [py "node_modules"].
Definition modules_fs : FS :=
  <[modules ++ [py "pkg"; py "icon.png"] := file "PNG"]> site_fs.

(** The real run at a quality that is out of range, and the real run on
    the empty directory. *)
Definition bad_args : arguments :=
  {| quality := 0; dry_run := false; backup := true; verbose := false;
     delete_originals := true; path := Some (py "/site") |}.
Definition empty_args : arguments :=
  {| quality := 85; dry_run := false; backup := true; verbose := false;
     delete_originals := true; path := Some (py "/site/empty") |}.

(** * Properties *)

(** ** Sample evaluations *)

Example with_suffix_photo :
  with_suffix [py "/"; py "site"; py "img"; py "photo.jpg"] (py ".webp")
  = Ok [py "/"; py "site"; py "img"; py "photo.webp"].
Proof. reflexivity. Qed.

Example with_suffix_backup :
  let p := [py "img"; py "photo.JPG"] in
  with_suffix p (suffix p ++ py ".backup") = Ok [py "img"; py "photo.JPG.backup"].
Proof. reflexivity. Qed.

Example suffix_hidden : suffix [py "img"; py ".jpg"] = [].
Proof. reflexivity. Qed.

Example subn_quoted_photo :
  re_subn (pattern_quoted (py "photo.jpg")) (repl_quoted (py "photo.webp"))
          (py "<img src='/assets/img/photo.jpg'>")
  = Ok (py "<img src='/assets/img/photo.webp'>", 1%nat).
Proof. vm_compute. reflexivity. Qed.

Example subn_url_old :
  re_subn (pattern_url (py "old.png")) (repl_url (py "old.webp"))
          (py "background: URL( images/old.png );")
  = Ok (py "background: URL( images/old.webp );", 1%nat).
Proof. vm_compute. reflexivity. Qed.

Example subn_markdown_logo :
  re_subn (pattern_markdown (py "logo.png")) (repl_markdown (py "logo.webp"))
          (py "see ![Logo](images/logo.png) and ![x](LOGO.PNG)")
  = Ok (py "see ![Logo](images/logo.webp) and ![x](logo.webp)", 2%nat).
Proof. vm_compute. reflexivity. Qed.

(** A new name that starts with a digit runs into the group reference
    before it: [\2] and [1] read as group 21, which the pattern does not
    have. *)
Example subn_digit_name :
  re_subn (pattern_quoted (py "1.jpg")) (repl_quoted (py "1.webp"))
          (py "<img src='1.jpg'>")
  = Raise ReError.
Proof. vm_compute. reflexivity. Qed.

(** With an entry whose new name starts with a digit in the mapping, no
    code file is updated: the template of that entry is refused, the
    exception is caught and the file is reported with zero replacements,
    whatever the other entries would have replaced. *)
Example digit_name_blocks_update :
  apply_mappings [(py "photo.jpg", py "photo.webp"); (py "1.jpg", py "1.webp")]
    (py "<img src='img/photo.jpg'>") 0 = Raise ReError ∧
  update_references_in_file sample_decode sample_encode index_html
    [(py "photo.jpg", py "photo.webp"); (py "1.jpg", py "1.webp")]
    site false false site_fs = (site_fs, Ok 0%nat).
Proof.
  split; [vm_compute; reflexivity|].
  unfold update_references_in_file, try_except, bind.
  assert (H : read_content sample_decode [utf_8; latin_1; cp1252] index_html
                site_fs
              = (site_fs,
                 Ok (Some (py "<img src='img/photo.jpg'> <img src='my-photo.jpg'>")))).
  { unfold read_content, bind, read_bytes.
    assert (E : site_fs !! index_html
                = Some (file "<img src='img/photo.jpg'> <img src='my-photo.jpg'>"))
      by (vm_compute; reflexivity).
    rewrite E. reflexivity. }
  rewrite H. unfold lift.
  assert (E : apply_mappings
                [(py "photo.jpg", py "photo.webp"); (py "1.jpg", py "1.webp")]
                (py "<img src='img/photo.jpg'> <img src='my-photo.jpg'>") 0
              = Raise ReError) by (vm_compute; reflexivity).
  rewrite E. reflexivity.
Qed.

(** ** pathlib *)

Lemma rfind_after (c : ascii) (a b : str) :
  c ∉ b → rfind c (a ++ c :: b) = Some (length a).
Proof.
  intros Hb.
  assert (Hnone : rfind c b = None).
  { clear a. induction b as [|x b IH]; [done|].
    simpl. rewrite IH by set_solver.
    destruct (Ascii.eqb_spec x c) as [->|]; [set_solver|done]. }
  induction a as [|x a IH]; simpl.
  - rewrite Hnone, Ascii.eqb_refl. done.
  - rewrite IH. done.
Qed.

(** A name with a suffix splits into its stem and its suffix, and the stem
    is not empty. *)
Lemma name_split (n : str) :
  suffix_of_name n ≠ [] →
  n = stem_of_name n ++ suffix_of_name n ∧ stem_of_name n ≠ [] ∧
  length (stem_of_name n) = (length n - length (suffix_of_name n))%nat.
Proof.
  unfold suffix_of_name, stem_of_name.
  destruct (rfind "." n) as [i|]; [|done].
  case_bool_decide as Hi; [|done].
  intros _. split_and!.
  - by rewrite take_drop.
  - intros Ht. apply (f_equal length) in Ht. rewrite length_take in Ht.
    simpl in Ht. lia.
  - rewrite length_take, length_drop. lia.
Qed.

Lemma name_snoc (l : Path) (n : str) :
  is_anchor n = false → name (l ++ [n]) = n.
Proof.
  intros Hn. destruct l as [|x l]; simpl.
  - by rewrite Hn.
  - destruct (l ++ [n]) eqn:E; [by destruct l|].
    rewrite <- E. change (x :: l ++ [n]) with ((x :: l) ++ [n]).
    apply last_last.
Qed.

Lemma anchor_short (n : str) : is_anchor n = true → (length n <= 2)%nat.
Proof.
  unfold is_anchor. intros H. apply orb_true_iff in H as [H|H];
    apply bool_decide_eq_true in H; subst; simpl; lia.
Qed.

Lemma stem_suffix_name (n : str) : stem_of_name n ++ suffix_of_name n = n.
Proof.
  unfold suffix_of_name, stem_of_name.
  destruct (rfind "." n) as [i|]; [|by rewrite app_nil_r].
  case_bool_decide; [by rewrite take_drop|by rewrite app_nil_r].
Qed.

Lemma stem_nonempty (n : str) : n ≠ [] → stem_of_name n ≠ [].
Proof.
  intros Hn. destruct (decide (suffix_of_name n = [])) as [E|E].
  - pose proof (stem_suffix_name n) as H. rewrite E, app_nil_r in H. congruence.
  - by apply name_split.
Qed.

Lemma stem_length (n : str) :
  (length n - length (suffix_of_name n))%nat = length (stem_of_name n).
Proof.
  pose proof (f_equal length (stem_suffix_name n)) as H.
  rewrite length_app in H. lia.
Qed.

(** The suffix and the stem of a name that ends with a dot and an
    extension without dots. *)
Lemma suffix_stem_ext (a ext : str) :
  a ≠ [] → ext ≠ [] → "."%char ∉ ext →
  suffix_of_name (a ++ "."%char :: ext) = "."%char :: ext ∧
  stem_of_name (a ++ "."%char :: ext) = a.
Proof.
  intros Ha He Hd. unfold suffix_of_name, stem_of_name.
  rewrite rfind_after by done.
  assert (0 < length a)%nat by (destruct a; [done|simpl; lia]).
  assert (0 < length ext)%nat by (destruct ext; [done|simpl; lia]).
  rewrite length_app. simpl length.
  rewrite bool_decide_eq_true_2 by lia.
  split; [by rewrite drop_app_length|by rewrite take_app_length].
Qed.

(** What [with_suffix] returns when it returns: the name becomes the stem
    followed by the new suffix, the other parts stay. *)
Lemma with_suffix_Ok (p x : Path) (sfx : str) :
  with_suffix p sfx = Ok x →
  name p ≠ [] ∧ valid_suffix sfx = true ∧ x = removelast p ++ [stem p ++ sfx].
Proof.
  unfold with_suffix. destruct (valid_suffix sfx); [|done]. simpl.
  case_bool_decide as Hn; [done|]. intros [= <-]. split_and!; [done..|].
  unfold stem, suffix. rewrite stem_length.
  pose proof (stem_suffix_name (name p)) as Hs.
  case_bool_decide as He.
  - rewrite He, app_nil_r in Hs. by rewrite Hs.
  - rewrite <- Hs at 2. by rewrite take_app_length.
Qed.

Lemma with_suffix_total (p : Path) (sfx : str) :
  name p ≠ [] → valid_suffix sfx = true →
  with_suffix p sfx = Ok (removelast p ++ [stem p ++ sfx]).
Proof.
  intros Hn Hv. destruct (with_suffix p sfx) as [x|e] eqn:E.
  - by apply with_suffix_Ok in E as (_ & _ & ->).
  - unfold with_suffix in E. rewrite Hv in E. simpl in E.
    by rewrite bool_decide_eq_false_2 in E.
Qed.

Lemma with_suffix_name (p x : Path) (sfx : str) :
  with_suffix p sfx = Ok x → (2 < length sfx)%nat → name x = stem p ++ sfx.
Proof.
  intros H Hl. apply with_suffix_Ok in H as (_ & _ & ->).
  apply name_snoc. destruct (is_anchor _) eqn:E; [|done].
  apply anchor_short in E. rewrite length_app in E. lia.
Qed.

Lemma webp_no_dot : "."%char ∉ py "webp".
Proof. apply (bool_decide_eq_false_1 _). reflexivity. Qed.

Lemma backup_no_dot : "."%char ∉ py "backup".
Proof. apply (bool_decide_eq_false_1 _). reflexivity. Qed.

(** The destination of the conversion: same directory, same stem, suffix
    [.webp]. *)
Lemma webp_path_spec (p w : Path) :
  with_suffix p (py ".webp") = Ok w →
  parent w = parent p ∧ stem w = stem p ∧ suffix w = py ".webp" ∧
  name w = stem p ++ py ".webp".
Proof.
  intros Hw. pose proof (with_suffix_name _ _ _ Hw) as Hname.
  specialize (Hname ltac:(simpl; lia)).
  apply with_suffix_Ok in Hw as (Hn & _ & ->).
  pose proof (stem_nonempty _ Hn) as Hst. fold (stem p) in Hst.
  destruct (suffix_stem_ext (stem p) (py "webp") Hst ltac:(done) webp_no_dot)
    as [Hsf Hstm].
  split_and!.
  - unfold parent. rewrite Hname.
    rewrite bool_decide_eq_false_2 by (by destruct (stem p)).
    rewrite removelast_last. by rewrite bool_decide_eq_false_2.
  - unfold stem at 1. by rewrite Hname.
  - unfold suffix. by rewrite Hname.
  - done.
Qed.

(** The backup sibling: the name of the image followed by [.backup]. *)
Lemma backup_path_spec (p b : Path) :
  with_suffix p (suffix p ++ py ".backup") = Ok b →
  name b = name p ++ py ".backup" ∧ suffix b = py ".backup".
Proof.
  intros Hb. pose proof (with_suffix_name _ _ _ Hb) as Hname.
  rewrite length_app in Hname. specialize (Hname ltac:(simpl; lia)).
  apply with_suffix_Ok in Hb as (Hn & _ & _).
  rewrite app_assoc in Hname. unfold stem, suffix in Hname.
  rewrite stem_suffix_name in Hname. split; [done|].
  unfold suffix. rewrite Hname.
  by apply (suffix_stem_ext (name p) (py "backup") Hn ltac:(done) backup_no_dot).
Qed.

Lemma webp_not_backup (p w b : Path) :
  with_suffix p (py ".webp") = Ok w →
  with_suffix p (suffix p ++ py ".backup") = Ok b →
  w ≠ b.
Proof.
  intros Hw Hb ->. apply webp_path_spec in Hw as (_ & _ & Hw & _).
  apply backup_path_spec in Hb as [_ Hb]. rewrite Hw in Hb. done.
Qed.
(** ** The conversion of one image *)

Section PipelineFacts.
Variable codec : bytes -> Z -> codec_result.
Variable rglob : FS -> Path -> list Path.
Variable text_decode : encoding -> bytes -> option str.
Variable text_encode : str -> option bytes.

Lemma scan_elem (exts : list str) (fs : FS) (root_dir item : Path) :
  item ∈ scan rglob exts fs root_dir →
  excluded item = false ∧ is_Some (fs !! item) ∧ lower (suffix item) ∈ exts.
Proof.
  unfold scan. rewrite list_elem_of_In, filter_In.
  intros [_ H]. apply andb_true_iff in H as [H1 H2].
  apply andb_true_iff in H2 as [H2 H3].
  apply negb_true_iff in H1.
  apply bool_decide_eq_true in H2, H3. done.
Qed.

Lemma image_has_name (p : Path) :
  lower (suffix p) ∈ IMAGE_EXTENSIONS → name p ≠ [].
Proof.
  intros H E. unfold suffix in H. rewrite E in H.
  revert H. apply (bool_decide_eq_false_1 _). reflexivity.
Qed.

(** The backup step, case by case. *)
Lemma make_backup_spec (p : Path) (fs : FS) :
  match with_suffix p (suffix p ++ py ".backup") with
  | Raise e => make_backup p fs = (fs, Raise e)
  | Ok b =>
      match fs !! b, fs !! p with
      | Some _, _ => make_backup p fs = (fs, Ok tt)
      | None, Some data => make_backup p fs = (<[b := data]> fs, Ok tt)
      | None, None => make_backup p fs = (fs, Raise FileNotFoundError)
      end
  end.
Proof.
  unfold make_backup, bind, lift, path_exists, copy2, bind, read_bytes,
    write_bytes, ret.
  destruct (with_suffix p _) as [b|e]; [|done].
  destruct (fs !! b) as [old|] eqn:Eb.
  - rewrite bool_decide_eq_true_2 by eauto. done.
  - rewrite bool_decide_eq_false_2 by (intros [? ?]; congruence). simpl.
    destruct (fs !! p); done.
Qed.

(** [convert_to_webp] never raises once the destination path is formed:
    it returns that path and a flag. *)
Lemma convert_to_webp_returns (p w : Path) (q : Z) (bk : bool) (fs : FS) :
  with_suffix p (py ".webp") = Ok w →
  ∃ fs1 ok, convert_to_webp codec p q bk fs = (fs1, Ok (w, ok)).
Proof.
  intros Hw. unfold convert_to_webp, bind, lift, try_except, ret.
  rewrite Hw.
  destruct ((if bk then make_backup p else _) fs) as [fs0 [[]|e]]; [|eauto].
  destruct (open_convert_save codec p q w fs0) as [fs1 [[]|e]]; eauto.
Qed.

(** [convert_to_webp] step by step: the backup step, then the codec on
    the bytes of the image; every exception ends in [(webp_path, False)]. *)
Lemma convert_to_webp_unfold (p w : Path) (q : Z) (bk : bool) (fs : FS) :
  with_suffix p (py ".webp") = Ok w →
  convert_to_webp codec p q bk fs =
    match (if bk then make_backup p else ret tt) fs with
    | (fsb, Raise _) => (fsb, Ok (w, false))
    | (fsb, Ok _) =>
        match fsb !! p with
        | None => (fsb, Ok (w, false))
        | Some data =>
            match codec data q with
            | Encoded out => (<[w := out]> fsb, Ok (w, true))
            | Failed (Some junk) => (<[w := junk]> fsb, Ok (w, false))
            | Failed None => (fsb, Ok (w, false))
            end
        end
    end.
Proof.
  intros Hw. unfold convert_to_webp, bind, lift, try_except, ret.
  rewrite Hw.
  destruct ((if bk then make_backup p else _) fs) as [fsb [[]|e]]; [|done].
  unfold open_convert_save.
  destruct (fsb !! p) as [data|]; [|done].
  destruct (codec data q) as [out|[junk|]]; done.
Qed.

(** The backup step leaves the image as it is, and every file that was
    there is still there. *)
Lemma make_backup_keeps (p : Path) (fs fsb : FS) (r : result unit) :
  make_backup p fs = (fsb, r) →
  fsb !! p = fs !! p ∧
  (∀ x, fsb !! x = fs !! x ∨
        (with_suffix p (suffix p ++ py ".backup") = Ok x ∧
         fs !! x = None ∧ is_Some (fs !! p) ∧ fsb !! x = fs !! p ∧ r = Ok tt)).
Proof.
  pose proof (make_backup_spec p fs) as H.
  destruct (with_suffix p _) as [b|e]; [|rewrite H; intros [= <- <-]; eauto].
  destruct (fs !! b) as [old|] eqn:Eb; [rewrite H; intros [= <- <-]; eauto|].
  destruct (fs !! p) as [data|] eqn:Ep; rewrite H; intros [= <- <-]; [|eauto].
  split.
  - destruct (decide (b = p)) as [->|Hne];
      [congruence|by rewrite lookup_insert_ne].
  - intros x. destruct (decide (b = x)) as [<-|Hne].
    + right. rewrite lookup_insert_eq. eauto.
    + left. by rewrite lookup_insert_ne.
Qed.
(** What one call of [convert_to_webp] does to the file system: it
    returns the destination and a flag; on success the destination is on
    disk; besides the destination only a backup that was missing is
    written (with the bytes of the image); nothing disappears. *)
Lemma convert_to_webp_effect (p w : Path) (q : Z) (bk : bool)
    (fs fs1 : FS) (r : result (Path * bool)) :
  with_suffix p (py ".webp") = Ok w →
  convert_to_webp codec p q bk fs = (fs1, r) →
  ∃ ok, r = Ok (w, ok) ∧
    (ok = true → is_Some (fs1 !! w) ∧ is_Some (fs !! p)) ∧
    (∀ x, x ≠ w →
       fs1 !! x = fs !! x ∨
       (bk = true ∧ with_suffix p (suffix p ++ py ".backup") = Ok x ∧
        fs !! x = None ∧ is_Some (fs !! p) ∧ fs1 !! x = fs !! p)) ∧
    (∀ x, is_Some (fs !! x) → is_Some (fs1 !! x)).
Proof.
  intros Hw. rewrite (convert_to_webp_unfold _ _ _ _ _ Hw).
  destruct ((if bk then make_backup p else ret tt) fs) as [fsb rb] eqn:Eb.
  assert (Hkeep : fsb !! p = fs !! p ∧
    ∀ x, fsb !! x = fs !! x ∨
         (bk = true ∧ with_suffix p (suffix p ++ py ".backup") = Ok x ∧
          fs !! x = None ∧ is_Some (fs !! p) ∧ fsb !! x = fs !! p)).
  { destruct bk.
    - apply make_backup_keeps in Eb as [H1 H2]. split; [done|].
      intros x. destruct (H2 x) as [?|(?&?&?&?&?)]; [by left|right; done].
    - injection Eb as <- <-. split; [done|by left]. }
  destruct Hkeep as [Hp Hx].
  assert (Hmono : ∀ x, is_Some (fs !! x) → is_Some (fsb !! x)).
  { intros x Hs. destruct (Hx x) as [->|(_&_&E&_)]; [done|].
    rewrite E in Hs. by destruct Hs. }
  assert (Hins : ∀ d x, is_Some (fs !! x) → is_Some (<[w := d]> fsb !! x)).
  { intros d x Hs. destruct (decide (w = x)) as [->|Hne].
    - rewrite lookup_insert_eq. eauto.
    - rewrite lookup_insert_ne by done. auto. }
  assert (Hfr : ∀ d x, x ≠ w → <[w := d]> fsb !! x = fsb !! x).
  { intros d x Hne. by rewrite lookup_insert_ne. }
  destruct rb as [[]|e].
  - destruct (fsb !! p) as [data|] eqn:Ep.
    + destruct (codec data q) as [out|[junk|]]; intros [= <- <-].
      * exists true. split_and!; [done| |by intros; rewrite Hfr|auto].
        intros _. rewrite lookup_insert_eq, <- Hp. eauto.
      * exists false. split_and!; [done..|by intros; rewrite Hfr|auto].
      * exists false. split_and!; [done..|auto|auto].
    + intros [= <- <-]. exists false. split_and!; [done..|auto|auto].
  - intros [= <- <-]. exists false. split_and!; [done..|auto|auto].
Qed.

Lemma dict_get_set (k v : str) (d : dict) : dict_get k (dict_set k v d) = Some v.
Proof.
  induction d as [|[k' v'] d IH]; simpl.
  - by rewrite bool_decide_eq_true_2.
  - case_bool_decide as E; simpl.
    + by rewrite bool_decide_eq_true_2.
    + by rewrite (bool_decide_eq_false_2 _ E).
Qed.

(** C5. Every discovered image is converted to a path in the same
    directory, with the same stem and the suffix [.webp]: this is the
    path that [convert_to_webp] returns, whatever the outcome, and the
    path that the dry run records. *)
Theorem webp_destination (root_dir image_path : Path) (fs : FS)
    (images : list Path) :
  find_images rglob root_dir fs = (fs, Ok images) →
  image_path ∈ images →
  ∃ webp_path,
    parent webp_path = parent image_path ∧
    stem webp_path = stem image_path ∧
    suffix webp_path = py ".webp" ∧
    (∀ q bk fs0, ∃ fs1 ok,
       convert_to_webp codec image_path q bk fs0 = (fs1, Ok (webp_path, ok))) ∧
    (∀ args st, dry_run args = true →
       ∃ st', convert_image codec args st image_path fs = (fs, Ok st') ∧
              converted st' = converted st ++ [(image_path, webp_path)] ∧
              dict_get (name image_path) (image_mappings st')
              = Some (name webp_path)).
Proof.
  intros [= <-] Hin. apply scan_elem in Hin as (_ & [data Hdata] & Hext).
  pose proof (image_has_name _ Hext) as Hn.
  pose proof (with_suffix_total image_path (py ".webp") Hn eq_refl) as Hw.
  set (w := removelast image_path ++ [stem image_path ++ py ".webp"]) in *.
  exists w. destruct (webp_path_spec _ _ Hw) as (Hpar & Hst & Hsf & _).
  split_and!; [done..| |].
  - intros q bk fs0. by apply convert_to_webp_returns.
  - intros args st Hdry. unfold convert_image, bind, stat_size, lift, ret.
    rewrite Hdata, Hdry, Hw. eexists. split; [done|]. simpl.
    split; [done|apply dict_get_set].
Qed.

(** An image that is not on disk: the failure is reported, nothing is
    written. *)
Lemma convert_to_webp_missing (p w : Path) (q : Z) (bk : bool) (fs : FS) :
  with_suffix p (py ".webp") = Ok w → fs !! p = None →
  convert_to_webp codec p q bk fs = (fs, Ok (w, false)).
Proof.
  intros Hw Hp. rewrite (convert_to_webp_unfold _ _ _ _ _ Hw).
  destruct bk; [|unfold ret; by rewrite Hp].
  pose proof (make_backup_spec p fs) as H. rewrite Hp in H.
  destruct (with_suffix p (suffix p ++ py ".backup")) as [b|e];
    [|by rewrite H].
  destruct (fs !! b); rewrite H; [by rewrite Hp|done].
Qed.

(** An image whose bytes the codec refuses: the failure is reported. *)
Lemma convert_to_webp_refused (p w : Path) (q : Z) (bk : bool) (fs : FS)
    (data : bytes) (partial : option bytes) :
  with_suffix p (py ".webp") = Ok w → fs !! p = Some data →
  codec data q = Failed partial →
  ∃ fs1, convert_to_webp codec p q bk fs = (fs1, Ok (w, false)).
Proof.
  intros Hw Hp Hc. rewrite (convert_to_webp_unfold _ _ _ _ _ Hw).
  destruct ((if bk then make_backup p else ret tt) fs) as [fsb rb] eqn:Eb.
  assert (Hpb : fsb !! p = Some data).
  { destruct bk; [apply make_backup_keeps in Eb as [-> _]; done|].
    by injection Eb as <- <-. }
  destruct rb as [[]|e]; [|eauto].
  rewrite Hpb, Hc. destruct partial; eauto.
Qed.

(** C6. With a backup sibling already on disk, [convert_to_webp] with
    [backup=True] copies nothing: the backup step leaves the file system
    as it is and the backup file keeps its content. So a second call
    never overwrites the backup that is there after the first. *)
Theorem backup_idempotent (p b : Path) (q : Z) (fs fs1 fs2 : FS)
    (r1 r2 : result (Path * bool)) :
  with_suffix p (suffix p ++ py ".backup") = Ok b →
  convert_to_webp codec p q true fs = (fs1, r1) →
  convert_to_webp codec p q true fs1 = (fs2, r2) →
  (is_Some (fs !! b) → make_backup p fs = (fs, Ok tt) ∧ fs1 !! b = fs !! b) ∧
  fs2 !! b = fs1 !! b.
Proof.
  intros Hb H1 H2.
  pose proof Hb as Hn. apply with_suffix_Ok in Hn as (Hn & _ & _).
  pose proof (with_suffix_total p (py ".webp") Hn eq_refl) as Hw.
  set (w := removelast p ++ [stem p ++ py ".webp"]) in *.
  pose proof (webp_not_backup _ _ _ Hw Hb) as Hne.
  assert (Hpresent : ∀ fsa fsb r,
    convert_to_webp codec p q true fsa = (fsb, r) →
    is_Some (fsa !! b) → fsb !! b = fsa !! b).
  { intros fsa fsb r Hc [old Hold].
    destruct (convert_to_webp_effect _ _ _ _ _ _ _ Hw Hc) as (ok & _ & _ & Hfr & _).
    destruct (Hfr b ltac:(done)) as [?|(_ & _ & E & _)]; [done|congruence]. }
  split.
  - intros Hs. split; [|by eapply Hpresent].
    pose proof (make_backup_spec p fs) as H. rewrite Hb in H.
    destruct Hs as [old Hold]. by rewrite Hold in H.
  - destruct (fs1 !! b) as [kept|] eqn:E1.
    { rewrite <- E1. eapply Hpresent; eauto. }
    (* no backup after the first call: the image was not there *)
    assert (Hp : fs !! p = None).
    { destruct (fs !! p) as [data|] eqn:Ep; [|done]. exfalso.
      destruct (convert_to_webp_effect _ _ _ _ _ _ _ Hw H1)
        as (ok & _ & _ & Hfr & Hmono).
      pose proof (make_backup_spec p fs) as H. rewrite Hb, Ep in H.
      destruct (fs !! b) as [old|] eqn:Eb.
      - specialize (Hmono b ltac:(eauto)). rewrite E1 in Hmono.
        by destruct Hmono.
      - rewrite (convert_to_webp_unfold _ _ _ _ _ Hw), H in H1.
        assert (Hpb : <[b := data]> fs !! p = Some data).
        { destruct (decide (b = p)) as [->|?];
            [apply lookup_insert_eq|by rewrite lookup_insert_ne]. }
        rewrite Hpb in H1.
        assert (Hbb : ∀ d, <[w := d]> (<[b := data]> fs) !! b = Some data)
          by (intros d; rewrite lookup_insert_ne by done; apply lookup_insert_eq).
        destruct (codec data q) as [out|[junk|]]; injection H1 as <- _;
          rewrite ?Hbb, ?lookup_insert_eq in E1; done. }
    rewrite (convert_to_webp_missing _ _ _ _ _ Hw Hp) in H1.
    injection H1 as <- _.
    rewrite (convert_to_webp_missing _ _ _ _ _ Hw Hp) in H2.
    by injection H2 as <- _.
Qed.

(** C10. [convert_to_webp] does not clean up after a failure: when the
    backup has just been copied and the codec then fails, the call
    reports the failure and the new backup file stays on disk, with the
    bytes of the image. *)
Theorem backup_survives_failure (p b : Path) (q : Z) (fs : FS)
    (data : bytes) (partial : option bytes) :
  with_suffix p (suffix p ++ py ".backup") = Ok b →
  fs !! p = Some data → fs !! b = None →
  codec data q = Failed partial →
  ∃ w fs1,
    make_backup p fs = (<[b := data]> fs, Ok tt) ∧
    convert_to_webp codec p q true fs = (fs1, Ok (w, false)) ∧
    fs1 !! b = Some data.
Proof.
  intros Hb Hp Hnb Hc.
  pose proof Hb as Hn. apply with_suffix_Ok in Hn as (Hn & _ & _).
  pose proof (with_suffix_total p (py ".webp") Hn eq_refl) as Hw.
  pose proof (webp_not_backup _ _ _ Hw Hb) as Hne.
  pose proof (make_backup_spec p fs) as H. rewrite Hb, Hp, Hnb in H.
  assert (Hpb : <[b := data]> fs !! p = Some data).
  { destruct (decide (b = p)) as [->|?];
      [apply lookup_insert_eq|by rewrite lookup_insert_ne]. }
  rewrite (convert_to_webp_unfold _ _ _ _ _ Hw), H, Hpb, Hc.
  destruct partial as [junk|]; eexists _, _; (split_and!; [done..|]).
  - rewrite lookup_insert_ne by done. apply lookup_insert_eq.
  - apply lookup_insert_eq.
Qed.

(** C8. A failure inside [convert_to_webp] stays inside: the call returns
    the destination path (with the flag false when the codec refuses the
    image or the image is missing) and never raises. In the loop of
    [main] the failed image goes to [failed], the mapping and the list
    of converted images stay as they were, and the loop goes on with the
    remaining images. *)
Theorem conversion_failure_contained (args : arguments) (st : conversion)
    (p : Path) (rest : list Path) (fs : FS) (data : bytes)
    (partial : option bytes) :
  dry_run args = false → name p ≠ [] →
  fs !! p = Some data → codec data (quality args) = Failed partial →
  ∃ w fs1 st1,
    with_suffix p (py ".webp") = Ok w ∧
    (∀ q bk fs0, ∃ fs' ok,
       convert_to_webp codec p q bk fs0 = (fs', Ok (w, ok)) ∧
       (fs0 !! p = None → ok = false)) ∧
    convert_to_webp codec p (quality args) (backup args) fs
      = (fs1, Ok (w, false)) ∧
    convert_image codec args st p fs = (fs1, Ok st1) ∧
    failed st1 = failed st ++ [p] ∧
    image_mappings st1 = image_mappings st ∧
    converted st1 = converted st ∧
    convert_images codec args (p :: rest) st fs
      = convert_images codec args rest st1 fs1.
Proof.
  intros Hdry Hn Hp Hc.
  pose proof (with_suffix_total p (py ".webp") Hn eq_refl) as Hw.
  destruct (convert_to_webp_refused _ _ _ (backup args) _ _ _ Hw Hp Hc)
    as [fs1 Hconv].
  eexists _, fs1, _. split; [exact Hw|]. split.
  { intros q bk fs0.
    destruct (convert_to_webp_returns _ _ q bk fs0 Hw) as (fs' & ok & E).
    exists fs', ok. split; [done|]. intros Hmiss.
    rewrite (convert_to_webp_missing _ _ _ _ _ Hw Hmiss) in E. congruence. }
  split; [exact Hconv|].
  assert (Hstep : convert_image codec args st p fs =
    (fs1, Ok {| converted := converted st; failed := failed st ++ [p];
                total_original_size :=
                  total_original_size st + Z.of_nat (length data);
                total_new_size := total_new_size st;
                image_mappings := image_mappings st |})).
  { unfold convert_image, bind, stat_size. rewrite Hp, Hdry, Hconv. done. }
  split; [exact Hstep|]. split_and!; [done..|].
  simpl. unfold bind at 1. by rewrite Hstep.
Qed.
End PipelineFacts.

(** ** The dry run *)

Create HintDb readonly.

Lemma readonly_ret {A} (a : A) : readonly (ret a).
Proof. done. Qed.

Lemma readonly_raise {A} (e : exn) : readonly (@raise A e).
Proof. done. Qed.

Lemma readonly_lift {A} (r : result A) : readonly (lift r).
Proof. done. Qed.

Lemma readonly_bind {A B} (m : io A) (f : A -> io B) :
  readonly m → (∀ a, readonly (f a)) → readonly (bind m f).
Proof.
  intros Hm Hf fs. unfold bind. specialize (Hm fs).
  destruct (m fs) as [fs' [a|e]]; simpl in *; subst; [apply Hf|done].
Qed.

Lemma readonly_try_except {A} (m : io A) (h : exn -> io A) :
  readonly m → (∀ e, readonly (h e)) → readonly (try_except m h).
Proof.
  intros Hm Hh fs. unfold try_except. specialize (Hm fs).
  destruct (m fs) as [fs' [a|e]]; simpl in *; subst; [done|apply Hh].
Qed.

Lemma readonly_path_exists (p : Path) : readonly (path_exists p).
Proof. done. Qed.

Lemma readonly_dir_exists (dirs : list Path) (p : Path) :
  readonly (dir_exists dirs p).
Proof. done. Qed.

Lemma readonly_stat_size (p : Path) : readonly (stat_size p).
Proof. intros fs. unfold stat_size. by destruct (fs !! p). Qed.

Lemma readonly_read_bytes (p : Path) : readonly (read_bytes p).
Proof. intros fs. unfold read_bytes. by destruct (fs !! p). Qed.

Lemma readonly_if {A} (c : bool) (m1 m2 : io A) :
  readonly m1 → readonly m2 → readonly (if c then m1 else m2).
Proof. by destruct c. Qed.

#[export] Hint Resolve readonly_ret readonly_raise readonly_lift
  readonly_path_exists readonly_dir_exists readonly_stat_size
  readonly_read_bytes : readonly.
#[export] Hint Extern 2 (readonly (bind _ _)) =>
  apply readonly_bind; [|intros ?] : readonly.
#[export] Hint Extern 2 (readonly (try_except _ _)) =>
  apply readonly_try_except; [|intros ?] : readonly.
#[export] Hint Extern 3 (readonly (if _ then _ else _)) =>
  apply readonly_if : readonly.

Section DryRun.
Variable codec : bytes -> Z -> codec_result.
Variable rglob : FS -> Path -> list Path.
Variable text_decode : encoding -> bytes -> option str.
Variable text_encode : str -> option bytes.

Lemma readonly_find_images (root_dir : Path) :
  readonly (find_images rglob root_dir).
Proof. done. Qed.

Lemma readonly_find_code_files (root_dir : Path) :
  readonly (find_code_files rglob root_dir).
Proof. done. Qed.

Lemma readonly_read_content (encs : list encoding) (file_path : Path) :
  readonly (read_content text_decode encs file_path).
Proof.
  induction encs as [|e encs IH]; simpl; [auto with readonly|].
  apply readonly_bind; [auto with readonly|]. intros data.
  destruct (text_decode e data); auto with readonly.
Qed.

Lemma readonly_update_references (file_path : Path) (m : dict)
    (root_dir : Path) (verb : bool) :
  readonly (update_references_in_file text_decode text_encode file_path m
              root_dir true verb).
Proof.
  unfold update_references_in_file.
  apply readonly_try_except; [|auto with readonly].
  apply readonly_bind; [apply readonly_read_content|].
  intros [original_content|]; [|auto with readonly].
  apply readonly_bind; [auto with readonly|]. intros [content replacements].
  simpl. auto with readonly.
Qed.

Lemma readonly_convert_image (args : arguments) (st : conversion)
    (image_path : Path) :
  dry_run args = true → readonly (convert_image codec args st image_path).
Proof.
  intros Hdry. unfold convert_image. rewrite Hdry. auto with readonly.
Qed.

Lemma readonly_convert_images (args : arguments) (images : list Path)
    (st : conversion) :
  dry_run args = true → readonly (convert_images codec args images st).
Proof.
  intros Hdry. revert st. induction images as [|p images IH]; intros st;
    simpl; [auto with readonly|].
  apply readonly_bind; [by apply readonly_convert_image|auto].
Qed.

Lemma readonly_update_files (args : arguments) (m : dict) (root_dir : Path)
    (code_files : list Path) (acc : nat * nat) :
  dry_run args = true →
  readonly (update_files text_decode text_encode args m root_dir code_files acc).
Proof.
  intros Hdry. revert acc.
  induction code_files as [|f code_files IH]; intros acc; simpl;
    [auto with readonly|].
  apply readonly_bind; [|auto]. rewrite Hdry. apply readonly_update_references.
Qed.

Lemma readonly_delete_phase (args : arguments) (pairs : list (Path * Path)) :
  dry_run args = true → readonly (delete_phase args pairs).
Proof.
  intros Hdry. unfold delete_phase. rewrite Hdry, andb_false_r. simpl.
  auto with readonly.
Qed.

(** C3. In dry-run mode the pipeline writes nothing: [main] hands back
    the file system it started from, file for file, whatever it found
    and however it ended; so do its parts, the conversion loop, the
    rewriting of a code file and the deletion phase. No output is
    written, no backup copied, no code file overwritten, no original
    deleted. *)
Theorem dry_run_touches_nothing (args : arguments) :
  dry_run args = true →
  (∀ env fs,
     (main codec rglob text_decode text_encode env args fs).1 = fs) ∧
  (∀ images st fs, (convert_images codec args images st fs).1 = fs) ∧
  (∀ file_path m root_dir fs,
     (update_references_in_file text_decode text_encode file_path m root_dir
        (dry_run args) (verbose args) fs).1 = fs) ∧
  (∀ pairs fs, delete_phase args pairs fs = (fs, Ok None)).
Proof.
  intros Hdry. split_and!.
  - intros env. change (readonly (main codec rglob text_decode text_encode env args)).
    unfold main.
    apply readonly_if; [auto with readonly|].
    apply readonly_bind; [auto with readonly|]. intros present.
    apply readonly_if; [auto with readonly|].
    apply readonly_bind; [apply readonly_find_images|]. intros images.
    apply readonly_if; [auto with readonly|].
    apply readonly_bind; [by apply readonly_convert_images|]. intros conv.
    apply readonly_bind; [apply readonly_find_code_files|]. intros code_files.
    apply readonly_bind.
    { apply readonly_if; [auto with readonly|].
      apply readonly_bind; [by apply readonly_update_files|].
      auto with readonly. }
    intros refs.
    apply readonly_bind; [by apply readonly_delete_phase|].
    auto with readonly.
  - intros images st. by apply readonly_convert_images.
  - intros file_path m root_dir. rewrite Hdry. apply readonly_update_references.
  - intros pairs fs. unfold delete_phase. by rewrite Hdry, andb_false_r.
Qed.
End DryRun.

(** ** Files that stay *)

Create HintDb keeps.

Lemma readonly_keeps {A} (m : io A) : readonly m → keeps_files m.
Proof. intros H fs x. by rewrite H. Qed.

Lemma keeps_bind {A B} (m : io A) (f : A -> io B) :
  keeps_files m → (∀ a, keeps_files (f a)) → keeps_files (bind m f).
Proof.
  intros Hm Hf fs x Hx. unfold bind. specialize (Hm fs x Hx).
  destruct (m fs) as [fs' [a|e]]; simpl in *; [by apply Hf|done].
Qed.

Lemma keeps_try_except {A} (m : io A) (h : exn -> io A) :
  keeps_files m → (∀ e, keeps_files (h e)) → keeps_files (try_except m h).
Proof.
  intros Hm Hh fs x Hx. unfold try_except. specialize (Hm fs x Hx).
  destruct (m fs) as [fs' [a|e]]; simpl in *; [done|by apply Hh].
Qed.

Lemma keeps_write_bytes (p : Path) (data : bytes) :
  keeps_files (write_bytes p data).
Proof.
  intros fs x Hx. unfold write_bytes. simpl.
  destruct (decide (p = x)) as [->|Hne];
    [rewrite lookup_insert_eq; eauto|by rewrite lookup_insert_ne].
Qed.

Lemma keeps_if {A} (c : bool) (m1 m2 : io A) :
  keeps_files m1 → keeps_files m2 → keeps_files (if c then m1 else m2).
Proof. by destruct c. Qed.

#[export] Hint Resolve keeps_write_bytes : keeps.
#[export] Hint Extern 1 (keeps_files (ret _)) =>
  apply readonly_keeps, readonly_ret : keeps.
#[export] Hint Extern 1 (keeps_files (raise _)) =>
  apply readonly_keeps, readonly_raise : keeps.
#[export] Hint Extern 1 (keeps_files (lift _)) =>
  apply readonly_keeps, readonly_lift : keeps.
#[export] Hint Extern 1 (keeps_files (stat_size _)) =>
  apply readonly_keeps, readonly_stat_size : keeps.
#[export] Hint Extern 1 (keeps_files (read_bytes _)) =>
  apply readonly_keeps, readonly_read_bytes : keeps.
#[export] Hint Extern 1 (keeps_files (path_exists _)) =>
  apply readonly_keeps, readonly_path_exists : keeps.
#[export] Hint Extern 2 (keeps_files (bind _ _)) =>
  apply keeps_bind; [|intros ?] : keeps.
#[export] Hint Extern 2 (keeps_files (try_except _ _)) =>
  apply keeps_try_except; [|intros ?] : keeps.
#[export] Hint Extern 3 (keeps_files (if _ then _ else _)) =>
  apply keeps_if : keeps.
#[export] Hint Extern 3 (keeps_files (match ?x with _ => _ end)) =>
  destruct x : keeps.

(** The run ended in a state where the file is still on disk. *)
Local Ltac still_there Hrun Hgone Hsome :=
  injection Hrun as <- _; rewrite Hgone in Hsome; by destruct Hsome.

Section Deletion.
Variable codec : bytes -> Z -> codec_result.
Variable rglob : FS -> Path -> list Path.
Variable text_decode : encoding -> bytes -> option str.
Variable text_encode : str -> option bytes.

Lemma keeps_open_convert_save (p w : Path) (q : Z) :
  keeps_files (open_convert_save codec p q w).
Proof.
  intros fs x Hx. unfold open_convert_save.
  destruct (fs !! p) as [data|]; [|done].
  destruct (codec data q) as [out|[junk|]]; simpl; [| |done];
    (destruct (decide (w = x)) as [->|Hne];
      [rewrite lookup_insert_eq; eauto|by rewrite lookup_insert_ne]).
Qed.

Lemma keeps_convert_to_webp (p : Path) (q : Z) (bk : bool) :
  keeps_files (convert_to_webp codec p q bk).
Proof.
  unfold convert_to_webp, make_backup, copy2.
  pose proof keeps_open_convert_save. auto 10 with keeps.
Qed.

Lemma keeps_convert_image (args : arguments) (st : conversion) (p : Path) :
  keeps_files (convert_image codec args st p).
Proof.
  unfold convert_image. pose proof keeps_convert_to_webp.
  auto 10 with keeps.
Qed.

Lemma keeps_convert_images (args : arguments) (images : list Path)
    (st : conversion) :
  keeps_files (convert_images codec args images st).
Proof.
  revert st. induction images as [|p images IH]; intros st; simpl;
    [auto with keeps|].
  apply keeps_bind; [apply keeps_convert_image|auto].
Qed.

Lemma keeps_update_references (file_path : Path) (m : dict)
    (root_dir : Path) (dry verb : bool) :
  keeps_files (update_references_in_file text_decode text_encode file_path m
                 root_dir dry verb).
Proof.
  unfold update_references_in_file.
  apply keeps_try_except; [|auto with keeps].
  apply keeps_bind;
    [apply readonly_keeps, readonly_read_content|].
  intros [original_content|]; [|auto with keeps].
  apply keeps_bind; [auto with keeps|]. intros [content replacements].
  unfold write_content. auto 10 with keeps.
Qed.

Lemma keeps_update_files (args : arguments) (m : dict) (root_dir : Path)
    (code_files : list Path) (acc : nat * nat) :
  keeps_files (update_files text_decode text_encode args m root_dir
                 code_files acc).
Proof.
  revert acc. induction code_files as [|f code_files IH]; intros acc; simpl;
    [auto with keeps|].
  apply keeps_bind; [apply keeps_update_references|auto].
Qed.

(** Every pair that the conversion loop records is an image of the list
    with its destination. *)
Lemma convert_image_converted (args : arguments) (st st' : conversion)
    (p : Path) (fs fs' : FS) :
  convert_image codec args st p fs = (fs', Ok st') →
  converted st' = converted st ∨
  ∃ w, with_suffix p (py ".webp") = Ok w ∧
       converted st' = converted st ++ [(p, w)] ∧
       image_mappings st' = dict_set (name p) (name w) (image_mappings st).
Proof.
  unfold convert_image, bind, stat_size, lift, ret.
  destruct (fs !! p) as [data|]; [|done].
  destruct (dry_run args).
  - destruct (with_suffix p (py ".webp")) as [w|e] eqn:Hw; [|done].
    intros [= <- <-]. right. eauto.
  - destruct (with_suffix p (py ".webp")) as [w|e] eqn:Hw.
    2:{ unfold convert_to_webp, bind, lift. rewrite Hw. done. }
    destruct (convert_to_webp_returns codec p w (quality args) (backup args)
                fs Hw) as (fs1 & ok & ->).
    destruct ok; [|intros [= <- <-]; by left].
    destruct (fs1 !! w) as [out|]; [|done].
    destruct (verbose args && _); [done|].
    intros [= <- <-]. right. eauto.
Qed.

Lemma convert_images_converted (args : arguments) (images : list Path)
    (st st' : conversion) (fs fs' : FS) :
  convert_images codec args images st fs = (fs', Ok st') →
  ∀ o w, (o, w) ∈ converted st' →
         (o, w) ∈ converted st ∨
         (o ∈ images ∧ with_suffix o (py ".webp") = Ok w).
Proof.
  revert st fs. induction images as [|p images IH]; intros st fs; simpl.
  - intros [= <- <-]. auto.
  - unfold bind at 1.
    destruct (convert_image codec args st p fs) as [fs1 [st1|e]] eqn:E1;
      [|done].
    intros H o w Hin. destruct (IH _ _ H o w Hin) as [Hin1|[Hin1 Hw]].
    + destruct (convert_image_converted _ _ _ _ _ _ E1)
        as [E|(w' & Hw' & E & _)]; rewrite E in Hin1; [by left|].
      apply elem_of_app in Hin1 as [?|Hlast]; [by left|].
      apply list_elem_of_singleton in Hlast as [= -> ->].
      right. split; [left|done].
    + right. split; [by right|done].
Qed.

(** The deletion loop: it always comes back; a file that is gone was the
    original of a pair whose converted file was on disk; a file that is
    no original of a pair is as it was. *)
Lemma delete_originals_loop_spec (pairs : list (Path * Path)) (d : nat)
    (fs : FS) :
  ∃ fs' d', delete_originals_loop pairs d fs = (fs', Ok d') ∧
    (∀ x, fs' !! x = fs !! x ∨
          (is_Some (fs !! x) ∧ fs' !! x = None ∧
           ∃ w, (x, w) ∈ pairs ∧ is_Some (fs !! w))) ∧
    (∀ x, x ∉ pairs.*1 → fs' !! x = fs !! x).
Proof.
  revert d fs. induction pairs as [|[o w] pairs IH]; intros d fs; simpl.
  - exists fs, d. split_and!; [done|by left|done].
  - unfold bind at 1. unfold path_exists.
    destruct (fs !! w) as [out|] eqn:Ew.
    + rewrite bool_decide_eq_true_2 by eauto.
      unfold bind at 1. unfold try_except, bind, unlink, ret.
      destruct (fs !! o) as [orig|] eqn:Eo.
      * destruct (IH (S d) (delete o fs)) as (fs' & d' & -> & Hx & Hfr).
        exists fs', d'. split_and!; [done| |].
        -- intros x. destruct (decide (x = o)) as [->|Hne].
           ++ right. split; [eauto|]. split.
              ** destruct (Hx o) as [->|([? E] & _)];
                   [apply lookup_delete_eq|].
                 by rewrite lookup_delete_eq in E.
              ** exists w. split; [left|eauto].
           ++ destruct (Hx x) as [->|(Hs & Hn & w' & Hin & Hw')].
              ** left. by rewrite lookup_delete_ne.
              ** right. rewrite lookup_delete_ne in Hs by done.
                 split_and!; [done..|]. exists w'. split; [by right|].
                 destruct (decide (o = w')) as [->|?]; [eauto|].
                 by rewrite lookup_delete_ne in Hw'.
        -- intros x Hnot. change (x ∉ o :: pairs.*1) in Hnot.
           apply not_elem_of_cons in Hnot as [Hne Hnot].
           rewrite (Hfr x Hnot). by rewrite lookup_delete_ne.
      * destruct (IH d fs) as (fs' & d' & -> & Hx & Hfr).
        exists fs', d'. split_and!; [done| |].
        -- intros x. destruct (Hx x) as [->|(Hs & Hn & w' & Hin & Hw')];
             [by left|].
           right. split_and!; [done..|]. exists w'. split; [by right|done].
        -- intros x Hnot. change (x ∉ o :: pairs.*1) in Hnot.
           apply not_elem_of_cons in Hnot as [_ Hnot]. by apply Hfr.
    + rewrite bool_decide_eq_false_2 by (intros [? ?]; congruence).
      destruct (IH d fs) as (fs' & d' & -> & Hx & Hfr).
      exists fs', d'. split_and!; [done| |].
      * intros x. destruct (Hx x) as [->|(Hs & Hn & w' & Hin & Hw')];
          [by left|].
        right. split_and!; [done..|]. exists w'. split; [by right|done].
      * intros x Hnot. change (x ∉ o :: pairs.*1) in Hnot.
        apply not_elem_of_cons in Hnot as [_ Hnot]. by apply Hfr.
Qed.

Lemma webp_is_no_image (o w : Path) :
  with_suffix o (py ".webp") = Ok w → lower (suffix w) ∉ IMAGE_EXTENSIONS.
Proof.
  intros Hw. apply webp_path_spec in Hw as (_ & _ & -> & _).
  apply (bool_decide_eq_false_1 _). reflexivity.
Qed.

(** C7. A file that was on disk when [main] started and is gone when it
    ends was deleted as an original: deletion was requested, the run was
    no dry run, and the file is the original of a converted pair whose
    WebP file is on disk. And in the deletion loop a pair whose WebP
    file is missing is passed over: its original is not touched. *)
Theorem originals_deleted_only_when (env : environment) (args : arguments) :
  (∀ fs fs' res p,
     main codec rglob text_decode text_encode env args fs = (fs', res) →
     is_Some (fs !! p) → fs' !! p = None →
     delete_originals args = true ∧ dry_run args = false ∧
     ∃ r w, res = Ok (Done r) ∧ (p, w) ∈ converted (images_done r) ∧
            with_suffix p (py ".webp") = Ok w ∧ is_Some (fs' !! w)) ∧
  (∀ original_path webp_path pairs d fs,
     fs !! webp_path = None →
     delete_originals_loop ((original_path, webp_path) :: pairs) d fs
     = delete_originals_loop pairs d fs).
Proof.
  split.
  2:{ intros o w pairs d fs Hw. simpl. unfold bind at 1, path_exists.
      by rewrite bool_decide_eq_false_2 by (intros [? ?]; congruence). }
  intros fs fs' res p Hmain Hp Hgone.
  unfold main in Hmain.
  destruct (negb _); [still_there Hmain Hgone Hp|].
  unfold bind at 1, dir_exists in Hmain.
  destruct (negb _); [still_there Hmain Hgone Hp|].
  unfold bind at 1, find_images in Hmain.
  set (images := scan rglob IMAGE_EXTENSIONS fs (root_directory env args)) in *.
  case_bool_decide as Hnil; [still_there Hmain Hgone Hp|].
  unfold bind at 1 in Hmain.
  destruct (convert_images codec args images no_conversion fs)
    as [fs1 rc] eqn:Ec.
  assert (Hp1 : is_Some (fs1 !! p)).
  { pose proof (keeps_convert_images args images no_conversion fs p Hp)
      as Hk. by rewrite Ec in Hk. }
  destruct rc as [conv|e]; [|still_there Hmain Hgone Hp1].
  unfold bind at 1, find_code_files in Hmain.
  set (code_files := scan rglob CODE_EXTENSIONS fs1 (root_directory env args)) in *.
  unfold bind at 1 in Hmain.
  set (rewriting := if bool_decide (code_files = []) then ret None else _) in *.
  assert (Hkr : keeps_files rewriting).
  { subst rewriting. apply keeps_if; [auto with keeps|].
    apply keeps_bind; [apply keeps_update_files|auto with keeps]. }
  destruct (rewriting fs1) as [fs2 rr] eqn:Er.
  assert (Hp2 : is_Some (fs2 !! p)).
  { specialize (Hkr fs1 p Hp1). by rewrite Er in Hkr. }
  destruct rr as [refs|e]; [|still_there Hmain Hgone Hp2].
  unfold bind at 1, delete_phase in Hmain.
  destruct (delete_originals args && negb (dry_run args)
            && negb (bool_decide (converted conv = []))) eqn:Eg.
  2:{ unfold ret in Hmain. still_there Hmain Hgone Hp2. }
  apply andb_true_iff in Eg as [Eg _]. apply andb_true_iff in Eg as [Eg1 Eg2].
  apply negb_true_iff in Eg2.
  destruct (delete_originals_loop_spec (converted conv) 0 fs2)
    as (fs3 & d' & Hloop & Hx & Hfr).
  unfold bind at 1 in Hmain. rewrite Hloop in Hmain. unfold ret in Hmain.
  injection Hmain as <- <-.
  split_and!; [done..|].
  destruct (Hx p) as [E|(_ & _ & w & Hin & Hw)].
  { rewrite E in Hgone. rewrite Hgone in Hp2. by destruct Hp2. }
  destruct (convert_images_converted _ _ _ _ _ _ Ec p w Hin) as [Hin0|[_ Hwp]].
  { by apply elem_of_nil in Hin0. }
  eexists _, w. split_and!; [done..|].
  rewrite Hfr; [done|]. intros Hor.
  apply list_elem_of_fmap in Hor as ([o2 w2] & -> & Hin2). simpl in *.
  destruct (convert_images_converted _ _ _ _ _ _ Ec _ _ Hin2) as [Hin0|[Himg _]].
  { by apply elem_of_nil in Hin0. }
  apply scan_elem in Himg as (_ & _ & Hext).
  by apply (webp_is_no_image _ _ Hwp).
Qed.
End Deletion.

(** ** The mapping *)

Lemma dict_get_set_ne (k k' v : str) (d : dict) :
  k ≠ k' → dict_get k (dict_set k' v d) = dict_get k d.
Proof.
  intros Hne. induction d as [|[k0 v0] d IH]; simpl.
  - by rewrite bool_decide_eq_false_2.
  - case_bool_decide as E; simpl.
    + subst k0. rewrite !bool_decide_eq_false_2 by done. done.
    + by rewrite IH.
Qed.

Lemma dict_set_keys (k v : str) (d : dict) :
  (dict_set k v d).*1 = if bool_decide (k ∈ d.*1) then d.*1 else d.*1 ++ [k].
Proof.
  induction d as [|[k' v'] d IH].
  - by rewrite bool_decide_eq_false_2 by apply not_elem_of_nil.
  - change (((k', v') :: d).*1) with (k' :: d.*1). cbn [dict_set].
    destruct (decide (k' = k)) as [->|E].
    + rewrite !bool_decide_eq_true_2; [done|left|done].
    + rewrite (bool_decide_eq_false_2 _ E).
      change (((k', v') :: dict_set k v d).*1) with (k' :: (dict_set k v d).*1).
      rewrite IH. destruct (decide (k ∈ d.*1)) as [Hin|Hin].
      * rewrite !bool_decide_eq_true_2; [done|by right|done].
      * rewrite !bool_decide_eq_false_2; [done| |done].
        rewrite not_elem_of_cons. split; [congruence|done].
Qed.

Lemma dict_set_NoDup (k v : str) (d : dict) :
  NoDup d.*1 → NoDup (dict_set k v d).*1.
Proof.
  intros Hnd. rewrite dict_set_keys. case_bool_decide as Hin; [done|].
  apply NoDup_app. split_and!; [done| |apply NoDup_singleton].
  intros x Hx Hk. apply list_elem_of_singleton in Hk as ->. done.
Qed.

(** With keys that do not repeat, a key that is looked up with success has
    exactly one entry. *)
Lemma entries_unique (k v : str) (d : dict) :
  NoDup d.*1 → dict_get k d = Some v → entries k d = [(k, v)].
Proof.
  induction d as [|[k' v'] d IH]; simpl; [done|].
  intros Hnd Hget. apply NoDup_cons in Hnd as [Hk' Hnd].
  unfold entries in *. simpl. case_bool_decide as E.
  - subst k'. injection Hget as ->. f_equal.
    clear IH Hnd. induction d as [|[k2 v2] d IH]; simpl; [done|].
    simpl in Hk'. apply not_elem_of_cons in Hk' as [Hne Hk'].
    rewrite bool_decide_eq_false_2 by congruence. auto.
  - auto.
Qed.

Lemma mapping_of_snoc (pairs : list (Path * Path)) (o w : Path) :
  mapping_of (pairs ++ [(o, w)]) = dict_set (name o) (name w) (mapping_of pairs).
Proof. unfold mapping_of. by rewrite fold_left_app. Qed.

Lemma mapping_of_NoDup (pairs : list (Path * Path)) : NoDup (mapping_of pairs).*1.
Proof.
  induction pairs as [|[o w] pairs IH] using rev_ind; [apply NoDup_nil_2|].
  rewrite mapping_of_snoc. by apply dict_set_NoDup.
Qed.

(** When every pair is an image with its destination, the value under a
    key is the projected name of the key, and the key is there exactly when
    a pair has it as the name of its original. *)
Lemma mapping_of_lookup (pairs : list (Path * Path)) (k : str) :
  (∀ o w, (o, w) ∈ pairs → with_suffix o (py ".webp") = Ok w) →
  dict_get k (mapping_of pairs) =
    if bool_decide (k ∈ name <$> pairs.*1) then Some (webp_name k) else None.
Proof.
  induction pairs as [|[o w] pairs IH] using rev_ind; intros Hall.
  - by rewrite bool_decide_eq_false_2 by apply not_elem_of_nil.
  - rewrite mapping_of_snoc, !fmap_app.
    change (name <$> [(o, w)].*1) with [name o].
    assert (Hw : name w = webp_name (name o)).
    { apply webp_path_spec. apply Hall, elem_of_app. right. by left. }
    specialize (IH (λ o' w' H, Hall o' w' ltac:(apply elem_of_app; by left))).
    destruct (decide (k = name o)) as [->|Hne].
    + rewrite dict_get_set, Hw.
      rewrite bool_decide_eq_true_2; [done|].
      apply elem_of_app. right. by left.
    + rewrite dict_get_set_ne by done. rewrite IH.
      destruct (decide (k ∈ name <$> pairs.*1)) as [Hin|Hin].
      * rewrite !bool_decide_eq_true_2; [done| |done].
        apply elem_of_app. by left.
      * rewrite !bool_decide_eq_false_2; [done| |done].
        intros H. apply elem_of_app in H as [?|H]; [done|].
        by apply list_elem_of_singleton in H.
Qed.

Section Mapping.
Variable codec : bytes -> Z -> codec_result.
Variable rglob : FS -> Path -> list Path.

(** One round of the conversion loop that comes back: the image was on
    disk and its size is added; and either the image is recorded as
    failed (in a real run only), or it is recorded as converted and its
    name is mapped. *)
Lemma convert_image_step (args : arguments) (st st' : conversion)
    (p : Path) (fs fs' : FS) :
  convert_image codec args st p fs = (fs', Ok st') →
  ∃ data, fs !! p = Some data ∧
    total_original_size st' = total_original_size st + Z.of_nat (length data) ∧
    ((dry_run args = false ∧
      converted st' = converted st ∧ failed st' = failed st ++ [p] ∧
      image_mappings st' = image_mappings st ∧
      total_new_size st' = total_new_size st) ∨
     (∃ w, with_suffix p (py ".webp") = Ok w ∧
           converted st' = converted st ++ [(p, w)] ∧
           failed st' = failed st ∧
           image_mappings st' = dict_set (name p) (name w) (image_mappings st) ∧
           (dry_run args = true →
            fs' = fs ∧ total_new_size st' = total_new_size st))).
Proof.
  unfold convert_image, bind, stat_size, lift, ret.
  destruct (fs !! p) as [data|]; [|done]. intros H. exists data.
  split; [done|].
  destruct (dry_run args).
  - destruct (with_suffix p (py ".webp")) as [w|e] eqn:Hw; [|done].
    injection H as <- <-. split; [done|]. right. exists w. done.
  - destruct (with_suffix p (py ".webp")) as [w|e] eqn:Hw.
    2:{ unfold convert_to_webp, bind, lift in H. rewrite Hw in H. done. }
    destruct (convert_to_webp_returns codec p w (quality args) (backup args)
                fs Hw) as (fs1 & ok & E). rewrite E in H.
    destruct ok; [|injection H as <- <-; split; [done|]; left; done].
    destruct (fs1 !! w) as [out|]; [|done].
    destruct (verbose args && _); [done|].
    injection H as <- <-. split; [done|]. right. exists w. done.
Qed.

(** A dry-run round on an image that is on disk. *)
Lemma convert_image_dry (args : arguments) (st : conversion) (p : Path)
    (fs : FS) (data : bytes) :
  dry_run args = true → fs !! p = Some data → name p ≠ [] →
  ∃ st', convert_image codec args st p fs = (fs, Ok st').
Proof.
  intros Hdry Hp Hn. unfold convert_image, bind, stat_size, lift, ret.
  rewrite Hp, Hdry, (with_suffix_total p (py ".webp") Hn eq_refl). eauto.
Qed.

(** In a real run the files that are images stay as they are: the loop
    writes WebP files and backups only. *)
Lemma convert_image_frame (args : arguments) (st st' : conversion)
    (p x : Path) (fs fs' : FS) :
  convert_image codec args st p fs = (fs', Ok st') →
  lower (suffix x) ∈ IMAGE_EXTENSIONS → fs' !! x = fs !! x.
Proof.
  intros H Hx. unfold convert_image, bind, stat_size, lift, ret in H.
  destruct (fs !! p) as [data|]; [|done].
  destruct (with_suffix p (py ".webp")) as [w|e] eqn:Hw.
  2:{ destruct (dry_run args); [done|].
      unfold convert_to_webp, bind, lift in H. rewrite Hw in H. done. }
  destruct (dry_run args); [by injection H as <- _|].
  destruct (convert_to_webp codec p (quality args) (backup args) fs)
    as [fs1 r] eqn:E.
  destruct (convert_to_webp_effect codec _ _ _ _ _ _ _ Hw E)
    as (ok & -> & _ & Hfr & _).
  assert (Hfs : fs' = fs1).
  { destruct ok; [|by injection H as <- _].
    destruct (fs1 !! w); [|by injection H as <- _].
    destruct (verbose args && _); by injection H as <- _. }
  subst fs'.
  destruct (Hfr x) as [?|(_ & Hb & _)]; [|done|].
  - intros ->. by apply (webp_is_no_image _ _ Hw).
  - exfalso. apply backup_path_spec in Hb as [_ Hb]. rewrite Hb in Hx.
    revert Hx. apply (bool_decide_eq_false_1 _). reflexivity.
Qed.

(** The loop only adds to its lists. *)
Lemma convert_images_grows (args : arguments) (images : list Path)
    (st st' : conversion) (fs fs' : FS) :
  convert_images codec args images st fs = (fs', Ok st') →
  (∀ ow, ow ∈ converted st → ow ∈ converted st') ∧
  ∃ l, failed st' = failed st ++ l.
Proof.
  revert st fs. induction images as [|p images IH]; intros st fs; simpl.
  - intros [= <- <-]. split; [done|]. exists []. by rewrite app_nil_r.
  - unfold bind at 1.
    destruct (convert_image codec args st p fs) as [fs1 [st1|e]] eqn:E1;
      [|done].
    intros H. destruct (IH _ _ H) as (H2 & l & H3).
    destruct (convert_image_step _ _ _ _ _ _ E1)
      as (data & _ & _ & [(_ & Hc & Hf & _)|(w & Hw & Hc & Hf & _)]).
    + split; [intros ow ?; apply H2; by rewrite Hc|].
      exists (p :: l). rewrite H3, Hf, <- app_assoc. done.
    + split; [|exists l; by rewrite H3, Hf].
      intros ow ?. apply H2. rewrite Hc. apply elem_of_app. by left.
Qed.

(** The mapping is the dictionary of the converted pairs. *)
Lemma convert_images_mapping (args : arguments) (images : list Path)
    (st st' : conversion) (fs fs' : FS) :
  convert_images codec args images st fs = (fs', Ok st') →
  image_mappings st = mapping_of (converted st) →
  image_mappings st' = mapping_of (converted st').
Proof.
  revert st fs. induction images as [|p images IH]; intros st fs; simpl.
  - by intros [= <- <-] Hm.
  - unfold bind at 1.
    destruct (convert_image codec args st p fs) as [fs1 [st1|e]] eqn:E1;
      [|done].
    intros H Hm. apply (IH _ _ H).
    destruct (convert_image_step _ _ _ _ _ _ E1)
      as (data & _ & _ & [(_ & Hc & Hf & Hi & _)|(w & Hw & Hc & Hf & Hi & _)]).
    + by rewrite Hi, Hc.
    + by rewrite Hi, Hc, mapping_of_snoc, Hm.
Qed.

(** The dry run of the conversion loop over images that are on disk: it
    comes back, changes nothing on disk, records every image as
    converted and none as failed, and adds nothing to the new sizes. *)
Lemma convert_images_dry (args : arguments) (images : list Path)
    (st : conversion) (fs : FS) :
  dry_run args = true →
  (∀ p, p ∈ images → is_Some (fs !! p) ∧ name p ≠ []) →
  ∃ st', convert_images codec args images st fs = (fs, Ok st') ∧
         total_new_size st' = total_new_size st ∧
         failed st' = failed st ∧
         ∀ p, p ∈ images → ∃ w, (p, w) ∈ converted st'.
Proof.
  intros Hdry. revert st. induction images as [|p images IH]; intros st Hall.
  - exists st. split_and!; [done..|]. intros p Hp. by apply elem_of_nil in Hp.
  - destruct (Hall p ltac:(left)) as [[data Hp] Hn].
    destruct (convert_image_dry args st p fs data Hdry Hp Hn) as [st1 E1].
    destruct (convert_image_step _ _ _ _ _ _ E1)
      as (_ & _ & _ & [(Hreal & _)|(w & Hw & Hc & Hf & Hi & Hd)]);
      [congruence|].
    destruct (Hd Hdry) as [_ Hsize].
    destruct (IH st1) as (st' & E & Hs' & Hf' & Hall').
    { intros p' Hp'. apply Hall. by right. }
    exists st'. simpl. unfold bind at 1. rewrite E1.
    split_and!; [done|congruence|congruence|].
    intros p' Hp'. apply elem_of_cons in Hp' as [->|Hp']; [|auto].
    exists w. apply (convert_images_grows _ _ _ _ _ _ E).
    rewrite Hc. apply elem_of_app. right. by left.
Qed.

Lemma convert_images_dry_all (args : arguments) (images : list Path)
    (st st' : conversion) (fs fs' : FS) :
  dry_run args = true →
  convert_images codec args images st fs = (fs', Ok st') →
  ∀ p, p ∈ images → ∃ w, (p, w) ∈ converted st'.
Proof.
  intros Hdry. revert st fs. induction images as [|p images IH];
    intros st fs; simpl.
  - intros _ p Hp. by apply elem_of_nil in Hp.
  - unfold bind at 1.
    destruct (convert_image codec args st p fs) as [fs1 [st1|e]] eqn:E1;
      [|done].
    intros H p' Hp'. apply elem_of_cons in Hp' as [->|Hp']; [|by eapply IH].
    destruct (convert_image_step _ _ _ _ _ _ E1)
      as (_ & _ & _ & [(Hreal & _)|(w & Hw & Hc & _)]); [congruence|].
    exists w. apply (convert_images_grows _ _ _ _ _ _ H).
    rewrite Hc. apply elem_of_app. right. by left.
Qed.

(** In a dry run the originals of the converted pairs are the images, in
    their order. *)
Lemma convert_images_dry_originals (args : arguments) (images : list Path)
    (st st' : conversion) (fs fs' : FS) :
  dry_run args = true →
  convert_images codec args images st fs = (fs', Ok st') →
  (converted st').*1 = (converted st).*1 ++ images.
Proof.
  intros Hdry. revert st fs. induction images as [|p images IH];
    intros st fs; simpl.
  - intros [= <- <-]. by rewrite app_nil_r.
  - unfold bind at 1.
    destruct (convert_image codec args st p fs) as [fs1 [st1|e]] eqn:E1;
      [|done].
    intros H. rewrite (IH _ _ H).
    destruct (convert_image_step _ _ _ _ _ _ E1)
      as (_ & _ & _ & [(Hreal & _)|(w & _ & Hc & _)]); [congruence|].
    rewrite Hc, fmap_app. simpl. by rewrite <- app_assoc.
Qed.

(** The original sizes add up to the sizes of the images on disk, in a
    dry run and in a real run alike. *)
Lemma convert_images_original_size (args : arguments) (images : list Path)
    (st st' : conversion) (fs fs0 fs' : FS) :
  convert_images codec args images st fs0 = (fs', Ok st') →
  (∀ x, lower (suffix x) ∈ IMAGE_EXTENSIONS → fs0 !! x = fs !! x) →
  (∀ p, p ∈ images → lower (suffix p) ∈ IMAGE_EXTENSIONS) →
  total_original_size st' = total_original_size st + total_size fs images.
Proof.
  revert st fs0. induction images as [|p images IH]; intros st fs0; simpl.
  - intros [= <- <-] _ _. lia.
  - unfold bind at 1.
    destruct (convert_image codec args st p fs0) as [fs1 [st1|e]] eqn:E1;
      [|done].
    intros H Hfr Himg.
    destruct (convert_image_step _ _ _ _ _ _ E1) as (data & Hp & Hsz & _).
    rewrite (IH _ _ H).
    + rewrite Hsz. unfold size_on_disk.
      rewrite <- (Hfr p) by (apply Himg; left). rewrite Hp. lia.
    + intros x Hx. rewrite (convert_image_frame _ _ _ _ _ _ _ E1 Hx). auto.
    + intros p' Hp'. apply Himg. by right.
Qed.

(** A real run in which nothing fails records what the dry run records. *)
Lemma convert_images_agree (args_dry args_real : arguments)
    (images : list Path) (sd sr d r : conversion) (fd fr fd' fr' : FS) :
  dry_run args_dry = true → dry_run args_real = false →
  convert_images codec args_dry images sd fd = (fd', Ok d) →
  convert_images codec args_real images sr fr = (fr', Ok r) →
  converted sr = converted sd → image_mappings sr = image_mappings sd →
  failed r = failed sr →
  converted r = converted d ∧ image_mappings r = image_mappings d.
Proof.
  intros Hdry Hreal. revert sd sr fd fr.
  induction images as [|p images IH]; intros sd sr fd fr; simpl.
  - by intros [= <- <-] [= <- <-].
  - intros Hd Hr Hc Hm Hf.
    unfold bind in Hd at 1. unfold bind in Hr at 1.
    destruct (convert_image codec args_dry sd p fd) as [fd1 [sd1|e]] eqn:Ed;
      [|done].
    destruct (convert_image codec args_real sr p fr) as [fr1 [sr1|e]] eqn:Er;
      [|done].
    destruct (convert_image_step _ _ _ _ _ _ Ed)
      as (_ & _ & _ & [(? & _)|(w & Hw & Hcd & _ & Hmd & _)]); [congruence|].
    destruct (convert_images_grows _ _ _ _ _ _ Hr) as (_ & l & Hl).
    destruct (convert_image_step _ _ _ _ _ _ Er)
      as (_ & _ & _ & [(_ & _ & Hfr & _)|(w' & Hw' & Hcr & Hfr & Hmr & _)]).
    + exfalso. rewrite Hl, Hfr, <- app_assoc in Hf.
      apply (f_equal length) in Hf. rewrite !length_app in Hf.
      simpl in Hf. lia.
    + rewrite Hw in Hw'. injection Hw' as <-.
      apply (IH _ _ _ _ Hd Hr); congruence.
Qed.

(** C2 (amended). For the images that the scan discovers, the dry run
    of the conversion loop comes back with every image converted (the
    originals of the converted pairs are the images, in their order, each
    with its destination, whose name is the stem of the image followed by
    [.webp]), none failed and no new size; its mapping holds, for the name
    of each image and for nothing else, the stem of that name followed by
    [.webp]. A real run maps a name only to what the dry run maps it to,
    the stem followed by [.webp], and adds up the same original sizes;
    when no conversion fails in the real run, the two mappings and the
    two lists of converted pairs are equal. *)
Theorem dry_run_projects_real_run (args_dry args_real : arguments)
    (root_dir : Path) (images : list Path) (fs : FS) :
  dry_run args_dry = true → dry_run args_real = false →
  find_images rglob root_dir fs = (fs, Ok images) →
  ∃ d, convert_images codec args_dry images no_conversion fs = (fs, Ok d) ∧
       (converted d).*1 = images ∧
       (∀ o w, (o, w) ∈ converted d →
               with_suffix o (py ".webp") = Ok w ∧
               name w = stem o ++ py ".webp") ∧
       total_new_size d = 0 ∧ failed d = [] ∧
       (∀ k, dict_get k (image_mappings d)
             = if bool_decide (k ∈ name <$> images)
               then Some (stem_of_name k ++ py ".webp") else None) ∧
       ∀ fs' r,
         convert_images codec args_real images no_conversion fs = (fs', Ok r) →
         (∀ k v, dict_get k (image_mappings r) = Some v →
                 dict_get k (image_mappings d) = Some v ∧
                 v = stem_of_name k ++ py ".webp") ∧
         total_original_size r = total_original_size d ∧
         (failed r = [] →
          image_mappings r = image_mappings d ∧ converted r = converted d).
Proof.
  intros Hdry Hreal [= <-].
  set (images := scan rglob IMAGE_EXTENSIONS fs root_dir).
  assert (Himg : ∀ p, p ∈ images →
            is_Some (fs !! p) ∧ lower (suffix p) ∈ IMAGE_EXTENSIONS).
  { intros p Hp. by apply scan_elem in Hp as (_ & ? & ?). }
  destruct (convert_images_dry args_dry images no_conversion fs Hdry)
    as (d & Ed & Hnew & Hfail & Hall).
  { intros p Hp. destruct (Himg p Hp) as [? Hext].
    split; [done|by apply image_has_name]. }
  pose proof (convert_images_mapping _ _ _ _ _ _ Ed eq_refl) as Hmd.
  assert (Hpd : ∀ o w, (o, w) ∈ converted d → with_suffix o (py ".webp") = Ok w).
  { intros o w Hin.
    destruct (convert_images_converted codec _ _ _ _ _ _ Ed o w Hin)
      as [H|[_ ?]]; [by apply elem_of_nil in H|done]. }
  pose proof (convert_images_dry_originals _ _ _ _ _ _ Hdry Ed) as Horig.
  simpl in Horig.
  assert (Hlookup : ∀ k, dict_get k (image_mappings d)
             = if bool_decide (k ∈ name <$> images)
               then Some (stem_of_name k ++ py ".webp") else None).
  { intros k. rewrite Hmd, (mapping_of_lookup _ _ Hpd), Horig. done. }
  exists d. split_and!; [done|done| |done|done|done|].
  { intros o w Hin. split; [by apply Hpd|].
    by apply webp_path_spec, Hpd. }
  intros fs' r Er.
  pose proof (convert_images_mapping _ _ _ _ _ _ Er eq_refl) as Hmr.
  assert (Hpr : ∀ o w, (o, w) ∈ converted r →
            o ∈ images ∧ with_suffix o (py ".webp") = Ok w).
  { intros o w Hin.
    destruct (convert_images_converted codec _ _ _ _ _ _ Er o w Hin)
      as [H|?]; [by apply elem_of_nil in H|done]. }
  split_and!.
  - intros k v. rewrite Hmr, Hmd.
    rewrite !mapping_of_lookup by (done || (intros; by apply Hpr)).
    case_bool_decide as Hk; [|done]. intros [= <-].
    split; [|done].
    rewrite bool_decide_eq_true_2; [done|].
    apply list_elem_of_fmap in Hk as (o & -> & Ho).
    apply list_elem_of_fmap in Ho as ([o' w] & -> & Hin). simpl.
    destruct (Hpr _ _ Hin) as [Ho _].
    destruct (Hall o' Ho) as [w' Hin'].
    apply list_elem_of_fmap. exists o'. split; [done|].
    apply list_elem_of_fmap. by exists (o', w').
  - rewrite (convert_images_original_size _ _ _ _ fs _ _ Er);
      [|done|intros; by apply Himg].
    rewrite (convert_images_original_size _ _ _ _ fs _ _ Ed);
      [done|done|intros; by apply Himg].
  - intros Hf.
    destruct (convert_images_agree _ _ _ _ _ _ _ _ _ _ _ Hdry Hreal Ed Er)
      as [? ?]; done.
Qed.

(** C9 (amended). When images share a basename and at least one of them
    is recorded as converted (in a dry run every image is), the mapping
    has exactly one entry for that basename, and its value is the
    projected new filename of each of these images, the one processed
    last included: later images overwrite the entry in place. When none
    of them is converted, the mapping has no entry for the basename. *)
Theorem colliding_basenames (args : arguments) (images : list Path)
    (fs fs' : FS) (conv : conversion) (p : Path) :
  convert_images codec args images no_conversion fs = (fs', Ok conv) →
  p ∈ images →
  ((dry_run args = true ∨
    ∃ o w, (o, w) ∈ converted conv ∧ name o = name p) →
   ∃ w, with_suffix p (py ".webp") = Ok w ∧
        dict_get (name p) (image_mappings conv) = Some (name w) ∧
        entries (name p) (image_mappings conv) = [(name p, name w)]) ∧
  ((∀ o w, (o, w) ∈ converted conv → name o ≠ name p) →
   dict_get (name p) (image_mappings conv) = None).
Proof.
  intros E Hp.
  assert (Hpairs0 : ∀ o w, (o, w) ∈ converted conv →
            with_suffix o (py ".webp") = Ok w).
  { intros o w Hin.
    destruct (convert_images_converted codec _ _ _ _ _ _ E o w Hin)
      as [H|[_ ?]]; [by apply elem_of_nil in H|done]. }
  split.
  2:{ intros Hnone.
      rewrite (convert_images_mapping _ _ _ _ _ _ E eq_refl).
      rewrite mapping_of_lookup by done.
      rewrite bool_decide_eq_false_2; [done|]. intros Hk.
      apply list_elem_of_fmap in Hk as (o & Ho & Hin).
      apply list_elem_of_fmap in Hin as ([o' w] & -> & Hin).
      by apply (Hnone _ _ Hin). }
  intros Hsome.
  assert (Hpairs : ∀ o w, (o, w) ∈ converted conv →
            with_suffix o (py ".webp") = Ok w).
  { intros o w Hin.
    destruct (convert_images_converted codec _ _ _ _ _ _ E o w Hin)
      as [H|[_ ?]]; [by apply elem_of_nil in H|done]. }
  assert (Hex : ∃ o w, (o, w) ∈ converted conv ∧ name o = name p).
  { destruct Hsome as [Hdry|?]; [|done].
    destruct (convert_images_dry_all _ _ _ _ _ _ Hdry E p Hp) as [w Hin].
    by exists p, w. }
  destruct Hex as (o & w0 & Hin & Hname).
  pose proof (Hpairs _ _ Hin) as Hw0.
  apply with_suffix_Ok in Hw0 as (Hn & _ & _). rewrite Hname in Hn.
  pose proof (with_suffix_total p (py ".webp") Hn eq_refl) as Hw.
  eexists. split; [exact Hw|].
  destruct (webp_path_spec _ _ Hw) as (_ & _ & _ & Hnw).
  assert (Hget : dict_get (name p) (image_mappings conv)
                 = Some (webp_name (name p))).
  { rewrite (convert_images_mapping _ _ _ _ _ _ E eq_refl).
    rewrite mapping_of_lookup by done.
    rewrite bool_decide_eq_true_2; [done|].
    apply list_elem_of_fmap. exists o. split; [done|].
    apply list_elem_of_fmap. by exists (o, w0). }
  rewrite Hnw. split; [exact Hget|].
  apply entries_unique; [|exact Hget].
  rewrite (convert_images_mapping _ _ _ _ _ _ E eq_refl).
  apply mapping_of_NoDup.
Qed.
End Mapping.

(** ** The matcher and what patterns denote *)

Section MatcherFacts.
Context {R : Type}.
Implicit Types (K : str -> option R) (k : str -> groups -> option R).

Lemma star_greedy_sound f s K res :
  star_greedy f s K = Some res →
  ∃ m s', s = m ++ s' ∧ forallb f m = true ∧ K s' = Some res.
Proof.
  induction s as [|c s IH]; simpl.
  - intros H. by exists [], [].
  - destruct (f c) eqn:Ef; [|intros H; by exists [], (c :: s)].
    destruct (star_greedy f s K) as [r|] eqn:E.
    + intros [= ->]. destruct (IH eq_refl) as (m & s' & -> & Hm & HK).
      exists (c :: m), s'. simpl. rewrite Ef. done.
    + intros H. by exists [], (c :: s).
Qed.

Lemma star_lazy_sound f s K res :
  star_lazy f s K = Some res →
  ∃ m s', s = m ++ s' ∧ forallb f m = true ∧ K s' = Some res.
Proof.
  induction s as [|c s IH]; simpl.
  - destruct (K []) eqn:E; [|done]. intros [= ->]. by exists [], [].
  - destruct (K (c :: s)) eqn:E; [intros [= ->]; by exists [], (c :: s)|].
    destruct (f c) eqn:Ef; [|done]. intros H.
    destruct (IH H) as (m & s' & -> & Hm & HK).
    exists (c :: m), s'. simpl. rewrite Ef. done.
Qed.

Lemma star_greedy_complete f m s' K :
  forallb f m = true → is_Some (K s') → is_Some (star_greedy f (m ++ s') K).
Proof.
  intros Hm HK. induction m as [|c m IH]; simpl in *.
  - destruct s' as [|c s']; simpl; [done|].
    destruct (f c); [|done]. by destruct (star_greedy f s' K).
  - apply andb_true_iff in Hm as [-> Hm].
    destruct (IH Hm) as [r ->]. eauto.
Qed.

Lemma star_lazy_complete f m s' K :
  forallb f m = true → is_Some (K s') → is_Some (star_lazy f (m ++ s') K).
Proof.
  intros Hm HK. induction m as [|c m IH]; simpl in *.
  - destruct HK as [r HK]. destruct s'; simpl; rewrite HK; eauto.
  - apply andb_true_iff in Hm as [-> Hm].
    destruct (K (c :: m ++ s')); [eauto|by apply IH].
Qed.

(** Whatever the search finds is a text that the pattern denotes. *)
Lemma mtch_sound r s g k res :
  mtch r s g k = Some res →
  ∃ m s' g', s = m ++ s' ∧ denotes r m g g' ∧ k s' g' = Some res.
Proof.
  revert s g k. induction r as [|c|f|f|f|f|r1 IH1 r2 IH2|n r IH];
    intros s g k; simpl.
  - intros H. exists [], s, g. split_and!; [done|constructor|done].
  - destruct s as [|x s]; [done|]. destruct (ci_eq c x) eqn:E; [|done].
    intros H. exists [x], s, g. split_and!; [done|by constructor|done].
  - destruct s as [|x s]; [done|]. destruct (f x) eqn:E; [|done].
    intros H. exists [x], s, g. split_and!; [done|by constructor|done].
  - intros H. apply star_greedy_sound in H as (m & s' & -> & Hm & HK).
    exists m, s', g. split_and!; [done|by constructor|done].
  - intros H. apply star_lazy_sound in H as (m & s' & -> & Hm & HK).
    exists m, s', g. split_and!; [done|by constructor|done].
  - assert (Hnone : k s g = Some res →
      ∃ m s' g', s = m ++ s' ∧ denotes (Opt f) m g g' ∧ k s' g' = Some res).
    { intros H. exists [], s, g. split_and!; [done|constructor|done]. }
    destruct s as [|x s]; [done|]. destruct (f x) eqn:E; [|done].
    destruct (k s g) eqn:Ek; [|done].
    intros [= ->]. exists [x], s, g. split_and!; [done|by constructor|done].
  - intros H. apply IH1 in H as (m1 & s1 & g1 & -> & H1 & H).
    apply IH2 in H as (m2 & s2 & g2 & -> & H2 & H).
    exists (m1 ++ m2), s2, g2. rewrite <- app_assoc.
    split_and!; [done|by econstructor|done].
  - intros H. apply IH in H as (m & s' & g' & -> & Hr & H).
    rewrite length_app, Nat.add_sub, take_app_length in H.
    exists m, s', ((n, m) :: g'). split_and!; [done|by constructor|done].
Qed.

(** Where the pattern denotes a text and the continuation accepts what
    follows, the search finds a match. *)
Lemma mtch_complete r m g g' g0 s' k :
  denotes r m g g' → (∀ g2, is_Some (k s' g2)) →
  is_Some (mtch r (m ++ s') g0 k).
Proof.
  intros Hd. revert g0 s' k.
  induction Hd as [g|c x g E|f x g E|f m g Hm|f m g Hm|f g|f x g E
                  |r1 r2 m1 m2 g g1 g2 H1 IH1 H2 IH2|n r m g g1 H IH];
    intros g0 s' k HK; simpl.
  - apply HK.
  - rewrite E. apply HK.
  - rewrite E. apply HK.
  - apply star_greedy_complete; [done|apply HK].
  - apply star_lazy_complete; [done|apply HK].
  - destruct s' as [|x s']; [apply HK|]. destruct (f x); [|apply HK].
    destruct (k s' g0); [eauto|apply HK].
  - rewrite E. destruct (HK g0) as [r ->]. eauto.
  - rewrite <- app_assoc. apply IH1. intros g3. apply IH2, HK.
  - apply IH. intros g3. apply HK.
Qed.
End MatcherFacts.

Lemma match_here_sound (r : regex) (adv : bool) (s rest : str) (g : groups) :
  match_here r adv s = Some (g, rest) →
  ∃ m, s = m ++ rest ∧ denotes r m [] g ∧ (adv = true → m ≠ []).
Proof.
  unfold match_here. intros H.
  apply mtch_sound in H as (m & s' & g' & -> & Hd & H).
  destruct (adv && _) eqn:E; [done|]. injection H as <- <-.
  exists m. split_and!; [done..|]. intros -> ->. simpl in E.
  by rewrite Nat.eqb_refl in E.
Qed.

Lemma match_here_complete (r : regex) (m s' : str) (g : groups) :
  denotes r m [] g → is_Some (match_here r false (m ++ s')).
Proof.
  intros Hd. unfold match_here. eapply mtch_complete; [done|].
  intros g2. simpl. eauto.
Qed.

(** ** Substitution *)

Section Subn.
Variable shape : str -> str -> Prop.
Variable r : regex.
Variable t : list titem.
Hypothesis Hshape : ∀ m g, denotes r m [] g → shape m (expand t g).

(** [subn] copies characters and replaces segments that the pattern
    denotes by the expansion of the template. *)
Lemma subn_walk_sound (s : str) (skip : nat) :
  (skip ≤ length s)%nat →
  rewritten shape (drop skip s) (subn_walk r t s skip).1
            (subn_walk r t s skip).2.
Proof using Hshape.
  revert skip. induction s as [|c s IH]; intros skip Hskip.
  - assert (skip = 0%nat) as -> by (simpl in Hskip; lia). simpl.
    destruct (match_here r false []) as [[g rest]|] eqn:E; [|constructor].
    apply match_here_sound in E as (m & Hm & Hd & _).
    symmetry in Hm. apply app_eq_nil in Hm as [-> ->]. simpl.
    rewrite <- (app_nil_r (expand t g)).
    apply (rw_subst shape [] _ [] []); [by apply Hshape|constructor].
  - destruct skip as [|n]; [|simpl; apply IH; simpl in Hskip; lia].
    cbn [subn_walk drop].
    destruct (match_here r false (c :: s)) as [[g rest]|] eqn:E.
    2:{ specialize (IH 0%nat ltac:(lia)). rewrite drop_0 in IH.
        destruct (subn_walk r t s 0) as [out cnt]. by constructor. }
    apply match_here_sound in E as (m & Hm & Hd & _).
    assert (Hlen : (length (c :: s) - length rest = length m)%nat)
      by (rewrite Hm, length_app; lia).
    rewrite Hlen. clear Hlen.
    destruct m as [|c' m]; simpl length.
    + (* an empty match, then an attempt that must advance *)
      simpl in Hm. subst rest.
      destruct (match_here r true (c :: s)) as [[g2 rest2]|] eqn:E2.
      * apply match_here_sound in E2 as (m2 & Hm2 & Hd2 & Hne).
        destruct m2 as [|c2 m2]; [by destruct (Hne eq_refl)|].
        injection Hm2 as <- ->.
        assert (Hk : (length (c :: m2 ++ rest2) - length rest2 - 1
                      = length m2)%nat) by (simpl; rewrite length_app; lia).
        simpl length in Hk |- *. rewrite Hk. clear Hk.
        specialize (IH (length m2) ltac:(rewrite length_app; lia)).
        rewrite drop_app_length in IH.
        destruct (subn_walk r t (m2 ++ rest2) (length m2)) as [out cnt].
        apply (rw_subst shape [] _ (c :: m2 ++ rest2)); [by apply Hshape|].
        apply (rw_subst shape (c :: m2) _ rest2); [by apply Hshape|done].
      * specialize (IH 0%nat ltac:(lia)). rewrite drop_0 in IH.
        destruct (subn_walk r t s 0) as [out cnt].
        apply (rw_subst shape [] _ (c :: s)); [by apply Hshape|].
        by constructor.
    + injection Hm as <- ->.
      specialize (IH (length m) ltac:(rewrite length_app; lia)).
      rewrite drop_app_length in IH.
      destruct (subn_walk r t (m ++ rest) (length m)) as [out cnt].
      apply (rw_subst shape (c :: m) _ rest); [by apply Hshape|done].
Qed.

(** A match at the current position is replaced. *)
Lemma subn_walk_here (s : str) :
  is_Some (match_here r false s) → (1 ≤ (subn_walk r t s 0).2)%nat.
Proof.
  intros [[g rest] E]. destruct s as [|c s]; cbn [subn_walk]; rewrite E.
  - simpl. lia.
  - destruct (length (c :: s) - length rest)%nat as [|k].
    + destruct (match_here r true (c :: s)) as [[g2 rest2]|].
      * destruct (subn_walk r t s _) as [out cnt]. simpl. lia.
      * destruct (subn_walk r t s 0) as [out cnt]. simpl. lia.
    + destruct (subn_walk r t s k) as [out cnt]. simpl. lia.
Qed.

(** So a text in which the pattern matches somewhere gets at least one
    replacement. *)
Lemma subn_walk_finds (pre s : str) :
  is_Some (match_here r false s) → (1 ≤ (subn_walk r t (pre ++ s) 0).2)%nat.
Proof.
  intros Hs. induction pre as [|c pre IH]; [by apply subn_walk_here|].
  destruct (match_here r false (c :: pre ++ s)) as [x|] eqn:E.
  - apply subn_walk_here. change ((c :: pre) ++ s) with (c :: pre ++ s).
    rewrite E. eauto.
  - change ((c :: pre) ++ s) with (c :: pre ++ s). cbn [subn_walk].
    rewrite E. destruct (subn_walk r t (pre ++ s) 0). done.
Qed.
End Subn.

(** ** Replacement templates *)

Lemma parse_template_lits (n : nat) (s tail : str) :
  "\"%char ∉ s →
  parse_template n (s ++ tail)
  = rbind (parse_template n tail) (fun l => Ok (map TLit s ++ l)).
Proof.
  induction s as [|c s IH]; intros Hs.
  - simpl. by destruct (parse_template n tail).
  - apply not_elem_of_cons in Hs as [Hc Hs].
    change ((c :: s) ++ tail) with (c :: (s ++ tail)). cbn [parse_template].
    destruct (Ascii.eqb_spec c "\") as [->|_]; [done|]. simpl negb. cbv iota.
    rewrite (IH Hs). unfold addlit. by destruct (parse_template n tail).
Qed.

(** A backslash and one digit from 1 to 9, before something that is no
    digit, is a reference to that group. *)
Lemma parse_template_ref (n : nat) (d : ascii) (rest : str) :
  is_digit d = true → d ≠ "0"%char →
  match rest with c :: _ => is_digit c = false | [] => True end →
  parse_template n ("\"%char :: d :: rest)
  = addgroup n (decimal [d]) (parse_template n rest).
Proof.
  intros Hd H0 Hrest. cbn [parse_template]. simpl negb. cbv iota.
  destruct (Ascii.eqb_spec d "g") as [->|_]; [done|].
  destruct (Ascii.eqb_spec d "0") as [->|_]; [done|].
  rewrite Hd. destruct rest as [|c rest]; [done|]. by rewrite Hrest.
Qed.

Lemma expand_lits (s : str) (t : list titem) (g : groups) :
  expand (map TLit s ++ t) g = s ++ expand t g.
Proof. induction s as [|c s IH]; [done|]. simpl. by rewrite <- IH. Qed.

Lemma expand_group (n : nat) (t : list titem) (g : groups) :
  expand (TGroup n :: t) g = group g n ++ expand t g.
Proof. reflexivity. Qed.

Lemma count_groups_escape (old : str) : count_groups (re_escape old) = 0%nat.
Proof. induction old as [|c old IH]; [done|]. simpl. exact IH. Qed.

(** The templates of the three rules, for a new name that is taken
    literally. *)
Lemma template_quoted (old new : str) :
  template_safe new →
  parse_template (count_groups (pattern_quoted old)) (repl_quoted new)
  = Ok (TGroup 1 :: TGroup 2 :: map TLit new ++ [TGroup 4]).
Proof.
  intros [Hbs Hd].
  assert (Hn : count_groups (pattern_quoted old) = 4%nat).
  { simpl. by rewrite count_groups_escape. }
  rewrite Hn. unfold repl_quoted.
  change (py "\1\2" ++ new ++ py "\4")
    with ("\"%char :: "1"%char :: "\"%char :: "2"%char :: new ++ py "\4").
  rewrite parse_template_ref by done.
  rewrite parse_template_ref; [|done|done|by destruct new].
  rewrite parse_template_lits by done. reflexivity.
Qed.

Lemma template_url (old new : str) :
  template_safe new →
  parse_template (count_groups (pattern_url old)) (repl_url new)
  = Ok (TGroup 1 :: TGroup 2 :: TGroup 3 :: map TLit new ++ [TGroup 5]).
Proof.
  intros [Hbs Hd].
  assert (Hn : count_groups (pattern_url old) = 5%nat).
  { simpl. by rewrite count_groups_escape. }
  rewrite Hn. unfold repl_url.
  change (py "\1\2\3" ++ new ++ py "\5")
    with ("\"%char :: "1"%char :: "\"%char :: "2"%char ::
          "\"%char :: "3"%char :: new ++ py "\5").
  rewrite parse_template_ref by done.
  rewrite parse_template_ref by done.
  rewrite parse_template_ref; [|done|done|by destruct new].
  rewrite parse_template_lits by done. reflexivity.
Qed.

Lemma template_markdown (old new : str) :
  template_safe new →
  parse_template (count_groups (pattern_markdown old)) (repl_markdown new)
  = Ok (TGroup 1 :: TGroup 2 :: map TLit new ++ [TGroup 4]).
Proof.
  intros [Hbs Hd].
  assert (Hn : count_groups (pattern_markdown old) = 4%nat).
  { simpl. by rewrite count_groups_escape. }
  rewrite Hn. unfold repl_markdown.
  change (py "\1\2" ++ new ++ py "\4")
    with ("\"%char :: "1"%char :: "\"%char :: "2"%char :: new ++ py "\4").
  rewrite parse_template_ref by done.
  rewrite parse_template_ref; [|done|done|by destruct new].
  rewrite parse_template_lits by done. reflexivity.
Qed.

(** ** The three rules *)

Lemma denotes_escape (old m : str) (g g' : groups) :
  denotes (re_escape old) m g g' → g' = g ∧ ci_match old m.
Proof.
  revert m g'. induction old as [|c old IH]; intros m g' H; simpl in H.
  - inversion H; subst. split; [done|constructor].
  - inversion H as [| | | | | | |r1 r2 m1 m2 g0 g1 g2 H1 H2|]; subst.
    inversion H1; subst. apply IH in H2 as [-> Hm].
    split; [done|]. by constructor.
Qed.

Lemma escape_denotes (old m : str) (g : groups) :
  ci_match old m → denotes (re_escape old) m g g.
Proof.
  induction 1 as [|c x old m Hc Hm IH]; simpl; [constructor|].
  apply (den_seq (Lit c) _ [x] m g g g); [by constructor|done].
Qed.

Lemma den_seq_eq r1 r2 m m1 m2 g g1 g2 :
  denotes r1 m1 g g1 → denotes r2 m2 g1 g2 → m = m1 ++ m2 →
  denotes (Seq r1 r2) m g g2.
Proof. intros H1 H2 ->. by econstructor. Qed.

(** The punctuation of the patterns has no other case. *)
Lemma ci_eq_punct (c x : ascii) :
  c ∈ ["("%char; ")"%char; "!"%char; "["%char; "]"%char] →
  ci_eq c x = true → x = c.
Proof.
  intros Hc. repeat (apply elem_of_cons in Hc as [->|Hc]);
    [| | | | |by apply elem_of_nil in Hc];
    destruct x as [[] [] [] [] [] [] [] []]; vm_compute; congruence.
Qed.

Ltac shape_eq :=
  rewrite ?expand_group, ?expand_lits, ?expand_group; unfold group; simpl;
  rewrite <- ?app_assoc; reflexivity.

Ltac punct := apply (bool_decide_eq_true_1 _); reflexivity.

Ltac invert_denotes :=
  repeat match goal with
    | H : denotes (Seq _ _) _ _ _ |- _ => inversion H; subst; clear H
    | H : denotes (Grp _ _) _ _ _ |- _ => inversion H; subst; clear H
    | H : denotes (Cls _) _ _ _ |- _ => inversion H; subst; clear H
    | H : denotes (Lit _) _ _ _ |- _ => inversion H; subst; clear H
    | H : denotes (Star _) _ _ _ |- _ => inversion H; subst; clear H
    | H : denotes (LazyStar _) _ _ _ |- _ => inversion H; subst; clear H
    | H : denotes (Opt _) _ _ _ |- _ => inversion H; subst; clear H
    | H : denotes (re_escape _) _ _ _ |- _ =>
        apply denotes_escape in H as [-> ?]
    end.

(** What the quoted-attribute pattern denotes is a quoted segment, and the
    template puts the new name in the place of the old one. *)
Lemma quoted_sound (old new m : str) (g : groups) :
  denotes (pattern_quoted old) m [] g →
  quoted_shape old new m
    (expand (TGroup 1 :: TGroup 2 :: map TLit new ++ [TGroup 4]) g).
Proof.
  unfold pattern_quoted. simpl seq. intros H. invert_denotes.
  match goal with
  | |- quoted_shape _ _ ([?q] ++ ?prefix ++ ?old' ++ [?q']) _ =>
      exists q, prefix, old', q'
  end.
  split_and!; try done.
  rewrite !expand_group, expand_lits, expand_group. reflexivity.
Qed.

Lemma quoted_complete (old new m m' : str) :
  quoted_shape old new m m' → ∃ g, denotes (pattern_quoted old) m [] g.
Proof.
  intros (q & prefix & old' & q' & -> & _ & Hq & Hq' & Hp & Ho).
  unfold pattern_quoted. simpl seq. eexists.
  eapply (den_seq_eq _ _ _ [q]); [by repeat constructor| |reflexivity].
  eapply den_seq_eq; [constructor; by constructor| |reflexivity].
  eapply den_seq_eq; [constructor; by apply escape_denotes| |reflexivity].
  by repeat constructor.
Qed.

Lemma denotes_seq_inv r1 r2 m g g2 :
  denotes (Seq r1 r2) m g g2 →
  ∃ m1 m2 g1, m = m1 ++ m2 ∧ denotes r1 m1 g g1 ∧ denotes r2 m2 g1 g2.
Proof. inversion 1; subst. eauto 10. Qed.

Lemma denotes_grp_inv n r m g g2 :
  denotes (Grp n r) m g g2 → ∃ g1, g2 = (n, m) :: g1 ∧ denotes r m g g1.
Proof. inversion 1; subst. eauto. Qed.

Lemma denotes_lit_inv c m g g' :
  denotes (Lit c) m g g' → ∃ x, m = [x] ∧ g' = g ∧ ci_eq c x = true.
Proof. inversion 1; subst. eauto. Qed.

Lemma denotes_star_inv f m g g' :
  denotes (Star f) m g g' → g' = g ∧ all f m.
Proof. inversion 1; subst. done. Qed.

Lemma denotes_lazy_inv f m g g' :
  denotes (LazyStar f) m g g' → g' = g ∧ all f m.
Proof. inversion 1; subst. done. Qed.

Lemma denotes_opt_inv f m g g' :
  denotes (Opt f) m g g' → g' = g ∧ (m = [] ∨ ∃ x, m = [x] ∧ f x = true).
Proof. inversion 1; subst; eauto. Qed.

Lemma opt_denotes f m g :
  (m = [] ∨ ∃ x, m = [x] ∧ f x = true) → denotes (Opt f) m g g.
Proof. intros [->|(x & -> & Hx)]; by constructor. Qed.

(** What the CSS pattern denotes is a [url( ... )] segment, and the
    template puts the new name in the place of the old one. *)
Lemma url_sound (old new m : str) (g : groups) :
  denotes (pattern_url old) m [] g →
  url_shape old new m
    (expand (TGroup 1 :: TGroup 2 :: TGroup 3 :: map TLit new ++ [TGroup 5]) g).
Proof.
  unfold pattern_url. simpl seq. intros H.
  apply denotes_seq_inv in H as (head & m2 & g1 & -> & H1 & H).
  apply denotes_grp_inv in H1 as (g0 & -> & H1).
  apply denotes_seq_inv in H1 as (mu & t1 & ? & -> & Hu & H1).
  apply denotes_lit_inv in Hu as (u & -> & -> & Hu).
  apply denotes_seq_inv in H1 as (mr & t2 & ? & -> & Hr & H1).
  apply denotes_lit_inv in Hr as (r & -> & -> & Hr).
  apply denotes_seq_inv in H1 as (ml & t3 & ? & -> & Hl & H1).
  apply denotes_lit_inv in Hl as (l & -> & -> & Hl).
  apply denotes_seq_inv in H1 as (ws1 & t4 & ? & -> & Hws1 & H1).
  apply denotes_star_inv in Hws1 as [-> Hws1].
  apply denotes_seq_inv in H1 as (mp & ws2 & ? & -> & Hp & Hws2).
  apply denotes_lit_inv in Hp as (p & -> & -> & Hp).
  apply ci_eq_punct in Hp as ->; [|punct].
  apply denotes_star_inv in Hws2 as [-> Hws2].
  apply denotes_seq_inv in H as (qo & m3 & g2 & -> & Hqo & H).
  apply denotes_grp_inv in Hqo as (? & -> & Hqo).
  apply denotes_opt_inv in Hqo as [-> Hqo].
  apply denotes_seq_inv in H as (prefix & m4 & g3 & -> & Hpre & H).
  apply denotes_grp_inv in Hpre as (? & -> & Hpre).
  apply denotes_lazy_inv in Hpre as [-> Hpre].
  apply denotes_seq_inv in H as (old' & tail & g4 & -> & Hold & H).
  apply denotes_grp_inv in Hold as (? & -> & Hold).
  apply denotes_escape in Hold as [-> Hold].
  apply denotes_grp_inv in H as (? & -> & H).
  apply denotes_seq_inv in H as (qc & t5 & ? & -> & Hqc & H).
  apply denotes_opt_inv in Hqc as [-> Hqc].
  apply denotes_seq_inv in H as (ws3 & mp & ? & -> & Hws3 & Hp).
  apply denotes_star_inv in Hws3 as [-> Hws3].
  apply denotes_lit_inv in Hp as (p & -> & -> & Hp).
  apply ci_eq_punct in Hp as ->; [|punct].
  exists u, r, l, ws1, ws2, qo, prefix, old', qc, ws3. cbv zeta.
  split_and!; try done; try shape_eq.
  by repeat constructor.
Qed.

Lemma url_complete (old new m m' : str) :
  url_shape old new m m' → ∃ g, denotes (pattern_url old) m [] g.
Proof.
  intros (u & r & l & ws1 & ws2 & qo & prefix & old' & qc & ws3 & H).
  simpl in H.
  destruct H as (-> & _ & Hurl & Hws1 & Hws2 & Hqo & Hp & Ho & Hqc & Hws3).
  inversion Hurl as [|? ? ? ? Hu Hrl]; subst.
  inversion Hrl as [|? ? ? ? Hr Hl']; subst.
  inversion Hl' as [|? ? ? ? Hl _]; subst.
  unfold pattern_url. simpl seq. eexists.
  eapply (den_seq_eq _ _ _ (u :: r :: l :: ws1 ++ "("%char :: ws2));
    [| |reflexivity].
  { constructor.
    eapply (den_seq_eq _ _ _ [u]); [by constructor| |reflexivity].
    eapply (den_seq_eq _ _ _ [r]); [by constructor| |reflexivity].
    eapply (den_seq_eq _ _ _ [l]); [by constructor| |reflexivity].
    eapply (den_seq_eq _ _ _ ws1); [by constructor| |reflexivity].
    eapply (den_seq_eq _ _ _ ["("%char]); [by constructor| |reflexivity].
    by constructor. }
  eapply (den_seq_eq _ _ _ qo);
    [constructor; by apply opt_denotes| |reflexivity].
  eapply (den_seq_eq _ _ _ prefix);
    [constructor; by constructor| |reflexivity].
  eapply (den_seq_eq _ _ _ old');
    [constructor; by apply escape_denotes| |reflexivity].
  constructor.
  eapply (den_seq_eq _ _ _ qc); [by apply opt_denotes| |reflexivity].
  eapply (den_seq_eq _ _ _ ws3); [by constructor| |reflexivity].
  by constructor.
Qed.

(** What the markdown pattern denotes is an image link, and the template
    puts the new name in the place of the old one. *)
Lemma markdown_sound (old new m : str) (g : groups) :
  denotes (pattern_markdown old) m [] g →
  markdown_shape old new m
    (expand (TGroup 1 :: TGroup 2 :: map TLit new ++ [TGroup 4]) g).
Proof.
  unfold pattern_markdown. simpl seq. intros H.
  apply denotes_seq_inv in H as (head & m2 & g1 & -> & H1 & H).
  apply denotes_grp_inv in H1 as (g0 & -> & H1).
  apply denotes_seq_inv in H1 as (mb & t6 & ? & -> & Hb & H1).
  apply denotes_lit_inv in Hb as (b & -> & -> & Hb).
  apply ci_eq_punct in Hb as ->; [|punct].
  apply denotes_seq_inv in H1 as (mo & t7 & ? & -> & Hopen & H1).
  apply denotes_lit_inv in Hopen as (o & -> & -> & Hopen).
  apply ci_eq_punct in Hopen as ->; [|punct].
  apply denotes_seq_inv in H1 as (alt & t8 & ? & -> & Halt & H1).
  apply denotes_star_inv in Halt as [-> Halt].
  apply denotes_seq_inv in H1 as (mc & t9 & ? & -> & Hclose & H1).
  apply denotes_lit_inv in Hclose as (c & -> & -> & Hclose).
  apply ci_eq_punct in Hclose as ->; [|punct].
  apply denotes_seq_inv in H1 as (ws & mp & ? & -> & Hws & Hp).
  apply denotes_star_inv in Hws as [-> Hws].
  apply denotes_lit_inv in Hp as (p & -> & -> & Hp).
  apply ci_eq_punct in Hp as ->; [|punct].
  apply denotes_seq_inv in H as (prefix & m3 & g2 & -> & Hpre & H).
  apply denotes_grp_inv in Hpre as (? & -> & Hpre).
  apply denotes_lazy_inv in Hpre as [-> Hpre].
  apply denotes_seq_inv in H as (old' & tail & g3 & -> & Hold & H).
  apply denotes_grp_inv in Hold as (? & -> & Hold).
  apply denotes_escape in Hold as [-> Hold].
  apply denotes_grp_inv in H as (? & -> & H).
  apply denotes_lit_inv in H as (p & -> & -> & Hp).
  apply ci_eq_punct in Hp as ->; [|punct].
  exists alt, ws, prefix, old'. cbv zeta.
  split_and!; try done; shape_eq.
Qed.

Lemma markdown_complete (old new m m' : str) :
  markdown_shape old new m m' → ∃ g, denotes (pattern_markdown old) m [] g.
Proof.
  intros (alt & ws & prefix & old' & H). simpl in H.
  destruct H as (-> & _ & Halt & Hws & Hp & Ho).
  unfold pattern_markdown. simpl seq. eexists.
  eapply (den_seq_eq _ _ _
            ("!"%char :: "["%char :: alt ++ "]"%char :: ws ++ ["("%char]));
    [| |reflexivity].
  { constructor.
    eapply (den_seq_eq _ _ _ ["!"%char]); [by constructor| |reflexivity].
    eapply (den_seq_eq _ _ _ ["["%char]); [by constructor| |reflexivity].
    eapply (den_seq_eq _ _ _ alt); [by constructor| |reflexivity].
    eapply (den_seq_eq _ _ _ ["]"%char]); [by constructor| |reflexivity].
    eapply (den_seq_eq _ _ _ ws); [by constructor| |reflexivity].
    by constructor. }
  eapply den_seq_eq; [constructor; by constructor| |reflexivity].
  eapply den_seq_eq; [constructor; by apply escape_denotes| |reflexivity].
  by repeat constructor.
Qed.

Lemma rule_rewrites_intro (pattern : regex) (repl : str) (t : list titem)
    (shape : str -> str -> Prop) (text : str) :
  parse_template (count_groups pattern) repl = Ok t →
  (∀ m g, denotes pattern m [] g → shape m (expand t g)) →
  (∀ m m', shape m m' → ∃ g, denotes pattern m [] g) →
  rule_rewrites pattern repl shape text.
Proof.
  intros Ht Hsound Hcomplete. unfold rule_rewrites, re_subn. rewrite Ht. simpl.
  pose proof (subn_walk_sound shape pattern t Hsound text 0 ltac:(lia)) as Hs.
  rewrite drop_0 in Hs.
  destruct (subn_walk pattern t text 0) as [out n] eqn:E.
  exists out, n. split_and!; [done..|].
  intros pre m m' post -> Hm.
  destruct (Hcomplete _ _ Hm) as [g Hd].
  pose proof (subn_walk_finds pattern t pre (m ++ post)
                (match_here_complete _ _ post _ Hd)) as Hn.
  by rewrite E in Hn.
Qed.

(** C1 (amended). For a mapping entry whose new name the template takes
    literally, and for every text, each of the three rules returns the
    text with segments of its own form replaced and nothing else changed:
    the opening delimiter, the prefix and the closing delimiter of a
    segment are kept and only the occurrence of the old name (in any
    case) becomes the new name. The prefix is any run of characters
    without the closing delimiter; it need not end with a path separator,
    so a longer filename that ends with the old name is rewritten too. A
    text that holds such a segment gets at least one replacement. *)
Theorem rules_replace_the_name_only (old new text : str) :
  template_safe new →
  rule_rewrites (pattern_quoted old) (repl_quoted new)
    (quoted_shape old new) text ∧
  rule_rewrites (pattern_url old) (repl_url new)
    (url_shape old new) text ∧
  rule_rewrites (pattern_markdown old) (repl_markdown new)
    (markdown_shape old new) text.
Proof.
  intros Hsafe. split_and!.
  - eapply rule_rewrites_intro;
      [by apply template_quoted|apply quoted_sound|apply quoted_complete].
  - eapply rule_rewrites_intro;
      [by apply template_url|apply url_sound|apply url_complete].
  - eapply rule_rewrites_intro;
      [by apply template_markdown|apply markdown_sound|apply markdown_complete].
Qed.

(** ** The root directory *)

Section Root.
Variable codec : bytes -> Z -> codec_result.
Variable rglob : FS -> Path -> list Path.
Variable text_decode : encoding -> bytes -> option str.
Variable text_encode : str -> option bytes.

(** The images that a run reports are those of the scan of its root. *)
Lemma main_found (env : environment) (args : arguments) (fs fs' : FS)
    (r : report) :
  main codec rglob text_decode text_encode env args fs = (fs', Ok (Done r)) →
  found r = scan rglob IMAGE_EXTENSIONS fs (root_directory env args).
Proof.
  unfold main. destruct (negb _); [done|].
  unfold bind at 1, dir_exists. destruct (negb _); [done|].
  unfold bind at 1, find_images. case_bool_decide; [done|].
  unfold bind at 1.
  destruct (convert_images _ _ _ _ _) as [fs1 [conv|e]]; [|done].
  unfold bind at 1, find_code_files. unfold bind at 1.
  match goal with
  | |- context [(if bool_decide (?l = []) then ret None else ?m) fs1] =>
      destruct ((if bool_decide (l = []) then ret None else m) fs1)
        as [fs2 [refs|e]]; [|done]
  end.
  unfold bind at 1.
  destruct (delete_phase args (converted conv) fs2) as [fs3 [del|e]]; [|done].
  unfold ret. by intros [= _ <-].
Qed.

(** C4 (amended). Without [--path] the root directory that is scanned
    is the directory of the script file, [Path(__file__).resolve().parent],
    wherever the program is invoked from. *)
Theorem default_root_is_script_directory (env : environment)
    (args : arguments) :
  path args = None →
  root_directory env args = get_script_directory env ∧
  get_script_directory env = parent (resolve env (script_file env)) ∧
  ∀ fs fs' r,
    main codec rglob text_decode text_encode env args fs
    = (fs', Ok (Done r)) →
    found r = scan rglob IMAGE_EXTENSIONS fs (get_script_directory env).
Proof.
  intros Hpath.
  assert (Hroot : root_directory env args = get_script_directory env)
    by (unfold root_directory; by rewrite Hpath).
  split_and!; [done..|].
  intros fs fs' r Hmain. rewrite <- Hroot. by eapply main_found.
Qed.
End Root.

(** * The properties on the sample site *)

Ltac evaluate := vm_compute; reflexivity.
Ltac decided := apply (bool_decide_eq_true_1 _); evaluate.

(** C1: the entry photo.jpg -> photo.webp rewrites the longer filename
    my-photo.jpg, in each of the three contexts. *)
Lemma longer_filename_is_rewritten :
  let m := [(py "photo.jpg", py "photo.webp")] in
  apply_mappings m (py "<img src='my-photo.jpg'>") 0
    = Ok (py "<img src='my-photo.webp'>", 1%nat) ∧
  apply_mappings m (py "a { background: url(my-photo.jpg); }") 0
    = Ok (py "a { background: url(my-photo.webp); }", 1%nat) ∧
  apply_mappings m (py "![me](my-photo.jpg)") 0
    = Ok (py "![me](my-photo.webp)", 1%nat) ∧
  py "<img src='my-photo.webp'>" ≠ py "<img src='my-photo.jpg'>".
Proof. split_and!; [evaluate..|]. intros H. vm_compute in H. discriminate. Qed.

(** C1 on the reference of the specification, [/assets/img/photo.jpg]. *)
Lemma rules_replace_the_name_only_witness :
  template_safe (py "photo.webp") ∧
  rule_rewrites (pattern_quoted (py "photo.jpg")) (repl_quoted (py "photo.webp"))
    (quoted_shape (py "photo.jpg") (py "photo.webp"))
    (py "<img src='/assets/img/photo.jpg'>").
Proof.
  assert (Hsafe : template_safe (py "photo.webp")).
  { split; [|reflexivity]. apply (bool_decide_eq_false_1 _). evaluate. }
  split; [exact Hsafe|].
  exact (proj1 (rules_replace_the_name_only (py "photo.jpg") (py "photo.webp")
                  (py "<img src='/assets/img/photo.jpg'>") Hsafe)).
Defined.

(** C2: on the sample site the logos are refused by the codec, so the
    real run maps one name where the dry run maps two; and the dry run
    reports no new size while the real run reports 7 bytes. *)
Lemma dry_run_mapping_differs :
  found_of_run (sample_main dry_args site_fs)
    = found_of_run (sample_main real_args site_fs) ∧
  mapping_of_run (sample_main dry_args site_fs)
    = Some [(py "logo.png", py "logo.webp"); (py "photo.jpg", py "photo.webp")] ∧
  mapping_of_run (sample_main real_args site_fs)
    = Some [(py "photo.jpg", py "photo.webp")] ∧
  option_map (fun r => total_new_size (images_done r))
    (report_of (sample_main dry_args site_fs)) = Some 0 ∧
  option_map (fun r => total_new_size (images_done r))
    (report_of (sample_main real_args site_fs)) = Some 7.
Proof. split_and!; evaluate. Qed.

(** C2 on the sample site. *)
Lemma dry_run_projects_real_run_witness :
  dry_run dry_args = true ∧ dry_run real_args = false ∧
  find_images sample_rglob site site_fs = (site_fs, Ok site_images) ∧
  ∃ d, convert_images sample_codec dry_args site_images no_conversion site_fs
       = (site_fs, Ok d) ∧
       (converted d).*1 = site_images ∧
       (∀ o w, (o, w) ∈ converted d →
               with_suffix o (py ".webp") = Ok w ∧
               name w = stem o ++ py ".webp") ∧
       total_new_size d = 0 ∧ failed d = [] ∧
       (∀ k, dict_get k (image_mappings d)
             = if bool_decide (k ∈ name <$> site_images)
               then Some (stem_of_name k ++ py ".webp") else None) ∧
       ∀ fs' r,
         convert_images sample_codec real_args site_images no_conversion site_fs
         = (fs', Ok r) →
         (∀ k v, dict_get k (image_mappings r) = Some v →
                 dict_get k (image_mappings d) = Some v ∧
                 v = stem_of_name k ++ py ".webp") ∧
         total_original_size r = total_original_size d ∧
         (failed r = [] →
          image_mappings r = image_mappings d ∧ converted r = converted d).
Proof.
  assert (Hscan : find_images sample_rglob site site_fs = (site_fs, Ok site_images))
    by (unfold find_images; do 2 f_equal; evaluate).
  split_and!; [reflexivity|reflexivity|exact Hscan|].
  exact (dry_run_projects_real_run sample_codec sample_rglob dry_args real_args
           site site_images site_fs eq_refl eq_refl Hscan).
Defined.

(** C3 on the sample site. *)
Lemma dry_run_touches_nothing_witness :
  dry_run dry_args = true ∧ (sample_main dry_args site_fs).1 = site_fs.
Proof.
  split; [reflexivity|].
  exact (proj1 (dry_run_touches_nothing sample_codec sample_rglob sample_decode
                  sample_encode dry_args eq_refl) sample_env site_fs).
Defined.

(** C4: invoked from [/site] without [--path], the program scans
    [/opt/tools], where its file is. *)
Lemma default_root_is_not_invocation_directory :
  path default_args = None ∧
  cwd sample_env = [py "/"; py "site"] ∧
  root_directory sample_env default_args = [py "/"; py "opt"; py "tools"] ∧
  root_directory sample_env default_args ≠ cwd sample_env.
Proof. split_and!; [evaluate..|]. intros H. vm_compute in H. discriminate. Qed.

(** C4 for the program invoked from [/site]. *)
Lemma default_root_is_script_directory_witness :
  path default_args = None ∧
  root_directory sample_env default_args = get_script_directory sample_env.
Proof.
  split; [reflexivity|].
  exact (proj1 (default_root_is_script_directory sample_codec sample_rglob
                  sample_decode sample_encode sample_env default_args eq_refl)).
Defined.

(** C5 for the photo of the sample site. *)
Lemma webp_destination_witness :
  find_images sample_rglob site site_fs = (site_fs, Ok site_images) ∧
  photo_jpg ∈ site_images ∧
  ∃ webp_path,
    parent webp_path = parent photo_jpg ∧ stem webp_path = stem photo_jpg ∧
    suffix webp_path = py ".webp".
Proof.
  assert (Hscan : find_images sample_rglob site site_fs = (site_fs, Ok site_images))
    by (unfold find_images; do 2 f_equal; evaluate).
  assert (Hin : photo_jpg ∈ site_images) by decided.
  split_and!; [exact Hscan|exact Hin|].
  destruct (webp_destination sample_codec sample_rglob site photo_jpg site_fs
              site_images Hscan Hin) as (w & H1 & H2 & H3 & _).
  exists w. auto.
Defined.

(** C6 for two conversions of the photo in a row. *)
Lemma backup_idempotent_witness :
  let first := convert_to_webp sample_codec photo_jpg 85 true site_fs in
  let second := convert_to_webp sample_codec photo_jpg 85 true first.1 in
  with_suffix photo_jpg (suffix photo_jpg ++ py ".backup") = Ok photo_backup ∧
  second.1 !! photo_backup = first.1 !! photo_backup.
Proof.
  intros first second.
  assert (Hb : with_suffix photo_jpg (suffix photo_jpg ++ py ".backup")
               = Ok photo_backup) by evaluate.
  split; [exact Hb|].
  exact (proj2 (backup_idempotent sample_codec photo_jpg photo_backup 85
                  site_fs first.1 second.1 first.2 second.2 Hb
                  (surjective_pairing first) (surjective_pairing second))).
Defined.

(** C7 for the photo, which the real run deletes. *)
Lemma originals_deleted_only_when_witness :
  let run := sample_main real_args site_fs in
  is_Some (site_fs !! photo_jpg) ∧ run.1 !! photo_jpg = None ∧
  delete_originals real_args = true ∧ dry_run real_args = false ∧
  ∃ r w, run.2 = Ok (Done r) ∧ (photo_jpg, w) ∈ converted (images_done r) ∧
         with_suffix photo_jpg (py ".webp") = Ok w ∧ is_Some (run.1 !! w).
Proof.
  intros run.
  assert (Hsome : is_Some (site_fs !! photo_jpg)) by (eexists; evaluate).
  assert (Hgone : run.1 !! photo_jpg = None) by evaluate.
  split_and!; [exact Hsome|exact Hgone|..];
    apply (proj1 (originals_deleted_only_when sample_codec sample_rglob
                    sample_decode sample_encode sample_env real_args)
             site_fs run.1 run.2 photo_jpg (surjective_pairing run) Hsome Hgone).
Defined.

(** C8 for the first logo, which the codec refuses. *)
Lemma conversion_failure_contained_witness :
  dry_run real_args = false ∧ name logo_a ≠ [] ∧
  site_fs !! logo_a = Some [] ∧
  sample_codec [] (quality real_args) = Failed None ∧
  ∃ w fs1 st1,
    convert_to_webp sample_codec logo_a (quality real_args) (backup real_args)
      site_fs = (fs1, Ok (w, false)) ∧
    convert_image sample_codec real_args no_conversion logo_a site_fs
      = (fs1, Ok st1) ∧
    failed st1 = [logo_a] ∧ image_mappings st1 = [] ∧
    convert_images sample_codec real_args (logo_a :: [logo_b; photo_jpg])
      no_conversion site_fs
    = convert_images sample_codec real_args [logo_b; photo_jpg] st1 fs1.
Proof.
  assert (Hname : name logo_a ≠ []) by (intros H; vm_compute in H; discriminate).
  assert (Hdata : site_fs !! logo_a = Some []) by evaluate.
  split_and!; [reflexivity|exact Hname|exact Hdata|reflexivity|].
  destruct (conversion_failure_contained sample_codec real_args no_conversion
              logo_a [logo_b; photo_jpg] site_fs [] None eq_refl Hname Hdata
              eq_refl)
    as (w & fs1 & st1 & _ & _ & H1 & H2 & H3 & H4 & _ & H5).
  exists w, fs1, st1. auto.
Defined.

(** C9: in a real run over the sample site both images named logo.png
    fail to convert, and the mapping has no entry for that name. *)
Lemma colliding_basenames_without_entry :
  found_of_run (sample_main real_args site_fs) = Some [logo_a; logo_b; photo_jpg] ∧
  name logo_a = py "logo.png" ∧ name logo_b = py "logo.png" ∧
  parent logo_a ≠ parent logo_b ∧
  option_map (entries (py "logo.png")) (mapping_of_run (sample_main real_args site_fs))
    = Some [].
Proof.
  split_and!; [evaluate..| |evaluate]. intros H. vm_compute in H. discriminate.
Qed.

(** C9 on the site with good logos. *)
Lemma colliding_basenames_witness :
  let run := convert_images sample_codec real_args site_images no_conversion
               good_site_fs in
  run = (run.1, Ok (conv_of run)) ∧ logo_b ∈ site_images ∧
  (∃ o w, (o, w) ∈ converted (conv_of run) ∧ name o = name logo_b) ∧
  ∃ w, with_suffix logo_b (py ".webp") = Ok w ∧
       dict_get (name logo_b) (image_mappings (conv_of run)) = Some (name w) ∧
       entries (name logo_b) (image_mappings (conv_of run))
       = [(name logo_b, name w)].
Proof.
  intros run.
  assert (Hrun : run = (run.1, Ok (conv_of run))).
  { rewrite (surjective_pairing run) at 1. by f_equal. }
  assert (Hin : logo_b ∈ site_images) by decided.
  assert (Hconv : ∃ o w, (o, w) ∈ converted (conv_of run) ∧
                         name o = name logo_b).
  { exists logo_a, (site ++ [py "a"; py "logo.webp"]).
    split; [decided|evaluate]. }
  split_and!; [exact Hrun|exact Hin|exact Hconv|].
  exact (proj1 (colliding_basenames sample_codec real_args site_images
                  good_site_fs run.1 (conv_of run) logo_b Hrun Hin)
           (or_intror Hconv)).
Defined.

(** C10 for the first logo, which the codec refuses. *)
Lemma backup_survives_failure_witness :
  with_suffix logo_a (suffix logo_a ++ py ".backup") = Ok logo_a_backup ∧
  site_fs !! logo_a = Some [] ∧ site_fs !! logo_a_backup = None ∧
  sample_codec [] 85 = Failed None ∧
  ∃ w fs1,
    make_backup logo_a site_fs = (<[logo_a_backup := []]> site_fs, Ok tt) ∧
    convert_to_webp sample_codec logo_a 85 true site_fs = (fs1, Ok (w, false)) ∧
    fs1 !! logo_a_backup = Some [].
Proof.
  assert (Hb : with_suffix logo_a (suffix logo_a ++ py ".backup")
               = Ok logo_a_backup) by evaluate.
  assert (Hp : site_fs !! logo_a = Some []) by evaluate.
  assert (Hnb : site_fs !! logo_a_backup = None) by evaluate.
  split_and!; [exact Hb|exact Hp|exact Hnb|reflexivity|].
  exact (backup_survives_failure sample_codec logo_a logo_a_backup 85 site_fs
           [] None Hb Hp Hnb eq_refl).
Defined.

(** * Further properties of the code *)

(** ** The scan *)

Lemma filter_none {A} (f : A -> bool) (l : list A) :
  (∀ x, x ∈ l → f x = false) → List.filter f l = [].
Proof.
  induction l as [|x l IH]; intros H; [done|]. simpl.
  rewrite (H x) by left. apply IH. intros y Hy. apply H. by right.
Qed.

Lemma elem_of_prefix {A} (e : A) (l1 l2 : list A) :
  l1 `prefix_of` l2 → e ∈ l1 → e ∈ l2.
Proof. intros [k ->] H. apply elem_of_app. by left. Qed.

Section ScanFacts.
Variable rglob : FS -> Path -> list Path.

(** X1. Nothing that has an excluded directory name among the parts of its
    path is found, as an image or as a code file. The parts of the root
    count too: when the traversal yields paths below the root and the root
    itself lies in a directory with an excluded name (or has one), both
    scans come back empty. *)
Theorem nothing_found_below_excluded (fs : FS) (root_dir : Path) (exts : list str) :
  (∀ item e, item ∈ scan rglob exts fs root_dir → e ∈ EXCLUDE_DIRS → e ∉ item) ∧
  ((∀ item, item ∈ rglob fs root_dir → root_dir `prefix_of` item) →
   (∃ e, e ∈ EXCLUDE_DIRS ∧ e ∈ root_dir) →
   find_images rglob root_dir fs = (fs, Ok []) ∧
   find_code_files rglob root_dir fs = (fs, Ok [])).
Proof.
  assert (Hex : ∀ item e, e ∈ EXCLUDE_DIRS → e ∈ item → excluded item = true).
  { intros item e He Hin. unfold excluded. apply existsb_exists.
    exists e. split; [by apply list_elem_of_In|by apply bool_decide_eq_true_2]. }
  split.
  - intros item e Hitem He Hin. apply scan_elem in Hitem as (Hnot & _).
    rewrite (Hex item e He Hin) in Hnot. done.
  - intros Hbelow (e & He & Hroot).
    assert (Hnone : ∀ exts', scan rglob exts' fs root_dir = []).
    { intros exts'. unfold scan. apply filter_none. intros item Hitem.
      rewrite (Hex item e He); [done|].
      eapply elem_of_prefix; [by apply Hbelow|done]. }
    unfold find_images, find_code_files. by rewrite !Hnone.
Qed.

(** X2. The two scans never overlap, and what the program writes is never
    scanned: no path is found both as an image and as a code file, and
    neither the WebP destination of a path nor its backup sibling is
    found by either scan, on any file system and under any root. *)
Theorem outputs_are_not_scanned (p : Path) :
  (∀ fs root fs' root',
     p ∈ scan rglob IMAGE_EXTENSIONS fs root →
     p ∉ scan rglob CODE_EXTENSIONS fs' root') ∧
  (∀ w fs root,
     with_suffix p (py ".webp") = Ok w →
     (w ∉ scan rglob IMAGE_EXTENSIONS fs root) ∧
     (w ∉ scan rglob CODE_EXTENSIONS fs root)) ∧
  (∀ b fs root,
     with_suffix p (suffix p ++ py ".backup") = Ok b →
     (b ∉ scan rglob IMAGE_EXTENSIONS fs root) ∧
     (b ∉ scan rglob CODE_EXTENSIONS fs root)).
Proof.
  assert (Hdisj : ∀ x, x ∈ IMAGE_EXTENSIONS → x ∉ CODE_EXTENSIONS).
  { intros x Hx. repeat (apply elem_of_cons in Hx as [->|Hx]);
      [..|by apply elem_of_nil in Hx];
      apply (bool_decide_eq_false_1 _); reflexivity. }
  split_and!.
  - intros fs root fs' root' H1 H2.
    apply scan_elem in H1 as (_ & _ & H1). apply scan_elem in H2 as (_ & _ & H2).
    by apply (Hdisj _ H1).
  - intros w fs root Hw. apply webp_path_spec in Hw as (_ & _ & Hs & _).
    split; intros H; apply scan_elem in H as (_ & _ & H); rewrite Hs in H;
      revert H; apply (bool_decide_eq_false_1 _); reflexivity.
  - intros b fs root Hb. apply backup_path_spec in Hb as [_ Hs].
    split; intros H; apply scan_elem in H as (_ & _ & H); rewrite Hs in H;
      revert H; apply (bool_decide_eq_false_1 _); reflexivity.
Qed.
End ScanFacts.

(** ** More on the conversion of one image *)

Section ConversionFacts.
Variable codec : bytes -> Z -> codec_result.

(** X3. [convert_to_webp] reports success exactly when the image is on
    disk and the codec encodes its bytes (and, with [backup=True], the
    backup path can be formed): then the destination holds the output of
    the codec, and the backup sibling holds what it held before or, when
    there was none, the bytes of the image. *)
Theorem conversion_success (p w : Path) (q : Z) (bk : bool) (fs : FS) :
  with_suffix p (py ".webp") = Ok w →
  (bk = true → ∃ b, with_suffix p (suffix p ++ py ".backup") = Ok b) →
  (∀ data out,
     fs !! p = Some data → codec data q = Encoded out →
     ∃ fs1, convert_to_webp codec p q bk fs = (fs1, Ok (w, true)) ∧
            fs1 !! w = Some out ∧
            (∀ b, bk = true →
                  with_suffix p (suffix p ++ py ".backup") = Ok b →
                  fs1 !! b = Some (default data (fs !! b)))) ∧
  (∀ fs1, convert_to_webp codec p q bk fs = (fs1, Ok (w, true)) →
          ∃ data out, fs !! p = Some data ∧ codec data q = Encoded out ∧
                      fs1 !! w = Some out).
Proof.
  intros Hw Hbk. split.
  - intros data out Hp Hc. rewrite (convert_to_webp_unfold _ _ _ _ _ _ Hw).
    destruct bk.
    + destruct (Hbk eq_refl) as [b Hb].
      pose proof (webp_not_backup _ _ _ Hw Hb) as Hne.
      pose proof (make_backup_spec p fs) as H. rewrite Hb, Hp in H.
      destruct (fs !! b) as [old|] eqn:Eb; rewrite H.
      * rewrite Hp, Hc. eexists. split_and!; [done|apply lookup_insert_eq|].
        intros b' _ Hb'. rewrite Hb in Hb'. injection Hb' as <-.
        rewrite lookup_insert_ne by done. by rewrite Eb.
      * assert (Hpb : <[b := data]> fs !! p = Some data).
        { destruct (decide (b = p)) as [->|?];
            [apply lookup_insert_eq|by rewrite lookup_insert_ne]. }
        rewrite Hpb, Hc. eexists. split_and!; [done|apply lookup_insert_eq|].
        intros b' _ Hb'. rewrite Hb in Hb'. injection Hb' as <-.
        rewrite lookup_insert_ne by done. rewrite lookup_insert_eq, Eb. done.
    + unfold ret. rewrite Hp, Hc. eexists.
      split_and!; [done|apply lookup_insert_eq|done].
  - intros fs1. rewrite (convert_to_webp_unfold _ _ _ _ _ _ Hw).
    destruct ((if bk then make_backup p else ret tt) fs) as [fsb rb] eqn:Eb.
    assert (Hpb : fsb !! p = fs !! p).
    { destruct bk; [by apply make_backup_keeps in Eb as [? _]|].
      by injection Eb as <- _. }
    destruct rb as [[]|e]; [|done].
    rewrite Hpb. destruct (fs !! p) as [data|]; [|done].
    destruct (codec data q) as [out|[junk|]] eqn:Ec; [|done..].
    intros [= <-]. exists data, out. split_and!; [done..|apply lookup_insert_eq].
Qed.

(** X4. One call of [convert_to_webp] writes at most two paths, the
    destination and the backup sibling, and deletes nothing: every other
    file is as it was, without [backup] every file but the destination,
    and the source image itself keeps its bytes. *)
Theorem conversion_writes_two_paths (p w : Path) (q : Z) (bk : bool)
    (fs fs1 : FS) (r : result (Path * bool)) :
  with_suffix p (py ".webp") = Ok w →
  convert_to_webp codec p q bk fs = (fs1, r) →
  (∀ x, x ≠ w → with_suffix p (suffix p ++ py ".backup") ≠ Ok x →
        fs1 !! x = fs !! x) ∧
  (bk = false → ∀ x, x ≠ w → fs1 !! x = fs !! x) ∧
  (p ≠ w → fs1 !! p = fs !! p) ∧
  (∀ x, is_Some (fs !! x) → is_Some (fs1 !! x)).
Proof.
  intros Hw Hc.
  destruct (convert_to_webp_effect codec _ _ _ _ _ _ _ Hw Hc)
    as (ok & _ & _ & Hfr & Hmono).
  split_and!; [| | |done].
  - intros x Hx Hb. by destruct (Hfr x Hx) as [?|(_ & ? & _)].
  - intros -> x Hx. by destruct (Hfr x Hx) as [?|(? & _)].
  - intros Hp. destruct (Hfr p Hp) as [?|(_ & _ & Hn & Hs & _)]; [done|].
    rewrite Hn in Hs. by destruct Hs.
Qed.

(** X5. [convert_to_webp] lets an exception out in one case only: a path
    without a name, for which forming the destination raises [ValueError]
    before the [try]; then nothing is written. For every other path it
    returns a pair. *)
Theorem conversion_raises_without_name (p : Path) (q : Z) (bk : bool) (fs : FS) :
  (name p = [] → convert_to_webp codec p q bk fs = (fs, Raise ValueError)) ∧
  (name p ≠ [] →
   ∃ fs1 w ok, convert_to_webp codec p q bk fs = (fs1, Ok (w, ok)) ∧
               with_suffix p (py ".webp") = Ok w).
Proof.
  split.
  - intros Hn. unfold convert_to_webp, bind, lift, with_suffix. simpl.
    by rewrite bool_decide_eq_true_2.
  - intros Hn. pose proof (with_suffix_total p (py ".webp") Hn eq_refl) as Hw.
    destruct (convert_to_webp_returns codec _ _ q bk fs Hw) as (fs1 & ok & E).
    eauto 10.
Qed.
End ConversionFacts.

(** ** More on the conversion loop *)

Section LoopFacts.
Variable codec : bytes -> Z -> codec_result.
Variable rglob : FS -> Path -> list Path.

Lemma convert_images_split (args : arguments) (images : list Path)
    (st st' : conversion) (fs fs' : FS) :
  convert_images codec args images st fs = (fs', Ok st') →
  ∃ lc lf,
    converted st' = converted st ++ lc ∧ failed st' = failed st ++ lf ∧
    (length lc + length lf = length images)%nat ∧
    lc.*1 `sublist_of` images ∧ lf `sublist_of` images ∧
    (∀ o w, (o, w) ∈ lc → with_suffix o (py ".webp") = Ok w).
Proof.
  revert st fs. induction images as [|p images IH]; intros st fs; simpl.
  - intros [= <- <-]. exists [], []. rewrite !app_nil_r.
    split_and!; [done..|]. intros o w H. by apply elem_of_nil in H.
  - unfold bind at 1.
    destruct (convert_image codec args st p fs) as [fs1 [st1|e]] eqn:E1;
      [|done].
    intros H. destruct (IH _ _ H) as (lc & lf & Hc & Hf & Hlen & Hsc & Hsf & Hw).
    destruct (convert_image_step _ _ _ _ _ _ _ E1)
      as (data & _ & _ & [(_ & Hc1 & Hf1 & _)|(w & Hw1 & Hc1 & Hf1 & _)]).
    + exists lc, (p :: lf). rewrite Hc, Hc1, Hf, Hf1, <- app_assoc.
      split_and!; [done..|simpl; lia|by apply sublist_cons|by apply sublist_skip|done].
    + exists ((p, w) :: lc), lf. rewrite Hc, Hc1, Hf, Hf1, <- app_assoc.
      split_and!; [done..|simpl; lia|by apply sublist_skip|by apply sublist_cons|].
      intros o w' Hin. apply elem_of_cons in Hin as [[= -> ->]|Hin]; auto.
Qed.

(** X6. The conversion loop puts every image on exactly one of its two
    lists: the originals of [converted] and the paths in [failed] are
    taken from the images in scan order, their numbers add up to the
    number of images, and every converted pair is an image with the path
    that [with_suffix] gives for it. *)
Theorem converted_and_failed_split_images (args : arguments)
    (images : list Path) (fs fs' : FS) (conv : conversion) :
  convert_images codec args images no_conversion fs = (fs', Ok conv) →
  (length (converted conv) + length (failed conv) = length images)%nat ∧
  (converted conv).*1 `sublist_of` images ∧
  failed conv `sublist_of` images ∧
  (∀ o w, (o, w) ∈ converted conv → with_suffix o (py ".webp") = Ok w).
Proof.
  intros H. destruct (convert_images_split _ _ _ _ _ _ H)
    as (lc & lf & Hc & Hf & Hlen & Hsc & Hsf & Hw).
  simpl in Hc, Hf. subst lc lf. done.
Qed.

(** X7. For the images that the scan discovers, the total of the original
    sizes that the loop reports is the size on disk of all of them, the
    failed ones included, in a dry run and in a real run alike. *)
Theorem original_size_is_size_on_disk (args : arguments) (root_dir : Path)
    (images : list Path) (fs fs' : FS) (conv : conversion) :
  find_images rglob root_dir fs = (fs, Ok images) →
  convert_images codec args images no_conversion fs = (fs', Ok conv) →
  total_original_size conv = total_size fs images.
Proof.
  intros [= <-] H.
  rewrite (convert_images_original_size codec _ _ _ _ fs _ _ H); [done|done|].
  intros p Hp. by apply scan_elem in Hp as (_ & _ & ?).
Qed.

(** X8. Two paths get the same WebP destination exactly when they lie in
    the same directory and have the same stem, whatever their suffixes:
    [a.jpg] and [a.png] side by side are both converted to [a.webp]. The
    destinations are the paths that [convert_to_webp] returns for the two
    images, at every quality, with or without backup, on every file
    system. *)
Theorem same_destination_iff (p1 p2 w1 w2 : Path) :
  with_suffix p1 (py ".webp") = Ok w1 →
  with_suffix p2 (py ".webp") = Ok w2 →
  (w1 = w2 ↔ parent p1 = parent p2 ∧ stem p1 = stem p2) ∧
  (∀ q bk fs, ∃ fs1 ok,
     convert_to_webp codec p1 q bk fs = (fs1, Ok (w1, ok))) ∧
  (∀ q bk fs, ∃ fs2 ok,
     convert_to_webp codec p2 q bk fs = (fs2, Ok (w2, ok))).
Proof.
  intros H1 H2.
  split_and!; [|intros; by apply convert_to_webp_returns..].
  destruct (webp_path_spec _ _ H1) as (Hp1 & Hs1 & _ & _).
  destruct (webp_path_spec _ _ H2) as (Hp2 & Hs2 & _ & _).
  split.
  - intros ->. split; congruence.
  - intros [Hp Hs].
    apply with_suffix_Ok in H1 as (Hn1 & _ & ->).
    apply with_suffix_Ok in H2 as (Hn2 & _ & ->).
    unfold parent in Hp. rewrite !bool_decide_eq_false_2 in Hp by done.
    by rewrite Hp, Hs.
Qed.
End LoopFacts.

(** ** More on the phases of a run *)

Section RunFacts.
Variable codec : bytes -> Z -> codec_result.
Variable rglob : FS -> Path -> list Path.
Variable text_decode : encoding -> bytes -> option str.
Variable text_encode : str -> option bytes.

(** A run that comes to its end went through the three phases. *)
Lemma main_phases (env : environment) (args : arguments) (fs fs' : FS)
    (r : report) :
  main codec rglob text_decode text_encode env args fs = (fs', Ok (Done r)) →
  let root_dir := root_directory env args in
  found r = scan rglob IMAGE_EXTENSIONS fs root_dir ∧ found r ≠ [] ∧
  ∃ fs1 fs2,
    convert_images codec args (found r) no_conversion fs
      = (fs1, Ok (images_done r)) ∧
    (let code_files := scan rglob CODE_EXTENSIONS fs1 root_dir in
     (code_files = [] ∧ fs2 = fs1 ∧ references r = None) ∨
     (code_files ≠ [] ∧ ∃ counts,
        update_files text_decode text_encode args
          (image_mappings (images_done r)) root_dir code_files (0, 0)%nat fs1
          = (fs2, Ok counts) ∧ references r = Some counts)) ∧
    delete_phase args (converted (images_done r)) fs2 = (fs', Ok (deleted r)).
Proof.
  unfold main. destruct (negb _); [done|].
  unfold bind at 1, dir_exists. destruct (negb _); [done|].
  unfold bind at 1, find_images. case_bool_decide as Hnil; [done|].
  unfold bind at 1.
  destruct (convert_images _ _ _ _ _) as [fs1 [conv|e]] eqn:Ec; [|done].
  unfold bind at 1, find_code_files. unfold bind at 1.
  set (code_files := scan rglob CODE_EXTENSIONS fs1 (root_directory env args)).
  case_bool_decide as Hcode.
  - unfold ret at 1. unfold bind at 1.
    destruct (delete_phase args (converted conv) fs1) as [fs3 [del|e]] eqn:Ed;
      [|done].
    unfold ret. intros [= <- <-]. simpl. split_and!; [done..|].
    exists fs1, fs1. split_and!; [done| |done]. left. done.
  - unfold bind at 1.
    destruct (update_files _ _ _ _ _ _ _ fs1) as [fs2 [counts|e]] eqn:Eu;
      [|done].
    unfold ret at 1. unfold bind at 1.
    destruct (delete_phase args (converted conv) fs2) as [fs3 [del|e]] eqn:Ed;
      [|done].
    unfold ret. intros [= <- <-]. simpl. split_and!; [done..|].
    exists fs1, fs2. split_and!; [done| |done]. right. eauto.
Qed.

(** X9. The deletion loop always comes back, and the number it reports
    is the number of files that are gone: the file system shrinks by
    exactly that many files, which is at most the number of pairs, and no
    file is added or changed. *)
Theorem deleted_count_is_exact (pairs : list (Path * Path)) (fs : FS) :
  ∃ fs' d, delete_originals_loop pairs 0 fs = (fs', Ok d) ∧
           (size fs' + d = size fs)%nat ∧ (d ≤ length pairs)%nat ∧ fs' ⊆ fs.
Proof.
  assert (Hgen : ∀ d0 fs0, ∃ fs' d,
    delete_originals_loop pairs d0 fs0 = (fs', Ok d) ∧
    (size fs' + d = size fs0 + d0)%nat ∧ (d0 ≤ d ≤ d0 + length pairs)%nat ∧
    fs' ⊆ fs0).
  { induction pairs as [|[o w] pairs IH]; intros d0 fs0; simpl.
    - exists fs0, d0. split_and!; [done|done|lia|lia|done].
    - unfold bind at 1, path_exists.
      destruct (bool_decide (is_Some (fs0 !! w))).
      + unfold bind at 1, try_except, bind, unlink, ret.
        destruct (fs0 !! o) as [orig|] eqn:Eo.
        * destruct (IH (S d0) (delete o fs0)) as (fs' & d & -> & Hs & Hd & Hsub).
          exists fs', d. split_and!; [done| |lia|lia|].
          -- rewrite map_size_delete_Some in Hs by eauto.
             assert (size fs0 ≠ 0)%nat
               by (apply map_size_ne_0_lookup_2 with o; eauto).
             lia.
          -- etrans; [done|apply delete_subseteq].
        * destruct (IH d0 fs0) as (fs' & d & -> & Hs & Hd & Hsub).
          exists fs', d. split_and!; [done|done|lia|lia|done].
      + destruct (IH d0 fs0) as (fs' & d & -> & Hs & Hd & Hsub).
        exists fs', d. split_and!; [done|done|lia|lia|done]. }
  destruct (Hgen 0%nat fs) as (fs' & d & H & Hs & Hd & Hsub).
  exists fs', d. split_and!; [done|lia|lia|done].
Qed.

Lemma convert_image_outputs (args : arguments) (st st' : conversion)
    (p : Path) (fs fs' : FS) :
  dry_run args = false →
  convert_image codec args st p fs = (fs', Ok st') →
  (∀ o w, (o, w) ∈ converted st → is_Some (fs !! w)) →
  ∀ o w, (o, w) ∈ converted st' → is_Some (fs' !! w).
Proof.
  intros Hreal H Hold. unfold convert_image, bind, stat_size, lift, ret in H.
  destruct (fs !! p) as [data|]; [|done]. rewrite Hreal in H.
  destruct (with_suffix p (py ".webp")) as [w|e] eqn:Hw.
  2:{ unfold convert_to_webp, bind, lift in H. rewrite Hw in H. done. }
  destruct (convert_to_webp codec p (quality args) (backup args) fs)
    as [fs1 r] eqn:E.
  destruct (convert_to_webp_effect codec _ _ _ _ _ _ _ Hw E)
    as (ok & -> & Hok & _ & Hmono).
  destruct ok.
  - destruct (Hok eq_refl) as [[out Hout] _]. rewrite Hout in H.
    destruct (verbose args && _); [done|]. injection H as <- <-. simpl.
    intros o w' Hin. apply elem_of_app in Hin as [Hin|Hin]; [eauto|].
    apply list_elem_of_singleton in Hin as [= -> ->]. eauto.
  - injection H as <- <-. simpl. eauto.
Qed.

Lemma convert_images_outputs (args : arguments) (images : list Path)
    (st st' : conversion) (fs fs' : FS) :
  dry_run args = false →
  convert_images codec args images st fs = (fs', Ok st') →
  (∀ o w, (o, w) ∈ converted st → is_Some (fs !! w)) →
  ∀ o w, (o, w) ∈ converted st' → is_Some (fs' !! w).
Proof.
  intros Hreal. revert st fs. induction images as [|p images IH];
    intros st fs; simpl.
  - by intros [= <- <-].
  - unfold bind at 1.
    destruct (convert_image codec args st p fs) as [fs1 [st1|e]] eqn:E1;
      [|done].
    intros H Hold. apply (IH _ _ H).
    by apply (convert_image_outputs _ _ _ _ _ _ Hreal E1).
Qed.

(** X10. At the end of a real run every image that the report lists as
    converted has its WebP file on disk, also after the rewriting of the
    code files and the deletion of originals. *)
Theorem converted_files_are_on_disk (env : environment) (args : arguments)
    (fs fs' : FS) (r : report) :
  main codec rglob text_decode text_encode env args fs = (fs', Ok (Done r)) →
  dry_run args = false →
  ∀ o w, (o, w) ∈ converted (images_done r) →
         with_suffix o (py ".webp") = Ok w ∧ is_Some (fs' !! w).
Proof.
  intros Hmain Hreal o w Hin.
  destruct (main_phases _ _ _ _ _ Hmain)
    as (Hfound & _ & fs1 & fs2 & Hconv & Hrefs & Hdel).
  assert (Hpairs : ∀ o w, (o, w) ∈ converted (images_done r) →
            o ∈ found r ∧ with_suffix o (py ".webp") = Ok w).
  { intros o' w' Hin'.
    destruct (convert_images_converted codec _ _ _ _ _ _ Hconv o' w' Hin')
      as [H|?]; [by apply elem_of_nil in H|done]. }
  destruct (Hpairs _ _ Hin) as [_ Hw]. split; [done|].
  assert (H1 : is_Some (fs1 !! w)).
  { apply (convert_images_outputs _ _ _ _ _ _ Hreal Hconv) with o; [|done].
    intros ? ? H. by apply elem_of_nil in H. }
  assert (H2 : is_Some (fs2 !! w)).
  { destruct Hrefs as [(_ & -> & _)|(_ & counts & Hu & _)]; [done|].
    pose proof (keeps_update_files text_decode text_encode args
                  (image_mappings (images_done r)) (root_directory env args)
                  (scan rglob CODE_EXTENSIONS fs1 (root_directory env args))
                  (0, 0)%nat fs1 w H1) as Hk.
    by rewrite Hu in Hk. }
  unfold delete_phase in Hdel.
  destruct (delete_originals args && _ && _);
    [|unfold ret in Hdel; by injection Hdel as <- _].
  destruct (delete_originals_loop_spec (converted (images_done r)) 0 fs2)
    as (fs3 & d' & Hloop & _ & Hfr).
  unfold bind in Hdel. rewrite Hloop in Hdel. unfold ret in Hdel.
  injection Hdel as <- _. rewrite Hfr; [done|].
  intros Hor. apply list_elem_of_fmap in Hor as ([o2 w2] & -> & Hin2).
  destruct (Hpairs _ _ Hin2) as [Himg _]. rewrite Hfound in Himg.
  apply scan_elem in Himg as (_ & _ & Hext).
  by apply (webp_is_no_image _ _ Hw).
Qed.
End RunFacts.

(** ** More on the rewriting of a code file *)

Section RewriteFacts.
Variable text_decode : encoding -> bytes -> option str.
Variable text_encode : str -> option bytes.

(** Reading the content: the file is missing, or it is decoded by the
    first encoding of the list that accepts its bytes, if any. *)
Lemma read_content_spec (encs : list encoding) (file_path : Path) (fs : FS) :
  match fs !! file_path with
  | None =>
      encs = [] ∧ read_content text_decode encs file_path fs = (fs, Ok None) ∨
      read_content text_decode encs file_path fs = (fs, Raise FileNotFoundError)
  | Some data =>
      ∃ oc, read_content text_decode encs file_path fs = (fs, Ok oc) ∧
            (oc = None ↔ ∀ e, e ∈ encs → text_decode e data = None)
  end.
Proof.
  destruct (fs !! file_path) as [data|] eqn:E.
  - induction encs as [|e encs IH]; simpl.
    + exists None. split; [done|]. split; [|done].
      intros _ e He. by apply elem_of_nil in He.
    + unfold bind, read_bytes. rewrite E.
      destruct (text_decode e data) as [c|] eqn:Ed.
      * exists (Some c). split; [done|]. split; [done|].
        intros H. specialize (H e ltac:(left)). congruence.
      * destruct IH as (oc & -> & Hoc). exists oc. split; [done|].
        rewrite Hoc. split.
        -- intros H e' He'. apply elem_of_cons in He' as [->|?]; auto.
        -- intros H e' He'. apply H. by right.
  - destruct encs as [|e encs]; [left; done|right].
    simpl. unfold bind, read_bytes. by rewrite E.
Qed.

(** [update_references_in_file], case by case. *)
Lemma update_references_cases (file_path : Path) (m : dict) (root_dir : Path)
    (dry verb : bool) (fs : FS) :
  update_references_in_file text_decode text_encode file_path m root_dir
    dry verb fs =
  match read_content text_decode [utf_8; latin_1; cp1252] file_path fs with
  | (_, Ok (Some original_content)) =>
      match apply_mappings m original_content 0 with
      | Ok (content, replacements) =>
          if bool_decide (content = original_content) || dry
          then (fs, Ok replacements)
          else match text_encode content with
               | Some data => (<[file_path := data]> fs, Ok replacements)
               | None => (<[file_path := []]> fs, Ok 0%nat)
               end
      | Raise _ => (fs, Ok 0%nat)
      end
  | _ => (fs, Ok 0%nat)
  end.
Proof.
  unfold update_references_in_file, try_except. unfold bind at 1.
  pose proof (readonly_read_content text_decode [utf_8; latin_1; cp1252]
                file_path fs) as Hro.
  destruct (read_content _ _ _ fs) as [fs0 rc]. simpl in Hro. subst fs0.
  destruct rc as [[original_content|]|e]; [|done..].
  unfold bind at 1, lift.
  destruct (apply_mappings m original_content 0) as [[content n]|e]; [|done].
  case_bool_decide as Hsame; simpl; [done|].
  destruct dry; simpl; [done|].
  unfold bind, write_content, write_bytes, raise, ret.
  destruct (text_encode content); done.
Qed.

(** X11. [update_references_in_file] never raises: whatever goes wrong
    with reading, the template or writing, it returns a count. It touches
    no file but its own, neither creates nor deletes a file, and in dry-run
    mode it changes nothing at all. A file that is missing, or that none of
    the three encodings decodes, is reported with zero replacements and
    left as it is. *)
Theorem update_is_contained (file_path : Path) (m : dict) (root_dir : Path)
    (dry verb : bool) (fs : FS) :
  ∃ fs' n,
    update_references_in_file text_decode text_encode file_path m root_dir
      dry verb fs = (fs', Ok n) ∧
    (∀ x, x ≠ file_path → fs' !! x = fs !! x) ∧
    (is_Some (fs' !! file_path) ↔ is_Some (fs !! file_path)) ∧
    (dry = true → fs' = fs) ∧
    ((fs !! file_path = None ∨
      ∃ data, fs !! file_path = Some data ∧
              ∀ e, e ∈ [utf_8; latin_1; cp1252] → text_decode e data = None) →
     fs' = fs ∧ n = 0%nat).
Proof.
  rewrite update_references_cases.
  assert (Hread :
    (fs !! file_path = None ∧
     read_content text_decode [utf_8; latin_1; cp1252] file_path fs
     = (fs, Raise FileNotFoundError)) ∨
    (∃ data oc, fs !! file_path = Some data ∧
       read_content text_decode [utf_8; latin_1; cp1252] file_path fs
       = (fs, Ok oc) ∧
       (oc = None ↔
        ∀ e, e ∈ [utf_8; latin_1; cp1252] → text_decode e data = None))).
  { pose proof (read_content_spec [utf_8; latin_1; cp1252] file_path fs) as H.
    destruct (fs !! file_path) as [data|].
    - right. destruct H as (oc & ? & ?). eauto.
    - left. by destruct H as [[? _]| ->]. }
  assert (Hsame : ∀ n : nat, ∃ fs' n',
    (fs, Ok n) = (fs', Ok n') ∧
    (∀ x, x ≠ file_path → fs' !! x = fs !! x) ∧
    (is_Some (fs' !! file_path) ↔ is_Some (fs !! file_path)) ∧
    (dry = true → fs' = fs) ∧ (n = 0%nat → fs' = fs ∧ n' = 0%nat)).
  { intros n. exists fs, n. split_and!; done. }
  destruct Hread as [[Efile ->]|(data & oc & Efile & -> & Hoc)].
  { destruct (Hsame 0%nat) as (fs' & n' & E & H1 & H2 & H3 & H4).
    exists fs', n'. split_and!; [done..|]. intros _. by apply H4. }
  destruct oc as [original_content|].
  2:{ destruct (Hsame 0%nat) as (fs' & n' & E & H1 & H2 & H3 & H4).
      exists fs', n'. split_and!; [done..|]. intros _. by apply H4. }
  assert (Hno : (fs !! file_path = None ∨
      ∃ data, fs !! file_path = Some data ∧
              ∀ e, e ∈ [utf_8; latin_1; cp1252] → text_decode e data = None) →
      False).
  { intros [?|(d & Hd & H)]; [congruence|]. rewrite Efile in Hd.
    injection Hd as <-. apply Hoc in H. done. }
  assert (Hwrite : ∀ (d : bytes) (n : nat), ∃ fs' n',
    (<[file_path := d]> fs, Ok n) = (fs', Ok n') ∧
    (∀ x, x ≠ file_path → fs' !! x = fs !! x) ∧
    (is_Some (fs' !! file_path) ↔ is_Some (fs !! file_path))).
  { intros d n. exists (<[file_path := d]> fs), n. split_and!; [done| |].
    - intros x Hx. by rewrite lookup_insert_ne.
    - rewrite lookup_insert_eq, Efile. split; eauto. }
  destruct (apply_mappings m original_content 0) as [[content n]|e].
  - destruct (bool_decide (content = original_content) || dry) eqn:Eb.
    + exists fs, n. split_and!; [done..|]. intros H. by destruct (Hno H).
    + apply orb_false_iff in Eb as [_ ->].
      destruct (text_encode content) as [d|].
      * destruct (Hwrite d n) as (fs' & n' & E & H1 & H2).
        exists fs', n'. split_and!; [done..|]. intros H. by destruct (Hno H).
      * destruct (Hwrite [] 0%nat) as (fs' & n' & E & H1 & H2).
        exists fs', n'. split_and!; [done..|]. intros H. by destruct (Hno H).
  - exists fs, 0%nat. split_and!; done.
Qed.

(** What one update does to the file system, in short. *)
Lemma update_references_effect (file_path : Path) (m : dict) (root_dir : Path)
    (dry verb : bool) (fs : FS) :
  ∃ fs' n,
    update_references_in_file text_decode text_encode file_path m root_dir
      dry verb fs = (fs', Ok n) ∧
    (fs' = fs ∨ ∃ d, fs' = <[file_path := d]> fs ∧ is_Some (fs !! file_path)).
Proof.
  rewrite update_references_cases.
  pose proof (read_content_spec [utf_8; latin_1; cp1252] file_path fs) as H.
  destruct (fs !! file_path) as [data|] eqn:Efile.
  2:{ destruct H as [[? _]| ->]; [done|]. eauto. }
  destruct H as (oc & -> & _). destruct oc as [original_content|]; [|eauto].
  destruct (apply_mappings m original_content 0) as [[content n]|e]; [|eauto].
  destruct (_ || dry); [eauto|].
  destruct (text_encode content) as [d|]; eauto 10.
Qed.
End RewriteFacts.

(** ** Texts without the old name *)

Lemma ci_prefix_match (old old' post : str) :
  ci_match old old' → ci_prefix old (old' ++ post) = true.
Proof.
  induction 1 as [|c x old old' Hc _ IH]; [by destruct post|].
  simpl. by rewrite Hc, IH.
Qed.

Lemma occurs_cib_complete (old text : str) :
  occurs_ci old text → occurs_cib old text = true.
Proof.
  intros (pre & old' & post & -> & Hm).
  induction pre as [|c pre IH].
  - simpl. destruct (old' ++ post) eqn:E; simpl;
      rewrite <- E, (ci_prefix_match _ _ _ Hm); done.
  - simpl. rewrite IH. apply orb_true_r.
Qed.

Lemma occurs_ci_cons (old text : str) (c : ascii) :
  occurs_ci old text → occurs_ci old (c :: text).
Proof. intros (pre & old' & post & -> & Hm). by exists (c :: pre), old', post. Qed.

Lemma occurs_ci_app (old m s : str) : occurs_ci old m → occurs_ci old (m ++ s).
Proof.
  intros (pre & old' & post & -> & Hm). exists pre, old', (post ++ s).
  by rewrite <- !app_assoc.
Qed.

Lemma occurs_ci_app_r (old m s : str) : occurs_ci old s → occurs_ci old (m ++ s).
Proof. induction m; [done|]. intros H. by apply occurs_ci_cons, IHm. Qed.

Lemma quoted_shape_occurs (old new m m' : str) :
  quoted_shape old new m m' → occurs_ci old m.
Proof.
  intros (q & prefix & old' & q' & -> & _ & _ & _ & _ & Ho).
  by exists (q :: prefix), old', [q'].
Qed.

Lemma url_shape_occurs (old new m m' : str) :
  url_shape old new m m' → occurs_ci old m.
Proof.
  intros (u & r & l & ws1 & ws2 & qo & prefix & old' & qc & ws3 & H).
  cbv zeta in H. destruct H as (-> & _ & _ & _ & _ & _ & _ & Ho & _).
  apply occurs_ci_app_r, occurs_ci_app_r, occurs_ci_app_r.
  by exists [], old', (qc ++ ws3 ++ [")"%char]).
Qed.

Lemma markdown_shape_occurs (old new m m' : str) :
  markdown_shape old new m m' → occurs_ci old m.
Proof.
  intros (alt & ws & prefix & old' & H).
  cbv zeta in H. destruct H as (-> & _ & _ & _ & _ & Ho).
  apply occurs_ci_app_r, occurs_ci_app_r.
  by exists [], old', [")"%char].
Qed.

Lemma rewritten_unchanged (shape : str -> str -> Prop) (old text out : str)
    (n : nat) :
  (∀ m m', shape m m' → occurs_ci old m) →
  rewritten shape text out n → ¬ occurs_ci old text →
  out = text ∧ n = 0%nat.
Proof.
  intros Hshape Hrw. induction Hrw as [|c s out n Hrw IH|m m' s out n Hm Hrw IH];
    intros Hno.
  - done.
  - destruct IH as [-> ->]; [|done]. intros H. by apply Hno, occurs_ci_cons.
  - destruct Hno. by eapply occurs_ci_app, Hshape.
Qed.

Lemma rule_unchanged (pattern : regex) (repl : str)
    (shape : str -> str -> Prop) (old text : str) :
  rule_rewrites pattern repl shape text →
  (∀ m m', shape m m' → occurs_ci old m) → ¬ occurs_ci old text →
  re_subn pattern repl text = Ok (text, 0%nat).
Proof.
  intros (out & n & -> & Hrw & _) Hshape Hno.
  by destruct (rewritten_unchanged _ _ _ _ _ Hshape Hrw Hno) as [-> ->].
Qed.

Lemma apply_patterns_unchanged (old new content : str) (r : nat) :
  template_safe new → ¬ occurs_ci old content →
  apply_patterns (patterns old new) content r = Ok (content, r).
Proof.
  intros Hsafe Hno. unfold patterns. simpl.
  rewrite (rule_unchanged _ _ (quoted_shape old new) old content);
    [|eapply rule_rewrites_intro;
        [by apply template_quoted|apply quoted_sound|apply quoted_complete]
     |apply quoted_shape_occurs|done].
  simpl.
  rewrite (rule_unchanged _ _ (url_shape old new) old content);
    [|eapply rule_rewrites_intro;
        [by apply template_url|apply url_sound|apply url_complete]
     |apply url_shape_occurs|done].
  simpl.
  rewrite (rule_unchanged _ _ (markdown_shape old new) old content);
    [|eapply rule_rewrites_intro;
        [by apply template_markdown|apply markdown_sound|apply markdown_complete]
     |apply markdown_shape_occurs|done].
  done.
Qed.

Section Unreferenced.
Variable text_decode : encoding -> bytes -> option str.
Variable text_encode : str -> option bytes.

(** X12. A text in which none of the old names of the mapping occurs, in
    any case, goes through the whole loop unchanged and with zero
    replacements (for new names that the template takes literally); and a
    file with such a text is not written, in a real run either. *)
Theorem unreferenced_text_is_unchanged (m : dict) (content : str) :
  (∀ old new, (old, new) ∈ m → template_safe new ∧ ¬ occurs_ci old content) →
  apply_mappings m content 0 = Ok (content, 0%nat) ∧
  ∀ file_path root_dir dry verb fs,
    read_content text_decode [utf_8; latin_1; cp1252] file_path fs
    = (fs, Ok (Some content)) →
    update_references_in_file text_decode text_encode file_path m root_dir
      dry verb fs = (fs, Ok 0%nat).
Proof.
  intros Hm.
  assert (Hloop : ∀ r, apply_mappings m content r = Ok (content, r)).
  { induction m as [|[old new] m IH]; intros r; [done|]. cbn [apply_mappings].
    destruct (Hm old new ltac:(left)) as [Hsafe Hno].
    rewrite (apply_patterns_unchanged _ _ _ _ Hsafe Hno). cbn [rbind].
    apply IH. intros o n' Hin. apply Hm. by right. }
  split; [apply Hloop|].
  intros file_path root_dir dry verb fs Hread.
  rewrite update_references_cases, Hread, Hloop.
  by rewrite bool_decide_eq_true_2.
Qed.

(** X13. When the encoder accepts every text, the dry run of an update
    reports the count that the real run reports. And a real run that
    changes the file system has read the file, found a text that differs
    from the one it read, and left the encoding of that text in the
    file. *)
Theorem dry_run_reports_real_count (file_path : Path) (m : dict)
    (root_dir : Path) (verb : bool) (fs : FS) :
  (∀ content, is_Some (text_encode content)) →
  (update_references_in_file text_decode text_encode file_path m root_dir
     false verb fs).2
  = (update_references_in_file text_decode text_encode file_path m root_dir
       true verb fs).2 ∧
  ∀ fs' n,
    update_references_in_file text_decode text_encode file_path m root_dir
      false verb fs = (fs', Ok n) →
    fs' ≠ fs →
    ∃ original_content content data,
      read_content text_decode [utf_8; latin_1; cp1252] file_path fs
      = (fs, Ok (Some original_content)) ∧
      apply_mappings m original_content 0 = Ok (content, n) ∧
      content ≠ original_content ∧
      text_encode content = Some data ∧ fs' = <[file_path := data]> fs.
Proof.
  intros Henc. rewrite !update_references_cases.
  pose proof (readonly_read_content text_decode [utf_8; latin_1; cp1252]
                file_path fs) as Hro.
  destruct (read_content _ _ _ fs) as [fs0 rc]. simpl in Hro. subst fs0.
  destruct rc as [[original_content|]|e];
    [|split; [done|by intros ? ? [= <- _] ?]..].
  destruct (apply_mappings m original_content 0) as [[content n]|e] eqn:Emap;
    [|split; [done|by intros ? ? [= <- _] ?]].
  rewrite orb_true_r, orb_false_r.
  case_bool_decide as Hsame; [split; [done|by intros ? ? [= <- _] ?]|].
  destruct (Henc content) as [data Hdata]. rewrite Hdata. split; [done|].
  intros fs' n' [= <- <-] _. by exists original_content, content, data.
Qed.

(** The loop over the code files never raises, and only code files that
    were there are written. *)
Lemma update_files_effect (args : arguments) (m : dict) (root_dir : Path)
    (code_files : list Path) (acc : nat * nat) (fs : FS) :
  ∃ fs' total updated,
    update_files text_decode text_encode args m root_dir code_files acc fs
    = (fs', Ok (total, updated)) ∧
    (acc.2 ≤ updated ≤ acc.2 + length code_files)%nat ∧
    (updated - acc.2 ≤ total - acc.1)%nat ∧ (acc.1 ≤ total)%nat ∧
    (∀ x, x ∉ code_files → fs' !! x = fs !! x) ∧
    (∀ x, is_Some (fs' !! x) ↔ is_Some (fs !! x)).
Proof.
  revert acc fs. induction code_files as [|f code_files IH]; intros acc fs.
  - exists fs, acc.1, acc.2. simpl. destruct acc.
    split_and!; [done|simpl; lia..|done|done].
  - simpl. unfold bind at 1.
    destruct (update_references_effect text_decode text_encode f m root_dir
                (dry_run args)
                (verbose args) fs) as (fs1 & n & -> & Hfs1).
    set (acc1 := if (0 <? n)%nat then _ else acc).
    destruct (IH acc1 fs1) as (fs' & total & updated & -> & H1 & H2 & H3 & H4 & H5).
    exists fs', total, updated.
    assert (Hacc : (acc.2 ≤ acc1.2 ≤ acc.2 + 1 ∧ acc.1 ≤ acc1.1 ∧
                    acc1.2 - acc.2 ≤ acc1.1 - acc.1)%nat).
    { subst acc1. destruct (0 <? n)%nat eqn:E; simpl; [|lia].
      apply Nat.ltb_lt in E. lia. }
    assert (Hframe : ∀ x, x ≠ f → fs1 !! x = fs !! x).
    { intros x Hx. destruct Hfs1 as [->|(d & -> & _)]; [done|].
      by rewrite lookup_insert_ne. }
    assert (Hdom : ∀ x, is_Some (fs1 !! x) ↔ is_Some (fs !! x)).
    { intros x. destruct Hfs1 as [->|(d & -> & Hf)]; [done|].
      destruct (decide (f = x)) as [<-|?].
      - rewrite lookup_insert_eq. split; eauto.
      - by rewrite lookup_insert_ne. }
    split_and!; [done|lia..| |].
    + intros x Hx. apply not_elem_of_cons in Hx as [Hne Hx].
      rewrite H4 by done. by apply Hframe.
    + intros x. by rewrite H5.
Qed.

(** X15. The rewriting phase always comes to its end: no code file makes
    it raise. The number of files it reports as updated is at most the
    number of code files and at most the number of replacements; it writes
    code files only, and neither creates nor deletes a file. *)
Theorem rewriting_phase_is_contained (args : arguments) (m : dict)
    (root_dir : Path) (code_files : list Path) (fs : FS) :
  ∃ fs' total updated,
    update_files text_decode text_encode args m root_dir code_files
      (0, 0)%nat fs = (fs', Ok (total, updated)) ∧
    (updated ≤ length code_files)%nat ∧ (updated ≤ total)%nat ∧
    (∀ x, x ∉ code_files → fs' !! x = fs !! x) ∧
    (∀ x, is_Some (fs' !! x) ↔ is_Some (fs !! x)).
Proof.
  destruct (update_files_effect args m root_dir code_files (0, 0)%nat fs)
    as (fs' & total & updated & E & H1 & H2 & _ & H4 & H5).
  exists fs', total, updated. simpl in *. split_and!; [done|lia|lia|done|done].
Qed.
End Unreferenced.

(** ** New names that start with a digit *)

Lemma digit_template_raises (old new : str) :
  breaks_template new = true →
  parse_template (count_groups (pattern_quoted old)) (repl_quoted new)
  = Raise ReError.
Proof.
  intros Hb.
  assert (Hn : count_groups (pattern_quoted old) = 4%nat).
  { simpl. by rewrite count_groups_escape. }
  rewrite Hn. destruct new as [|d rest]; [done|]. simpl in Hb.
  apply andb_true_iff in Hb as [Hd Hoct]. apply negb_true_iff in Hoct.
  unfold repl_quoted.
  change (py "\1\2" ++ (d :: rest) ++ py "\4")
    with ("\"%char :: "1"%char :: "\"%char :: "2"%char :: d :: rest ++ py "\4").
  rewrite parse_template_ref by done.
  assert (Hgroup : ∀ tl, addgroup 4 (decimal ["2"%char; d]) tl = Raise ReError).
  { intros tl. unfold addgroup.
    assert (Hlt : (N.of_nat 4 <? decimal ["2"%char; d])%N = true).
    { apply N.ltb_lt. unfold decimal. simpl fold_left.
      change (digit_val "2") with 2%nat. lia. }
    by rewrite Hlt. }
  assert (Hinner : parse_template 4
            ("\"%char :: "2"%char :: d :: rest ++ py "\4") = Raise ReError).
  { cbn [parse_template]. simpl negb. cbv iota.
    change (Ascii.eqb "2" "g") with false.
    change (Ascii.eqb "2" "0") with false.
    change (is_digit "2") with true. cbv iota. rewrite Hd.
    change (is_octdigit "2") with true.
    destruct rest as [|d2 rest]; simpl in Hoct |- *.
    - rewrite andb_false_r in *. apply Hgroup.
    - rewrite Hoct. apply Hgroup. }
  by rewrite Hinner.
Qed.

Lemma apply_patterns_digit (old new content : str) (r : nat) :
  breaks_template new = true →
  apply_patterns (patterns old new) content r = Raise ReError.
Proof.
  intros Hb. unfold patterns. cbn [apply_patterns]. unfold re_subn at 1.
  by rewrite (digit_template_raises old new Hb).
Qed.

Lemma apply_mappings_digit (m : dict) (old new content : str) (r : nat) :
  (old, new) ∈ m → breaks_template new = true →
  ∃ e, apply_mappings m content r = Raise e.
Proof.
  intros Hin Hb. revert content r.
  induction m as [|[o n'] m IH]; intros content r;
    [by apply elem_of_nil in Hin|].
  cbn [apply_mappings].
  apply elem_of_cons in Hin as [[= <- <-]|Hin].
  - rewrite (apply_patterns_digit _ _ _ _ Hb). simpl. eauto.
  - destruct (apply_patterns (patterns o n') content r) as [[c' r']|e];
      simpl; [by apply IH|eauto].
Qed.

Section DigitNames.
Variable text_decode : encoding -> bytes -> option str.
Variable text_encode : str -> option bytes.

Lemma update_references_digit (m : dict) (old new : str) (file_path : Path)
    (root_dir : Path) (dry verb : bool) (fs : FS) :
  (old, new) ∈ m → breaks_template new = true →
  update_references_in_file text_decode text_encode file_path m root_dir
    dry verb fs = (fs, Ok 0%nat).
Proof.
  intros Hin Hb. rewrite update_references_cases.
  destruct (read_content _ _ _ fs) as [fs0 [[original_content|]|e]]; [|done..].
  by destruct (apply_mappings_digit m old new original_content 0 Hin Hb)
    as [e ->].
Qed.

Lemma update_files_digit (m : dict) (old new : str) (args : arguments)
    (root_dir : Path) (code_files : list Path) (fs : FS) :
  (old, new) ∈ m → breaks_template new = true →
  update_files text_decode text_encode args m root_dir code_files
    (0, 0)%nat fs = (fs, Ok (0, 0)%nat).
Proof.
  intros Hin Hb. induction code_files as [|f code_files IH]; [done|].
  simpl. unfold bind.
  by rewrite (update_references_digit m old new f _ _ _ fs Hin Hb).
Qed.

(** X16. One entry of the mapping whose new name starts with a digit
    (and is not read as an octal escape) stops the rewriting of every code
    file: the template of that entry is refused whatever the text, so the
    loop over the mapping raises for every content, every update returns
    zero replacements and writes nothing, and the whole rewriting phase
    reports no replacement and no updated file. *)
Theorem digit_name_blocks_every_update (m : dict) (old new : str) :
  (old, new) ∈ m → breaks_template new = true →
  (∀ content r, ∃ e, apply_mappings m content r = Raise e) ∧
  (∀ file_path root_dir dry verb fs,
     update_references_in_file text_decode text_encode file_path m root_dir
       dry verb fs = (fs, Ok 0%nat)) ∧
  (∀ args root_dir code_files fs,
     update_files text_decode text_encode args m root_dir code_files
       (0, 0)%nat fs = (fs, Ok (0, 0)%nat)).
Proof.
  intros Hin Hb. split_and!; intros.
  - by eapply apply_mappings_digit.
  - by eapply update_references_digit.
  - by eapply update_files_digit.
Qed.
End DigitNames.


Section DigitImages.
Variable codec : bytes -> Z -> codec_result.
Variable rglob : FS -> Path -> list Path.
Variable text_decode : encoding -> bytes -> option str.
Variable text_encode : str -> option bytes.

End DigitImages.

(** ** The length of a rewritten text *)

Lemma ci_match_length (old old' : str) : ci_match old old' → length old' = length old.
Proof. intros H. symmetry. by eapply Forall2_length. Qed.

Lemma rewritten_length (shape : str -> str -> Prop) (lo ln : nat)
    (text out : str) (n : nat) :
  (∀ m m', shape m m' → (length m' + lo = length m + ln)%nat) →
  rewritten shape text out n →
  (length out + n * lo = length text + n * ln)%nat.
Proof.
  intros Hshape. induction 1 as [|c s out n _ IH|m m' s out n Hm _ IH];
    [done|simpl; lia|].
  rewrite !length_app. specialize (Hshape _ _ Hm). lia.
Qed.

(** X18. Each replacement of a rule changes the length of the text by the
    difference between the lengths of the new and the old name, and
    nothing else does: with [n] replacements, the length of the output
    plus [n] times the length of the old name is the length of the input
    plus [n] times the length of the new name. *)
Theorem replacement_changes_length_by_names (old new text : str) :
  template_safe new →
  ∀ rule out n,
    rule ∈ patterns old new →
    re_subn rule.1 rule.2 text = Ok (out, n) →
    (length out + n * length old = length text + n * length new)%nat.
Proof.
  intros Hsafe rule out n Hrule Hsubn.
  assert (Hlen : ∀ (shape : str -> str -> Prop),
    rule_rewrites rule.1 rule.2 shape text →
    (∀ m m', shape m m' →
       (length m' + length old = length m + length new)%nat) →
    (length out + n * length old = length text + n * length new)%nat).
  { intros shape (out' & n' & E & Hrw & _) Hshape.
    rewrite Hsubn in E. injection E as <- <-.
    by eapply rewritten_length. }
  unfold patterns in Hrule.
  repeat (apply elem_of_cons in Hrule as [->|Hrule]);
    [| | |by apply elem_of_nil in Hrule]; simpl in *.
  - apply (Hlen (quoted_shape old new)).
    + eapply rule_rewrites_intro;
        [by apply template_quoted|apply quoted_sound|apply quoted_complete].
    + intros m m' (q & prefix & old' & q' & -> & -> & _ & _ & _ & Ho).
      apply ci_match_length in Ho. simpl. rewrite !length_app. simpl. lia.
  - apply (Hlen (url_shape old new)).
    + eapply rule_rewrites_intro;
        [by apply template_url|apply url_sound|apply url_complete].
    + intros m m' (u & r & l & ws1 & ws2 & qo & prefix & old' & qc & ws3 & H).
      cbv zeta in H. destruct H as (-> & -> & _ & _ & _ & _ & _ & Ho & _).
      apply ci_match_length in Ho. rewrite !length_app. lia.
  - apply (Hlen (markdown_shape old new)).
    + eapply rule_rewrites_intro;
        [by apply template_markdown|apply markdown_sound|apply markdown_complete].
    + intros m m' (alt & ws & prefix & old' & H).
      cbv zeta in H. destruct H as (-> & -> & _ & _ & _ & Ho).
      apply ci_match_length in Ho. rewrite !length_app. lia.
Qed.

(** ** The ways out of [main] *)

Section Outcomes.
Variable codec : bytes -> Z -> codec_result.
Variable rglob : FS -> Path -> list Path.
Variable text_decode : encoding -> bytes -> option str.
Variable text_encode : str -> option bytes.

(** X19. [main] leaves through its early exits exactly on bad input, and
    then it has touched nothing: a quality outside 1..100 or a root that is
    not a directory gives exit status 1 on the unchanged file system; a
    valid run that finds no image returns early, also on the unchanged file
    system; and a valid run that finds images never ends in an early exit:
    if it returns, it returns a report on the images found. *)
Theorem main_early_exits (env : environment) (args : arguments) (fs : FS) :
  let root_dir := root_directory env args in
  let valid :=
    1 ≤ quality args ≤ 100 ∧
    (dir_exists (directories env) root_dir fs).2 = Ok true in
  let images := scan rglob IMAGE_EXTENSIONS fs root_dir in
  let run := main codec rglob text_decode text_encode env args fs in
  (¬ valid → run = (fs, Ok (Exit 1))) ∧
  (valid → images = [] → run = (fs, Ok NoImages)) ∧
  (valid → images ≠ [] →
   ∀ fs' o, run = (fs', Ok o) → ∃ r, o = Done r ∧ found r = images).
Proof.
  intros root_dir valid images run. subst valid run.
  unfold main, dir_exists. fold root_dir. unfold bind, find_images, find_code_files.
  fold images. cbn [snd].
  destruct (negb (_ && _)) eqn:Hq.
  { split_and!; [done|intros [Hv _]; exfalso..];
      apply negb_true_iff, andb_false_iff in Hq as [Hq|Hq];
      apply Z.leb_gt in Hq; lia. }
  apply negb_false_iff, andb_true_iff in Hq as [Hq1 Hq2].
  apply Z.leb_le in Hq1, Hq2.
  destruct (bool_decide _ || existsb _ _ || _ || _); cbn [negb].
  2:{ split_and!; [done|by intros [_ [=]]..]. }
  case_bool_decide as Himages.
  { split_and!; [intros Hv; exfalso; by apply Hv|done|done]. }
  split_and!; [intros Hv; exfalso; by apply Hv|done|].
  intros _ _ fs' o.
  destruct (convert_images _ _ _ _ _) as [fs1 [conv|e]]; [|done].
  case_bool_decide.
  - unfold ret at 1.
    destruct (delete_phase _ _ _) as [fs3 [del|e]]; [|done].
    unfold ret. intros [= <- <-]. eauto.
  - destruct (update_files _ _ _ _ _ _ _ fs1) as [fs2 [counts|e]]; [|done].
    unfold ret at 1.
    destruct (delete_phase _ _ _) as [fs3 [del|e]]; [|done].
    unfold ret. intros [= <- <-]. eauto.
Qed.
End Outcomes.

(** ** Path variants *)

Lemma join_slash_last (l : list str) :
  l ≠ [] → ∃ pre, join_slash l = pre ++ List.last l [].
Proof.
  induction l as [|a l IH]; [done|]. intros _.
  destruct l as [|b l]; [by exists []|].
  destruct IH as [pre Hpre]; [done|].
  exists (a ++ "/"%char :: pre).
  change (join_slash (a :: b :: l)) with (a ++ "/"%char :: join_slash (b :: l)).
  rewrite Hpre. change (List.last (a :: b :: l) []) with (List.last (b :: l) []).
  by rewrite <- app_assoc.
Qed.

Lemma Path_str_last (p : Path) :
  p ≠ [] → ∃ pre, Path_str p = pre ++ List.last p [].
Proof.
  destruct p as [|a rest]; [done|]. intros _. unfold Path_str.
  destruct (is_anchor a); [|by apply join_slash_last].
  destruct rest as [|b rest]; [exists []; by rewrite app_nil_r|].
  destruct (join_slash_last (b :: rest)) as [pre Hpre]; [done|].
  exists (a ++ pre). rewrite Hpre.
  change (List.last (a :: b :: rest) []) with (List.last (b :: rest) []).
  by rewrite <- app_assoc.
Qed.

Lemma name_is_last (p : Path) : name p ≠ [] → p ≠ [] ∧ name p = List.last p [].
Proof.
  destruct p as [|a [|b rest]]; [done| |done]. simpl.
  by destruct (is_anchor a).
Qed.

Lemma last_drop (n : nat) (p : Path) :
  drop n p ≠ [] → List.last (drop n p) [] = List.last p [].
Proof.
  intros Hd. rewrite <- (take_drop n p) at 2.
  generalize dependent (drop n p). intros l Hl.
  induction (take n p) as [|x t IH]; [done|].
  rewrite IH. simpl. destruct (t ++ l) eqn:E; [|done].
  by apply app_eq_nil in E as [_ ->].
Qed.

(** X20. Every path variant of an image ends with the file name of the
    image, up to the replacement of backslashes, whatever the root is:
    when the image has a name and is not the root itself, each of the
    variants, with its backslashes turned into slashes, is some prefix
    followed by the file name with its backslashes turned into slashes.
    The file name itself is always one of the variants. *)
Theorem variants_end_with_filename (image_path root_dir : Path) :
  name image_path ≠ [] → image_path ≠ root_dir →
  name image_path ∈ get_relative_path_variants image_path root_dir ∧
  ∀ v, v ∈ get_relative_path_variants image_path root_dir →
       ∃ pre, replace_backslash v = pre ++ replace_backslash (name image_path).
Proof.
  intros Hname Hneq.
  destruct (name_is_last _ Hname) as [Hnil Hlast].
  unfold get_relative_path_variants.
  set (rel_path := match relative_to image_path root_dir with
                   | Ok rel => rel | Raise _ => image_path end).
  assert (Hrel : ∃ pre, Path_str rel_path = pre ++ name image_path).
  { rewrite Hlast. subst rel_path. unfold relative_to.
    destruct root_dir as [|r root_dir].
    { destruct (is_absolute image_path); by apply Path_str_last. }
    case_bool_decide as Htake; [|by apply Path_str_last].
    assert (Hdrop : drop (length (r :: root_dir)) image_path ≠ []).
    { intros Hd. apply Hneq. rewrite <- (take_drop (length (r :: root_dir))
        image_path). by rewrite Hd, app_nil_r. }
    rewrite <- (last_drop _ _ Hdrop). by apply Path_str_last. }
  destruct Hrel as [pre Hpre]. cbv zeta. split; [set_solver|].
  assert (Hmap : ∀ a b, replace_backslash (a ++ b)
                 = replace_backslash a ++ replace_backslash b)
    by (intros; apply map_app).
  assert (Hidem : ∀ a, replace_backslash (replace_backslash a)
                  = replace_backslash a).
  { intros a. unfold replace_backslash. rewrite map_map. apply map_ext.
    intros c. destruct (Ascii.eqb c "\") eqn:E; [done|by rewrite E]. }
  intros v Hv. rewrite Hpre in Hv.
  repeat (apply elem_of_union in Hv as [Hv|Hv]);
    apply elem_of_singleton in Hv as ->.
  - by exists [].
  - rewrite Hidem, Hmap. eauto.
  - rewrite Hmap, Hidem, Hmap, app_assoc. eauto.
  - rewrite Hmap, Hidem, Hmap, app_assoc. eauto.
  - rewrite Hmap. eauto.
Qed.

(** * The further properties on the sample site *)

(** X1 for a root inside a package directory: the image below it is not
    found. *)
Lemma nothing_found_below_excluded_witness :
  (∀ item, item ∈ sample_rglob modules_fs modules → modules `prefix_of` item) ∧
  (∃ e, e ∈ EXCLUDE_DIRS ∧ e ∈ modules) ∧
  is_Some (modules_fs !! (modules ++ [py "pkg"; py "icon.png"])) ∧
  find_images sample_rglob modules modules_fs = (modules_fs, Ok []).
Proof.
  assert (Hbelow : ∀ item, item ∈ sample_rglob modules_fs modules →
                           modules `prefix_of` item).
  { intros item. unfold sample_rglob. rewrite list_elem_of_In, filter_In.
    intros [_ H]. by apply bool_decide_eq_true in H. }
  assert (Hex : ∃ e, e ∈ EXCLUDE_DIRS ∧ e ∈ modules)
    by (exists (py "node_modules"); split; decided).
  split_and!; [exact Hbelow|exact Hex|eexists; evaluate|].
  exact (proj1 (proj2 (nothing_found_below_excluded sample_rglob modules_fs
                         modules IMAGE_EXTENSIONS) Hbelow Hex)).
Defined.

(** X19 for a quality of zero (exit status 1, nothing touched) and for a
    root that is an empty directory (the early return, nothing touched). *)
Lemma main_early_exits_witness :
  ¬ (1 ≤ quality bad_args ≤ 100) ∧
  sample_main bad_args site_fs = (site_fs, Ok (Exit 1)) ∧
  root_directory sample_env empty_args = site ++ [py "empty"] ∧
  1 ≤ quality empty_args ≤ 100 ∧
  (dir_exists (directories sample_env) (root_directory sample_env empty_args)
     site_fs).2 = Ok true ∧
  scan sample_rglob IMAGE_EXTENSIONS site_fs
    (root_directory sample_env empty_args) = [] ∧
  sample_main empty_args site_fs = (site_fs, Ok NoImages).
Proof.
  assert (Hq : ¬ (1 ≤ quality bad_args ≤ 100)) by (simpl; lia).
  assert (Hq' : 1 ≤ quality empty_args ≤ 100) by (simpl; lia).
  assert (Hdir : (dir_exists (directories sample_env)
                    (root_directory sample_env empty_args) site_fs).2
                 = Ok true) by evaluate.
  assert (Hnil : scan sample_rglob IMAGE_EXTENSIONS site_fs
                   (root_directory sample_env empty_args) = []) by evaluate.
  refine (conj Hq (conj _ (conj _ (conj Hq' (conj Hdir (conj Hnil _)))))).
  - exact (proj1 (main_early_exits sample_codec sample_rglob sample_decode
                    sample_encode sample_env bad_args site_fs)
             (fun Hv => Hq (proj1 Hv))).
  - evaluate.
  - exact (proj1 (proj2 (main_early_exits sample_codec sample_rglob
                           sample_decode sample_encode sample_env empty_args
                           site_fs))
             (conj Hq' Hdir) Hnil).
Defined.

(** X3 for the photo of the sample site, with a backup. *)
Lemma conversion_success_witness :
  with_suffix photo_jpg (py ".webp") = Ok photo_webp ∧
  (∃ b, with_suffix photo_jpg (suffix photo_jpg ++ py ".backup") = Ok b) ∧
  site_fs !! photo_jpg = Some (file "JPEGDATA") ∧
  ∃ fs1,
    convert_to_webp sample_codec photo_jpg 85 true site_fs
      = (fs1, Ok (photo_webp, true)) ∧
    fs1 !! photo_webp = Some (file "PEGDATA").
Proof.
  assert (Hw : with_suffix photo_jpg (py ".webp") = Ok photo_webp) by evaluate.
  assert (Hb : ∃ b, with_suffix photo_jpg (suffix photo_jpg ++ py ".backup")
                    = Ok b) by (exists photo_backup; evaluate).
  assert (Hdata : site_fs !! photo_jpg = Some (file "JPEGDATA")) by evaluate.
  split_and!; [exact Hw|exact Hb|exact Hdata|].
  destruct (proj1 (conversion_success sample_codec photo_jpg photo_webp 85 true
                     site_fs Hw (fun _ => Hb))
              (file "JPEGDATA") (file "PEGDATA") Hdata eq_refl)
    as (fs1 & H1 & H2 & _).
  exists fs1. auto.
Defined.

(** X4 for the photo: the conversion leaves the photo and the page as they
    were. *)
Lemma conversion_writes_two_paths_witness :
  let run := convert_to_webp sample_codec photo_jpg 85 true site_fs in
  with_suffix photo_jpg (py ".webp") = Ok photo_webp ∧
  photo_jpg ≠ photo_webp ∧
  run.1 !! photo_jpg = site_fs !! photo_jpg ∧
  run.1 !! index_html = site_fs !! index_html.
Proof.
  intros run.
  assert (Hw : with_suffix photo_jpg (py ".webp") = Ok photo_webp) by evaluate.
  assert (Hne : photo_jpg ≠ photo_webp)
    by (intros H; vm_compute in H; discriminate).
  destruct (conversion_writes_two_paths sample_codec photo_jpg photo_webp 85
              true site_fs run.1 run.2 Hw (surjective_pairing run))
    as (H1 & _ & H3 & _).
  split_and!; [exact Hw|exact Hne|exact (H3 Hne)|].
  apply H1; intros H; vm_compute in H; discriminate.
Defined.

(** X6 on the sample site: one image converted, two failed. *)
Lemma converted_and_failed_split_images_witness :
  let run := convert_images sample_codec real_args site_images no_conversion
               site_fs in
  run = (run.1, Ok (conv_of run)) ∧
  (length (converted (conv_of run)) + length (failed (conv_of run))
   = length site_images)%nat ∧
  failed (conv_of run) `sublist_of` site_images.
Proof.
  intros run.
  assert (Hrun : run = (run.1, Ok (conv_of run))).
  { rewrite (surjective_pairing run) at 1. by f_equal. }
  destruct (converted_and_failed_split_images sample_codec real_args
              site_images site_fs run.1 (conv_of run) Hrun)
    as (H1 & _ & H3 & _).
  split_and!; [exact Hrun|exact H1|exact H3].
Defined.

(** X7 on the sample site. *)
Lemma original_size_is_size_on_disk_witness :
  let run := convert_images sample_codec real_args site_images no_conversion
               site_fs in
  find_images sample_rglob site site_fs = (site_fs, Ok site_images) ∧
  run = (run.1, Ok (conv_of run)) ∧
  total_original_size (conv_of run) = total_size site_fs site_images.
Proof.
  intros run.
  assert (Hscan : find_images sample_rglob site site_fs = (site_fs, Ok site_images))
    by (unfold find_images; do 2 f_equal; evaluate).
  assert (Hrun : run = (run.1, Ok (conv_of run))).
  { rewrite (surjective_pairing run) at 1. by f_equal. }
  split_and!; [exact Hscan|exact Hrun|].
  exact (original_size_is_size_on_disk sample_codec sample_rglob real_args site
           site_images site_fs run.1 (conv_of run) Hscan Hrun).
Defined.

(** X8: a JPEG and a PNG of the same stem in one directory have the same
    destination. *)
Lemma same_destination_iff_witness :
  with_suffix photo_jpg (py ".webp") = Ok photo_webp ∧
  with_suffix photo_png (py ".webp") = Ok photo_webp ∧
  parent photo_jpg = parent photo_png ∧ stem photo_jpg = stem photo_png ∧
  ∃ fs1 ok,
    convert_to_webp sample_codec photo_png 85 true site_fs
    = (fs1, Ok (photo_webp, ok)).
Proof.
  assert (H1 : with_suffix photo_jpg (py ".webp") = Ok photo_webp) by evaluate.
  assert (H2 : with_suffix photo_png (py ".webp") = Ok photo_webp) by evaluate.
  destruct (same_destination_iff sample_codec photo_jpg photo_png photo_webp
              photo_webp H1 H2) as (Hiff & _ & Hret).
  destruct (proj1 Hiff eq_refl) as [Hp Hs].
  split_and!; [exact H1|exact H2|exact Hp|exact Hs|exact (Hret 85 true site_fs)].
Defined.

(** X10 for the photo in the real run over the sample site. *)
Lemma converted_files_are_on_disk_witness :
  let run := sample_main real_args site_fs in
  run = (run.1, Ok (Done (the_report run))) ∧ dry_run real_args = false ∧
  (photo_jpg, photo_webp) ∈ converted (images_done (the_report run)) ∧
  is_Some (run.1 !! photo_webp).
Proof.
  intros run.
  assert (Hrun : run = (run.1, Ok (Done (the_report run)))).
  { rewrite (surjective_pairing run) at 1. by f_equal. }
  assert (Hin : (photo_jpg, photo_webp)
                ∈ converted (images_done (the_report run))) by decided.
  split_and!; [exact Hrun|reflexivity|exact Hin|].
  exact (proj2 (converted_files_are_on_disk sample_codec sample_rglob
                  sample_decode sample_encode sample_env real_args site_fs
                  run.1 (the_report run) Hrun eq_refl photo_jpg photo_webp Hin)).
Defined.

(** X12 for a text without the name of the photo. *)
Lemma unreferenced_text_is_unchanged_witness :
  (∀ old new, (old, new) ∈ photo_mapping →
     template_safe new ∧ ¬ occurs_ci old (py "<p>no image here</p>")) ∧
  apply_mappings photo_mapping (py "<p>no image here</p>") 0
  = Ok (py "<p>no image here</p>", 0%nat).
Proof.
  assert (H : ∀ old new, (old, new) ∈ photo_mapping →
     template_safe new ∧ ¬ occurs_ci old (py "<p>no image here</p>")).
  { intros old new Hin. unfold photo_mapping in Hin.
    apply list_elem_of_singleton in Hin as [= -> ->]. split.
    - split; [apply (bool_decide_eq_false_1 _); evaluate|reflexivity].
    - intros Ho. apply occurs_cib_complete in Ho. vm_compute in Ho.
      discriminate. }
  split; [exact H|].
  exact (proj1 (unreferenced_text_is_unchanged sample_decode sample_encode
                  photo_mapping (py "<p>no image here</p>") H)).
Defined.

(** X13 for the page of the sample site. *)
Lemma dry_run_reports_real_count_witness :
  (∀ content, is_Some (sample_encode content)) ∧
  (update_references_in_file sample_decode sample_encode index_html
     photo_mapping site false false site_fs).2
  = (update_references_in_file sample_decode sample_encode index_html
       photo_mapping site true false site_fs).2.
Proof.
  assert (H : ∀ content, is_Some (sample_encode content))
    by (intros content; eexists; reflexivity).
  split; [exact H|].
  exact (proj1 (dry_run_reports_real_count sample_decode sample_encode
                  index_html photo_mapping site false site_fs H)).
Defined.

(** X16 for a mapping with the entry 1.jpg -> 1.webp, on the page of the
    sample site. *)
Lemma digit_name_blocks_every_update_witness :
  (py "1.jpg", py "1.webp") ∈ digit_mapping ∧
  breaks_template (py "1.webp") = true ∧
  update_references_in_file sample_decode sample_encode index_html
    digit_mapping site false false site_fs = (site_fs, Ok 0%nat).
Proof.
  assert (Hin : (py "1.jpg", py "1.webp") ∈ digit_mapping) by decided.
  split_and!; [exact Hin|reflexivity|].
  exact (proj1 (proj2 (digit_name_blocks_every_update sample_decode
                         sample_encode digit_mapping (py "1.jpg")
                         (py "1.webp") Hin eq_refl))
           index_html site false false site_fs).
Defined.


(** X18 for the quoted rule on an image tag. *)
Lemma replacement_changes_length_by_names_witness :
  template_safe (py "photo.webp") ∧
  re_subn (pattern_quoted (py "photo.jpg")) (repl_quoted (py "photo.webp"))
    (py "<img src='img/photo.jpg'>")
  = Ok (py "<img src='img/photo.webp'>", 1%nat) ∧
  (length (py "<img src='img/photo.webp'>") + 1 * length (py "photo.jpg")
   = length (py "<img src='img/photo.jpg'>") + 1 * length (py "photo.webp"))%nat.
Proof.
  assert (Hsafe : template_safe (py "photo.webp")).
  { split; [|reflexivity]. apply (bool_decide_eq_false_1 _). evaluate. }
  assert (Hsubn : re_subn (pattern_quoted (py "photo.jpg"))
                    (repl_quoted (py "photo.webp"))
                    (py "<img src='img/photo.jpg'>")
                  = Ok (py "<img src='img/photo.webp'>", 1%nat)) by evaluate.
  split_and!; [exact Hsafe|exact Hsubn|].
  exact (replacement_changes_length_by_names (py "photo.jpg") (py "photo.webp")
           (py "<img src='img/photo.jpg'>") Hsafe
           (pattern_quoted (py "photo.jpg"), repl_quoted (py "photo.webp"))
           (py "<img src='img/photo.webp'>") 1%nat
           (list_elem_of_here _ _) Hsubn).
Defined.

(** X20 for the photo and the root of the sample site: the relative path
    is a variant, and it ends with the file name. *)
Lemma variants_end_with_filename_witness :
  name photo_jpg ≠ [] ∧ photo_jpg ≠ site ∧
  py "img/photo.jpg" ∈ get_relative_path_variants photo_jpg site ∧
  ∃ pre, replace_backslash (py "img/photo.jpg")
         = pre ++ replace_backslash (name photo_jpg).
Proof.
  assert (Hname : name photo_jpg ≠ [])
    by (intros H; vm_compute in H; discriminate).
  assert (Hne : photo_jpg ≠ site) by (intros H; vm_compute in H; discriminate).
  assert (Hin : py "img/photo.jpg" ∈ get_relative_path_variants photo_jpg site).
  { unfold get_relative_path_variants. cbv zeta.
    rewrite !elem_of_union, !elem_of_singleton.
    left. left. left. right. evaluate. }
  split_and!; [exact Hname|exact Hne|exact Hin|].
  exact (proj2 (variants_end_with_filename photo_jpg site Hname Hne) _ Hin).
Defined.
